(** * GPIO examples of cion-rpi: line-handle lifecycle, Toggler and Relay

    Shallow embedding of the threaded libgpiod examples of the repository:

    - [Gpio2]   : [src/gpio2.c] (issuer and receiver threads, chip handle
                  passed in the thread arguments, chip closed by [main]);
    - [Managed] : the first program of [src/unnamed/part_001] (same two
                  threads, line handles tracked in a resource struct with
                  [*_init] / [*_terminate], global [CHIP], [reset_gpio]
                  registered with [atexit]).

    - [Gpio1]   : the second program of [src/unnamed/part_001] (two LED
                  threads running [led_thread], the issuer of [gpio2.c]
                  without its last re-request as input).

    The driver (libgpiod), [nanosleep], [printf], the threads library and
    [exit] are external.  A run is a function from a [world] (the replies of
    the environment to the calls of the program, in call order) to the trace
    of calls made and the way the run ends.  The value of an uninitialised
    local is an argument of the function that declares it. *)

From Stdlib Require Import ZArith List String Bool Lia.
Import ListNotations.
Local Open Scope Z_scope.

(** ** Platform model *)

(** [errno] after a failed call.  The three constants are the ones the
    source switches on; every other value takes the [default:] branch. *)
Inductive errno_t : Type :=
| EINTR
| EFAULT
| EINVAL
| EOTHER (n : Z).

(** [struct timespec]. *)
Record timespec : Type := mk_timespec { tv_sec : Z; tv_nsec : Z }.

Definition NSEC_PER_SEC : Z := 1000000000.

Definition ts_to_ns (t : timespec) : Z := tv_sec t * NSEC_PER_SEC + tv_nsec t.

Definition ts_of_ns (n : Z) : timespec :=
  {| tv_sec := n / NSEC_PER_SEC; tv_nsec := n mod NSEC_PER_SEC |}.

(** What the environment answers to one call: the value returned (an [int],
    or a pointer with [0] for [NULL]), the value left in [errno], and, for a
    [nanosleep] that was interrupted, the time in nanoseconds that had
    elapsed when the signal arrived. *)
Record reply : Type := mk_reply { r_val : Z; r_errno : errno_t; r_elapsed : Z }.

(** Arguments of a [printf]-like call (the text is not rendered). *)
Inductive parg : Type :=
| PInt (z : Z)
| PStr (s : string)
| PErrno (e : errno_t)
| PStrerror (e : errno_t).

(** One observable action of the program.  String literals keep their C
    source spelling, so [\n] in a format stands for the newline. *)
Inductive event : Type :=
| EChipOpen (name : string) (chip : Z)
| EChipClose (chip : Z)
| EGetLine (chip line_id line : Z)
| EReqOutput (line : Z) (consumer : string) (default_val rc : Z)
| EReqInput (line : Z) (consumer : string) (rc : Z)
| EReqBothEdges (line : Z) (consumer : string) (rc : Z)
| ESetValue (line value rc : Z)
| EEventWait (line rc : Z)
| EEventRead (line rc : Z)
| ERelease (line : Z)
| ENanosleep (req : timespec) (rp : reply)
| EStdout (fmt : string) (args : list parg)
| EStderr (fmt : string) (args : list parg)
| EAtexit (handler : string)
| EPthreadCreate (thread : string) (rc : Z)
| EPthreadJoin (index : Z)
| EExit (code : Z).

Definition trace : Type := list event.

(** The environment as one thread of control sees it: the replies still to
    come ([script] in call order, then [dflt] for ever) and the current value
    of [errno]. *)
Record world : Type :=
  mk_world { script : list reply; dflt : reply; errno : errno_t }.

(** The next reply; the call leaves its [errno] behind (the programs read
    [errno] only after a call that failed). *)
Definition next (w : world) : reply * world :=
  match script w with
  | [] => (dflt w, {| script := []; dflt := dflt w; errno := r_errno (dflt w) |})
  | r :: s => (r, {| script := s; dflt := dflt w; errno := r_errno r |})
  end.

(** How a piece of code ends: it returns a value, it calls [exit], or it
    never returns. *)
Inductive result (A : Type) : Type :=
| Ret (a : A) (w : world)
| Exit (code : Z)
| Hang.
Arguments Ret {A} a w.
Arguments Exit {A} code.
Arguments Hang {A}.

Definition M (A : Type) : Type := world -> trace * result A.

Definition pure {A} (a : A) : M A := fun w => ([], Ret a w).

Definition bind {A B} (m : M A) (f : A -> M B) : M B :=
  fun w =>
    match m w with
    | (t, Ret a w') => let (t', r) := f a w' in (t ++ t', r)
    | (t, Exit c) => (t, Exit c)
    | (t, Hang) => (t, Hang)
    end.

Notation "x <- m ;; k" := (bind m (fun x => k))
  (at level 61, m at next level, right associativity).
Notation "m ;; k" := (bind m (fun _ => k))
  (at level 61, right associativity).

(** A call that returns: the next reply is consumed and the call recorded. *)
Definition call (ev : reply -> event) : M reply :=
  fun w => let (r, w') := next w in ([ev r], Ret r w').

(** An action with nothing to return. *)
Definition emit (e : event) : M unit := fun w => ([e], Ret tt w).

(** [if (c) { m }]. *)
Definition when (c : bool) (m : M unit) : M unit := if c then m else pure tt.

(** [exit(code)]: control never comes back. *)
Definition exit {A} (code : Z) : M A := fun _ => ([EExit code], Exit code).

(** Code that never ends and does nothing more. *)
Definition hang {A} : M A := fun _ => ([], Hang).

(** Reading the variable [errno]. *)
Definition get_errno : M errno_t := fun w => ([], Ret (errno w) w).

(** [m] run [n] times in a row. *)
Fixpoint invoke (n : nat) (m : M unit) : M unit :=
  match n with
  | O => pure tt
  | S k => m ;; invoke k m
  end.

Definition run_trace {A} (m : M A) (w : world) : trace := fst (m w).
Definition run_result {A} (m : M A) (w : world) : result A := snd (m w).

(** [m] hands control back in world [w]. *)
Definition returns {A} (m : M A) (w : world) : Prop :=
  exists a w', run_result m w = Ret a w'.

(** ** libgpiod and libc calls *)

Definition gpiod_chip_open_by_name (name : string) : M Z :=
  r <- call (fun r => EChipOpen name (r_val r)) ;; pure (r_val r).

Definition gpiod_chip_close (chip : Z) : M unit := emit (EChipClose chip).

Definition gpiod_chip_get_line (chip line_id : Z) : M Z :=
  r <- call (fun r => EGetLine chip line_id (r_val r)) ;; pure (r_val r).

Definition gpiod_line_request_output (line : Z) (consumer : string)
    (default_val : Z) : M Z :=
  r <- call (fun r => EReqOutput line consumer default_val (r_val r)) ;;
  pure (r_val r).

Definition gpiod_line_request_input (line : Z) (consumer : string) : M Z :=
  r <- call (fun r => EReqInput line consumer (r_val r)) ;; pure (r_val r).

Definition gpiod_line_request_both_edges_events (line : Z) (consumer : string)
    : M Z :=
  r <- call (fun r => EReqBothEdges line consumer (r_val r)) ;; pure (r_val r).

Definition gpiod_line_set_value (line value : Z) : M Z :=
  r <- call (fun r => ESetValue line value (r_val r)) ;; pure (r_val r).

Definition gpiod_line_event_wait (line : Z) : M Z :=
  r <- call (fun r => EEventWait line (r_val r)) ;; pure (r_val r).

Definition gpiod_line_event_read (line : Z) : M Z :=
  r <- call (fun r => EEventRead line (r_val r)) ;; pure (r_val r).

Definition gpiod_line_release (line : Z) : M unit := emit (ERelease line).

Definition printf (fmt : string) (args : list parg) : M unit :=
  emit (EStdout fmt args).

Definition fprintf_stderr (fmt : string) (args : list parg) : M unit :=
  emit (EStderr fmt args).

(** The three [struct timespec] locals of the issuer, and the pointers [d]
    and [r] that range over them. *)
Record frame : Type :=
  mk_frame { duration : timespec; remaining : timespec;
             remaining_again : timespec }.

Inductive tsptr : Type := p_duration | p_remaining | p_remaining_again.

Definition load (f : frame) (p : tsptr) : timespec :=
  match p with
  | p_duration => duration f
  | p_remaining => remaining f
  | p_remaining_again => remaining_again f
  end.

Definition store (f : frame) (p : tsptr) (v : timespec) : frame :=
  match p with
  | p_duration =>
      {| duration := v; remaining := remaining f;
         remaining_again := remaining_again f |}
  | p_remaining =>
      {| duration := duration f; remaining := v;
         remaining_again := remaining_again f |}
  | p_remaining_again =>
      {| duration := duration f; remaining := remaining f;
         remaining_again := v |}
  end.

Definition is_EINTR (e : errno_t) : bool :=
  match e with EINTR => true | _ => false end.

(** [nanosleep(d, r)]: the request is read from [*d]; when the call is
    interrupted ([-1] with [EINTR]) the platform writes the time still to
    wait, the request less the time elapsed, to [*r]. *)
Definition nanosleep (f : frame) (d r : tsptr) : M (Z * frame) :=
  rp <- call (fun rp => ENanosleep (load f d) rp) ;;
  if (r_val rp =? -1) && is_EINTR (r_errno rp)
  then pure (r_val rp,
             store f r (ts_of_ns (ts_to_ns (load f d) - r_elapsed rp)))
  else pure (r_val rp, f).

(** [error]: the same function in both programs. *)
Definition error {A} (message : string) : M A :=
  fprintf_stderr "ERROR: %s\n" [PStr message] ;;
  exit 1.

(** The [do { ... } while (!done)] loop of the issuer.  [cleanup] is what the
    program runs before [error] on a fatal [errno] (nothing in [Gpio2],
    [issuer_thread_terminate] in [Managed]).  One reply is consumed per
    iteration; [fuel] is taken one more than the replies left in the script,
    so it runs out only when every later [nanosleep] is interrupted too. *)
Fixpoint sleep_loop (fuel : nat) (cleanup : M unit) (f : frame) (d r : tsptr)
    : M frame :=
  match fuel with
  | O => hang
  | S fuel' =>
      res <- nanosleep f d r ;;
      let '(rc, f') := res in
      if rc =? -1 then
        e <- get_errno ;;
        match e with
        | EINTR => sleep_loop fuel' cleanup f' r p_remaining_again
        | EFAULT =>
            cleanup ;;
            error "issuer: problem with copying information from user space"
        | EINVAL =>
            cleanup ;;
            error "issuer: unexpected period duration"
        | EOTHER _ =>
            cleanup ;;
            error "issuer: unexpected errno value"
        end
      else pure f'
  end.

(** The sleep of one cycle: [d = &duration; r = &remaining;] and the loop. *)
Definition do_sleep (cleanup : M unit) (f : frame) : M frame :=
  fun w =>
    sleep_loop (S (List.length (script w))) cleanup f p_duration p_remaining w.

(** [(cycle & 0x1) != 0] as an [int]. *)
Definition odd_bit (cycle : Z) : Z := if Z.land cycle 1 =? 0 then 0 else 1.

(** [!state] as an [int]. *)
Definition lnot (state : Z) : Z := if state =? 0 then 1 else 0.

Definition up_down (state : Z) : string :=
  if state =? 0 then "down"%string else "up"%string.

Definition CHIP_NAME : string := "gpiochip0".
Definition GPIO_16 : Z := 16.
Definition GPIO_17 : Z := 17.
Definition GPIO_21 : Z := 21.

(** ** Threads and process exit *)

Definition pthread_create (thread : string) : M Z :=
  r <- call (fun r => EPthreadCreate thread (r_val r)) ;; pure (r_val r).

Definition pthread_join (index : Z) : M unit := emit (EPthreadJoin index).

Definition atexit (handler : string) : M unit := emit (EAtexit handler).

(** How a thread of control ends. *)
Inductive outcome : Type :=
| Returned
| Exited (code : Z)
| Hangs.

Definition outcome_of {A} (r : result A) : outcome :=
  match r with
  | Ret _ _ => Returned
  | Exit c => Exited c
  | Hang => Hangs
  end.

Definition is_exit (e : event) : bool :=
  match e with EExit _ => true | _ => false end.

(** The trace of a process is followed up to its first [exit]: that call
    fixes the exit status.  What the threads still running do between that
    call and the end of the process is not part of the model: after the first
    [EExit] a trace shows at most the run of the exit handler, as it goes
    when nothing else runs. *)
Fixpoint until_exit (t : trace) : trace :=
  match t with
  | [] => []
  | e :: t' => if is_exit e then [e] else e :: until_exit t'
  end.

Fixpoint exit_code (t : trace) : option Z :=
  match t with
  | [] => None
  | EExit c :: _ => Some c
  | _ :: t' => exit_code t'
  end.

(** Two threads of control scheduled by [sched] ([true]: the first moves);
    when the schedule is used up the first runs to its end, then the
    second. *)
Fixpoint interleave (sched : list bool) (t1 t2 : trace) : trace :=
  match sched with
  | [] => t1 ++ t2
  | b :: sched' =>
      match t1, t2 with
      | [], _ => t2
      | _, [] => t1
      | e1 :: t1', e2 :: t2' =>
          if b then e1 :: interleave sched' t1' t2
          else e2 :: interleave sched' t1 t2'
      end
  end.

(** The concurrent phase of [main]: the issuer thread on one side; on the
    other the rest of [main] up to the second [pthread_create] and then the
    receiver thread.  The phase is followed up to the first [exit], or to
    the point where both sides have returned; otherwise [main] waits in
    [pthread_join] for ever. *)
Definition run_threads (sched : list bool) (first second : trace * outcome)
    : trace * outcome :=
  let t := until_exit (interleave sched (fst first) (fst second)) in
  match exit_code t with
  | Some c => (t, Exited c)
  | None =>
      match snd first, snd second with
      | Returned, Returned => (t, Returned)
      | _, _ => (t, Hangs)
      end
  end.

(** What the environment of one process run consists of: the replies to the
    calls of [main], of each thread and of the exit handler, the contents of
    the uninitialised locals of the threads, and the schedule. *)
Record process_world : Type := mk_process_world {
  pw_main : world;
  pw_issuer : world;
  pw_locals : frame;
  pw_receiver : world;
  pw_state0 : Z;
  pw_sched : list bool;
  pw_atexit : world
}.

(** ** [src/gpio2.c] *)
Module Gpio2.

Record issuer_args : Type := mk_issuer_args {
  duration_sec : Z;
  duration_nano_sec : Z;
  count : Z;
  line_id : Z;
  name : string;
  chip : Z
}.

Record receiver_args : Type := mk_receiver_args {
  r_count : Z;
  receiver_line_id : Z;
  controller_line_id : Z;
  receiver_name : string;
  controller_name : string;
  r_chip : Z
}.

(** The [for] loop of [issuer_thread]: [n] iterations are left and the loop
    variable is [cycle]. *)
Fixpoint issuer_loop (n : nat) (cycle : Z) (issuer : Z) (f : frame) : M frame :=
  match n with
  | O => pure f
  | S n' =>
      let state := odd_bit cycle in
      printf "I [%4ld] Set %s\n" [PInt cycle; PStr (up_down state)] ;;
      rc <- gpiod_line_set_value issuer state ;;
      when (rc =? -1) (error "issuer: cannot change the value of the output") ;;
      f' <- do_sleep (pure tt) f ;;
      issuer_loop n' (cycle + 1) issuer f'
  end.

(** [locals] holds whatever the uninitialised [remaining] and
    [remaining_again] contain on entry; [duration] is initialised from the
    arguments. *)
Definition issuer_thread (args : issuer_args) (locals : frame) : M unit :=
  let f := store locals p_duration
             {| tv_sec := duration_sec args;
                tv_nsec := duration_nano_sec args |} in
  issuer <- gpiod_chip_get_line (chip args) (line_id args) ;;
  when (issuer =? 0) (error "issuer: cannot get the line") ;;
  rc <- gpiod_line_request_output issuer (name args) 0 ;;
  when (rc =? -1)
    (gpiod_line_release issuer ;;
     error "issuer: cannot set the line's mode to output") ;;
  issuer_loop (Z.to_nat (count args)) 0 issuer f ;;
  rc <- gpiod_line_set_value issuer 0 ;;
  when (rc =? -1) (error "issuer: cannot change the value of the output") ;;
  gpiod_line_release issuer ;;
  issuer <- gpiod_chip_get_line (chip args) (line_id args) ;;
  when (issuer =? 0) (error "issuer: cannot get the line") ;;
  rc <- gpiod_line_request_input issuer (name args) ;;
  when (rc =? -1)
    (gpiod_line_release issuer ;;
     e <- get_errno ;;
     printf "errno: %d\n" [PErrno e] ;;
     e <- get_errno ;;
     printf "=> %s\n" [PStrerror e] ;;
     error "issuer: cannot set the line's mode to input") ;;
  gpiod_line_release issuer ;;
  pure tt.

(** The [for] loop of [receiver_thread]; [state] is the local of that
    name. *)
Fixpoint receiver_loop (n : nat) (receiver controller : Z) (state : Z)
    : M Z :=
  match n with
  | O => pure state
  | S n' =>
      rc <- gpiod_line_event_wait receiver ;;
      when (rc =? -1)
        (gpiod_line_release receiver ;;
         gpiod_line_release controller ;;
         error "receiver: error while waiting for an event") ;;
      rc <- gpiod_line_event_read receiver ;;
      when (rc =? -1)
        (gpiod_line_release receiver ;;
         gpiod_line_release controller ;;
         error "receiver: error while reading the event") ;;
      printf "Get an event!\n" [] ;;
      let state := lnot state in
      rc <- gpiod_line_set_value controller state ;;
      when (rc =? -1)
        (gpiod_line_release receiver ;;
         gpiod_line_release controller ;;
         error "contoller: cannot change the value of the output") ;;
      receiver_loop n' receiver controller state
  end.

(** [state0] is whatever the uninitialised local [state] contains on
    entry.  Reading it is undefined in C: the model follows the program when
    that content is 0 or 1, where every way of compiling [!state] gives the
    same levels; for any other content it is one possible behaviour only. *)
Definition receiver_thread (args : receiver_args) (state0 : Z) : M unit :=
  receiver <- gpiod_chip_get_line (r_chip args) (receiver_line_id args) ;;
  when (receiver =? 0)
    (error "receiver: cannot get the line used to receive messages from the issuer") ;;
  controller <- gpiod_chip_get_line (r_chip args) (controller_line_id args) ;;
  when (receiver =? 0)
    (error "receiver: cannot get the line used to control the LED") ;;
  rc <- gpiod_line_request_output controller (controller_name args) 0 ;;
  when (rc =? -1)
    (gpiod_line_release receiver ;;
     gpiod_line_release controller ;;
     error "receiver: cannot set the line's mode to input") ;;
  rc <- gpiod_line_request_both_edges_events receiver (receiver_name args) ;;
  when (rc =? -1)
    (e <- get_errno ;;
     printf "errno: %d\n" [PErrno e] ;;
     e <- get_errno ;;
     printf "=> %s\n" [PStrerror e] ;;
     gpiod_line_release receiver ;;
     gpiod_line_release controller ;;
     error "receiver: cannot set the line's callbacks") ;;
  receiver_loop (Z.to_nat (r_count args)) receiver controller state0 ;;
  rc <- gpiod_line_set_value controller 0 ;;
  when (rc =? -1)
    (error "receiver: cannot change the value of the output for the line that controls the LED") ;;
  gpiod_line_release receiver ;;
  gpiod_line_release controller ;;
  controller <- gpiod_chip_get_line (r_chip args) (controller_line_id args) ;;
  when (receiver =? 0)
    (error "receiver: cannot get the line used to control the LED") ;;
  rc <- gpiod_line_request_input controller (controller_name args) ;;
  when (rc =? -1)
    (gpiod_line_release controller ;;
     error "receiver: cannot set the line's mode to input") ;;
  gpiod_line_release controller ;;
  pure tt.

Definition issuer_arg (chip : Z) : issuer_args :=
  {| duration_sec := 1; duration_nano_sec := 0; count := 20;
     line_id := GPIO_16; name := "issuer"; chip := chip |}.

Definition receiver_arg (chip : Z) : receiver_args :=
  {| r_count := 10; receiver_line_id := GPIO_21;
     controller_line_id := GPIO_17; receiver_name := "receiver";
     controller_name := "controller"; r_chip := chip |}.

(** [main] up to the first [pthread_create]. *)
Definition main_open : M Z :=
  chip <- gpiod_chip_open_by_name CHIP_NAME ;;
  when (chip =? 0) (error "cannot open the chip") ;;
  pure chip.

Definition main_create (thread message : string) : M unit :=
  rc <- pthread_create thread ;;
  when (negb (rc =? 0)) (error message).

(** The second [pthread_create] followed, when it succeeds, by the thread it
    starts. *)
Definition main_second (chip : Z) (pw : process_world) (w : world)
    : trace * outcome :=
  match main_create "receiver_thread"
          "cannot create the thread for the receiver" w with
  | (t, Ret _ _) =>
      let (t', r) := receiver_thread (receiver_arg chip) (pw_state0 pw)
                       (pw_receiver pw) in
      (t ++ t', outcome_of r)
  | (t, r) => (t, outcome_of r)
  end.

(** The whole process: its trace and its exit status ([None] when it never
    exits). *)
Definition main (pw : process_world) : trace * option Z :=
  match main_open (pw_main pw) with
  | (t0, Ret chip w1) =>
      match main_create "issuer_thread"
              "cannot create the thread for the issuer" w1 with
      | (t1, Ret _ w2) =>
          let (ti, ri) := issuer_thread (issuer_arg chip) (pw_locals pw)
                            (pw_issuer pw) in
          match run_threads (pw_sched pw) (ti, outcome_of ri)
                  (main_second chip pw w2) with
          | (t2, Returned) =>
              (t0 ++ t1 ++ t2 ++
               run_trace (pthread_join 0 ;; pthread_join 1 ;;
                          gpiod_chip_close chip) w2,
               Some 0)
          | (t2, Exited c) => (t0 ++ t1 ++ t2, Some c)
          | (t2, Hangs) => (t0 ++ t1 ++ t2, None)
          end
      | (t1, Exit c) => (t0 ++ t1, Some c)
      | (t1, Hang) => (t0 ++ t1, None)
      end
  | (t0, Exit c) => (t0, Some c)
  | (t0, Hang) => (t0, None)
  end.

(** All tasks complete normally: the calls of [main] succeed and both thread
    functions return. *)
Definition completes (pw : process_world) : Prop :=
  exists chip w1 w2,
    run_result main_open (pw_main pw) = Ret chip w1
    /\ run_result (main_create "issuer_thread"
                     "cannot create the thread for the issuer") w1
       = Ret tt w2
    /\ returns (main_create "receiver_thread"
                  "cannot create the thread for the receiver") w2
    /\ returns (issuer_thread (issuer_arg chip) (pw_locals pw)) (pw_issuer pw)
    /\ returns (receiver_thread (receiver_arg chip) (pw_state0 pw))
         (pw_receiver pw).

End Gpio2.

(** ** The resource-struct program of [src/unnamed/part_001]

    [CHIP] is the file-scope variable of that name: it is written once by
    [main] before any thread starts, so it is passed as an argument. *)
Module Managed.

(** [reset_gpio], one iteration of its loop: the two [continue] branches and
    the release. *)
Definition reset_line (CHIP : Z) (pin : Z) : M unit :=
  l <- gpiod_chip_get_line CHIP pin ;;
  if l =? 0 then
    e <- get_errno ;;
    fprintf_stderr
      "Warning: error while resetting line #%d (gpiod_chip_get_line() - errno: %d)\n"
      [PInt pin; PErrno e]
  else
    rc <- gpiod_line_request_input l "line" ;;
    if rc =? -1 then
      e <- get_errno ;;
      fprintf_stderr
        "Warning: error while resetting line #%d (gpiod_line_request_input() - errno: %d)\n"
        [PInt pin; PErrno e]
    else
      gpiod_line_release l.

Fixpoint reset_lines (CHIP : Z) (pins : list Z) : M unit :=
  match pins with
  | [] => pure tt
  | pin :: rest => reset_line CHIP pin ;; reset_lines CHIP rest
  end.

Definition pins : list Z := [GPIO_16; GPIO_17; GPIO_21].

Definition reset_gpio (CHIP : Z) : M unit :=
  printf "Reset GPIO\n" [] ;;
  reset_lines CHIP pins ;;
  gpiod_chip_close CHIP.

Record issuer_args : Type := mk_issuer_args {
  duration_sec : Z;
  duration_nano_sec : Z;
  count : Z;
  line_id : Z
}.

Record issuer_thread_resource : Type :=
  mk_issuer_thread_resource { issuer : Z }.

(** The struct after [issuer_thread_init(&resource)]. *)
Definition issuer_thread_init : issuer_thread_resource := {| issuer := 0 |}.

Definition issuer_thread_terminate (resource : issuer_thread_resource)
    : M unit :=
  when (negb (issuer resource =? 0)) (gpiod_line_release (issuer resource)).

Fixpoint issuer_loop (n : nat) (cycle : Z) (resource : issuer_thread_resource)
    (f : frame) : M frame :=
  match n with
  | O => pure f
  | S n' =>
      let value := odd_bit cycle in
      printf "I [%4ld] Set %s\n" [PInt cycle; PStr (up_down value)] ;;
      rc <- gpiod_line_set_value (issuer resource) value ;;
      when (rc =? -1)
        (issuer_thread_terminate resource ;;
         error "issuer: cannot change the value of the output") ;;
      f' <- do_sleep (issuer_thread_terminate resource) f ;;
      issuer_loop n' (cycle + 1) resource f'
  end.

Definition issuer_thread (CHIP : Z) (args : issuer_args) (locals : frame)
    : M unit :=
  let f := store locals p_duration
             {| tv_sec := duration_sec args;
                tv_nsec := duration_nano_sec args |} in
  let resource := issuer_thread_init in
  l <- gpiod_chip_get_line CHIP (line_id args) ;;
  let resource := {| issuer := l |} in
  when (issuer resource =? 0)
    (issuer_thread_terminate resource ;;
     error "issuer: cannot get the line") ;;
  rc <- gpiod_line_request_output (issuer resource) "issuer" 0 ;;
  when (rc =? -1)
    (issuer_thread_terminate resource ;;
     error "issuer: cannot set the line's mode to output") ;;
  issuer_loop (Z.to_nat (count args)) 0 resource f ;;
  issuer_thread_terminate resource ;;
  pure tt.

Record receiver_args : Type := mk_receiver_args {
  r_count : Z;
  receiver_line_id : Z;
  controller_line_id : Z
}.

Record receiver_thread_resource : Type :=
  mk_receiver_thread_resource { receiver : Z; controller : Z }.

(** The struct after [receiver_thread_init(&resource)]. *)
Definition receiver_thread_init : receiver_thread_resource :=
  {| receiver := 0; controller := 0 |}.

Definition receiver_thread_terminate (resource : receiver_thread_resource)
    : M unit :=
  when (negb (receiver resource =? 0))
    (gpiod_line_release (receiver resource)) ;;
  when (negb (controller resource =? 0))
    (gpiod_line_release (controller resource)).

Fixpoint receiver_loop (n : nat) (resource : receiver_thread_resource)
    (state : Z) : M Z :=
  match n with
  | O => pure state
  | S n' =>
      rc <- gpiod_line_event_wait (receiver resource) ;;
      when (rc =? -1)
        (receiver_thread_terminate resource ;;
         error "receiver: error while waiting for an event") ;;
      rc <- gpiod_line_event_read (receiver resource) ;;
      when (rc =? -1)
        (receiver_thread_terminate resource ;;
         error "receiver: error while reading the event") ;;
      printf "Get an event!\n" [] ;;
      let state := lnot state in
      rc <- gpiod_line_set_value (controller resource) state ;;
      when (rc =? -1)
        (receiver_thread_terminate resource ;;
         error "contoller: cannot change the value of the output") ;;
      receiver_loop n' resource state
  end.

(** [state0] is whatever the uninitialised local [state] contains on
    entry.  Reading it is undefined in C: the model follows the program when
    that content is 0 or 1, where every way of compiling [!state] gives the
    same levels; for any other content it is one possible behaviour only. *)
Definition receiver_thread (CHIP : Z) (args : receiver_args) (state0 : Z)
    : M unit :=
  let resource := receiver_thread_init in
  l <- gpiod_chip_get_line CHIP (receiver_line_id args) ;;
  let resource := {| receiver := l; controller := controller resource |} in
  when (receiver resource =? 0)
    (receiver_thread_terminate resource ;;
     error "receiver: cannot get the line used to receive messages from the issuer") ;;
  l <- gpiod_chip_get_line CHIP (controller_line_id args) ;;
  let resource := {| receiver := receiver resource; controller := l |} in
  when (receiver resource =? 0)
    (receiver_thread_terminate resource ;;
     error "receiver: cannot get the line used to control the LED") ;;
  rc <- gpiod_line_request_output (controller resource) "controller" 0 ;;
  when (rc =? -1)
    (receiver_thread_terminate resource ;;
     error "receiver: cannot set the line's mode to input") ;;
  rc <- gpiod_line_request_both_edges_events (receiver resource) "receiver" ;;
  when (rc =? -1)
    (receiver_thread_terminate resource ;;
     error "receiver: cannot set the line's callbacks") ;;
  receiver_loop (Z.to_nat (r_count args)) resource state0 ;;
  receiver_thread_terminate resource ;;
  pure tt.

Definition issuer_arg : issuer_args :=
  {| duration_sec := 1; duration_nano_sec := 0; count := 5;
     line_id := GPIO_16 |}.

Definition receiver_arg : receiver_args :=
  {| r_count := 3; receiver_line_id := GPIO_21;
     controller_line_id := GPIO_17 |}.

(** [main] up to [atexit]: the handler is not yet registered. *)
Definition main_open : M Z :=
  CHIP <- gpiod_chip_open_by_name CHIP_NAME ;;
  when (CHIP =? 0) (error "cannot open the chip") ;;
  pure CHIP.

Definition main_create (thread message : string) : M unit :=
  rc <- pthread_create thread ;;
  when (negb (rc =? 0)) (error message).

(** The second [pthread_create] followed, when it succeeds, by the thread it
    starts. *)
Definition main_second (CHIP : Z) (pw : process_world) (w : world)
    : trace * outcome :=
  match main_create "receiver_thread"
          "cannot create the thread for the receiver" w with
  | (t, Ret _ _) =>
      let (t', r) := receiver_thread CHIP receiver_arg (pw_state0 pw)
                       (pw_receiver pw) in
      (t ++ t', outcome_of r)
  | (t, r) => (t, outcome_of r)
  end.

(** What runs when the process exits once [reset_gpio] is registered. *)
Definition exit_handlers (CHIP : Z) (pw : process_world) : trace :=
  run_trace (reset_gpio CHIP) (pw_atexit pw).

(** The whole process: its trace and its exit status ([None] when it never
    exits).  Returning from [main] exits with the value returned. *)
Definition main (pw : process_world) : trace * option Z :=
  match main_open (pw_main pw) with
  | (t0, Ret CHIP w1) =>
      match (atexit "reset_gpio" ;;
             main_create "issuer_thread"
               "cannot create the thread for the issuer") w1 with
      | (t1, Ret _ w2) =>
          let (ti, ri) := issuer_thread CHIP issuer_arg (pw_locals pw)
                            (pw_issuer pw) in
          match run_threads (pw_sched pw) (ti, outcome_of ri)
                  (main_second CHIP pw w2) with
          | (t2, Returned) =>
              (t0 ++ t1 ++ t2 ++
               run_trace (pthread_join 0 ;; pthread_join 1) w2 ++
               exit_handlers CHIP pw,
               Some 0)
          | (t2, Exited c) =>
              (t0 ++ t1 ++ t2 ++ exit_handlers CHIP pw, Some c)
          | (t2, Hangs) => (t0 ++ t1 ++ t2, None)
          end
      | (t1, Exit c) => (t0 ++ t1 ++ exit_handlers CHIP pw, Some c)
      | (t1, Hang) => (t0 ++ t1, None)
      end
  | (t0, Exit c) => (t0, Some c)
  | (t0, Hang) => (t0, None)
  end.

(** All tasks complete normally: the calls of [main] succeed and both thread
    functions return. *)
Definition completes (pw : process_world) : Prop :=
  exists CHIP w1 w2,
    run_result main_open (pw_main pw) = Ret CHIP w1
    /\ run_result (atexit "reset_gpio" ;;
                   main_create "issuer_thread"
                     "cannot create the thread for the issuer") w1
       = Ret tt w2
    /\ returns (main_create "receiver_thread"
                  "cannot create the thread for the receiver") w2
    /\ returns (issuer_thread CHIP issuer_arg (pw_locals pw)) (pw_issuer pw)
    /\ returns (receiver_thread CHIP receiver_arg (pw_state0 pw))
         (pw_receiver pw).

End Managed.

(** ** The two-LED program of [src/unnamed/part_001] *)
Module Gpio1.

Definition RED_LED_LINE : Z := 16.
Definition GREEN_LED_LINE : Z := 17.

Record issuer_args : Type := mk_issuer_args {
  duration_sec : Z;
  duration_nano_sec : Z;
  count : Z;
  line_id : Z;
  name : string;
  chip : Z
}.

(** The [do { ... } while (!done)] loop of [led_thread]: the loop of the
    issuer with the messages of this program and no cleanup. *)
Fixpoint sleep_loop (fuel : nat) (f : frame) (d r : tsptr) : M frame :=
  match fuel with
  | O => hang
  | S fuel' =>
      res <- nanosleep f d r ;;
      let '(rc, f') := res in
      if rc =? -1 then
        e <- get_errno ;;
        match e with
        | EINTR => sleep_loop fuel' f' r p_remaining_again
        | EFAULT => error "problem with copying information from user space"
        | EINVAL => error "unexpected period duration"
        | EOTHER _ => error "unexpected errno value"
        end
      else pure f'
  end.

Definition do_sleep (f : frame) : M frame :=
  fun w => sleep_loop (S (List.length (script w))) f p_duration p_remaining w.

(** The [for] loop of [led_thread]. *)
Fixpoint led_loop (n : nat) (cycle : Z) (led : Z) (f : frame) : M frame :=
  match n with
  | O => pure f
  | S n' =>
      let state := odd_bit cycle in
      printf "G [%4ld] Set %s\n" [PInt cycle; PStr (up_down state)] ;;
      rc <- gpiod_line_set_value led state ;;
      when (rc =? -1) (error "cannot change the value of the output") ;;
      f' <- do_sleep f ;;
      led_loop n' (cycle + 1) led f'
  end.

Definition led_thread (args : issuer_args) (locals : frame) : M unit :=
  let f := store locals p_duration
             {| tv_sec := duration_sec args;
                tv_nsec := duration_nano_sec args |} in
  led <- gpiod_chip_get_line (chip args) (line_id args) ;;
  when (led =? 0) (error "cannot get the line") ;;
  rc <- gpiod_line_request_output led (name args) 0 ;;
  when (rc =? -1)
    (gpiod_line_release led ;;
     error "cannot request the output") ;;
  led_loop (Z.to_nat (count args)) 0 led f ;;
  rc <- gpiod_line_set_value led 0 ;;
  when (rc =? -1) (error "cannot change the value of the output") ;;
  gpiod_line_release led ;;
  pure tt.

Definition green_args (chip : Z) : issuer_args :=
  {| duration_sec := 0; duration_nano_sec := 999999999 / 2; count := 50;
     line_id := GREEN_LED_LINE; name := "green"; chip := chip |}.

Definition red_args (chip : Z) : issuer_args :=
  {| duration_sec := 0; duration_nano_sec := 999999999 / 3; count := 50;
     line_id := RED_LED_LINE; name := "red"; chip := chip |}.

(** The environment of one run of this process: the replies to [main] and
    to each LED thread, the contents of their uninitialised locals, and the
    schedule. *)
Record led_world : Type := mk_led_world {
  lw_main : world;
  lw_green : world;
  lw_green_locals : frame;
  lw_red : world;
  lw_red_locals : frame;
  lw_sched : list bool
}.

Definition main_open : M Z :=
  chip <- gpiod_chip_open_by_name CHIP_NAME ;;
  when (chip =? 0) (error "cannot open the chip") ;;
  pure chip.

Definition main_create (thread message : string) : M unit :=
  rc <- pthread_create thread ;;
  when (negb (rc =? 0)) (error message).

(** The second [pthread_create] followed, when it succeeds, by the thread of
    the red LED. *)
Definition main_second (chip : Z) (lw : led_world) (w : world)
    : trace * outcome :=
  match main_create "led_thread"
          "cannot create the thread for the red LED" w with
  | (t, Ret _ _) =>
      let (t', r) := led_thread (red_args chip) (lw_red_locals lw)
                       (lw_red lw) in
      (t ++ t', outcome_of r)
  | (t, r) => (t, outcome_of r)
  end.

(** The whole process: its trace and its exit status ([None] when it never
    exits). *)
Definition main (lw : led_world) : trace * option Z :=
  match main_open (lw_main lw) with
  | (t0, Ret chip w1) =>
      match main_create "led_thread"
              "cannot create the thread for the green LED" w1 with
      | (t1, Ret _ w2) =>
          let (tg, rg) := led_thread (green_args chip) (lw_green_locals lw)
                            (lw_green lw) in
          match run_threads (lw_sched lw) (tg, outcome_of rg)
                  (main_second chip lw w2) with
          | (t2, Returned) =>
              (t0 ++ t1 ++ t2 ++
               run_trace (pthread_join 0 ;; pthread_join 1 ;;
                          gpiod_chip_close chip) w2,
               Some 0)
          | (t2, Exited c) => (t0 ++ t1 ++ t2, Some c)
          | (t2, Hangs) => (t0 ++ t1 ++ t2, None)
          end
      | (t1, Exit c) => (t0 ++ t1, Some c)
      | (t1, Hang) => (t0 ++ t1, None)
      end
  | (t0, Exit c) => (t0, Some c)
  | (t0, Hang) => (t0, None)
  end.

(** All tasks complete normally: the calls of [main] succeed and both LED
    threads return. *)
Definition completes (lw : led_world) : Prop :=
  exists chip w1 w2,
    run_result main_open (lw_main lw) = Ret chip w1
    /\ run_result (main_create "led_thread"
                     "cannot create the thread for the green LED") w1
       = Ret tt w2
    /\ returns (main_create "led_thread"
                  "cannot create the thread for the red LED") w2
    /\ returns (led_thread (green_args chip) (lw_green_locals lw))
         (lw_green lw)
    /\ returns (led_thread (red_args chip) (lw_red_locals lw)) (lw_red lw).

End Gpio1.

(** ** Observations on traces *)

(** The levels passed to [gpiod_line_set_value], in call order. *)
Fixpoint levels (t : trace) : list Z :=
  match t with
  | [] => []
  | ESetValue _ v _ :: t' => v :: levels t'
  | _ :: t' => levels t'
  end.

(** [L_0, ..., L_{n-1}] with [L_i = i mod 2]. *)
Definition alternation (n : nat) : list Z :=
  map (fun i => Z.of_nat i mod 2) (seq 0 n).

Definition is_nanosleep (e : event) : bool :=
  match e with ENanosleep _ _ => true | _ => false end.

Definition levels_from (cycle : Z) (n : nat) : list Z :=
  map (fun i => (cycle + Z.of_nat i) mod 2) (seq 0 n).

(** Code that never hands control back. *)
Definition no_return {A} (m : M A) : Prop :=
  forall w t a w', m w <> (t, Ret a w').

(** A [nanosleep] cut short after [e] nanoseconds. *)
Definition interrupted (e : Z) : reply :=
  {| r_val := -1; r_errno := EINTR; r_elapsed := e |}.

(** The requests passed to [nanosleep], in call order. *)
Fixpoint requests (t : trace) : list timespec :=
  match t with
  | [] => []
  | ENanosleep req _ :: t' => req :: requests t'
  | _ :: t' => requests t'
  end.

(** The time spent in [nanosleep]: the time elapsed when a call is cut
    short, the whole request when it is not. *)
Fixpoint slept (t : trace) : Z :=
  match t with
  | [] => 0
  | ENanosleep req rp :: t' =>
      (if r_val rp =? -1 then r_elapsed rp else ts_to_ns req) + slept t'
  | _ :: t' => slept t'
  end.

(** The successive requests when the sleep is cut short after [es]: each
    one is what was left of the one before. *)
Fixpoint chain (req : timespec) (es : list Z) : list timespec :=
  match es with
  | [] => [req]
  | e :: es' => req :: chain (ts_of_ns (ts_to_ns req - e)) es'
  end.

(** ** Typestate reasoning over all runs

    A property of traces is given as an automaton [step] over events; [wp m
    Q s] says that every run of [m] started in state [s] ends, whatever the
    world, in a result and a state related by [Q]. *)

Definition after {S : Type} (step : S -> event -> S) (s : S) (t : trace) : S :=
  fold_left step t s.

Definition wp {S A : Type} (step : S -> event -> S) (m : M A)
    (Q : result A -> S -> Prop) (s : S) : Prop :=
  forall w, Q (snd (m w)) (after step s (fst (m w))).

(** What [bind] asks of its first part. *)
Definition wp_then {S A B : Type} (step : S -> event -> S) (f : A -> M B)
    (Q : result B -> S -> Prop) : result A -> S -> Prop :=
  fun r s =>
    match r with
    | Ret a _ => wp step (f a) Q s
    | Exit c => Q (Exit c) s
    | Hang => Q Hang s
    end.

(** *** Fatal errors: a diagnostic, then [exit(1)], then nothing *)

Definition is_error_diag (e : event) : bool :=
  match e with
  | EStderr fmt [PStr _] => String.eqb fmt "ERROR: %s\n"
  | _ => false
  end.

Inductive discipline : Type := DClean | DDiag | DExited | DBad.

Definition disc_step (s : discipline) (e : event) : discipline :=
  match s with
  | DClean =>
      if is_error_diag e then DDiag
      else if is_exit e then DBad else DClean
  | DDiag => match e with EExit 1 => DExited | _ => DBad end
  | DExited => DBad
  | DBad => DBad
  end.

(** A run that returns or hangs reported no fatal error; a run that exits
    did so with status 1 right after one diagnostic. *)
Definition disciplined_post {A} (r : result A) (s : discipline) : Prop :=
  match r with
  | Exit c => c = 1 /\ s = DExited
  | _ => s = DClean
  end.

Definition disciplined {A} (m : M A) : Prop :=
  wp disc_step m disciplined_post DClean.

(** No fatal error is reported and nobody exits. *)
Definition quiet (e : event) : bool := negb (is_error_diag e) && negb (is_exit e).

Definition has_exit (t : trace) : bool := existsb is_exit t.

(** Every [exit] in [t] is [exit(1)] and comes after a diagnostic ([seen]
    tells whether one was printed before [t]). *)
Fixpoint reported (seen : bool) (t : trace) : bool :=
  match t with
  | [] => true
  | e :: t' =>
      if is_exit e
      then seen && (match e with EExit 1 => true | _ => false end)
           && reported seen t'
      else reported (seen || is_error_diag e) t'
  end.

(** Every diagnostic in [t] is followed by an [exit]. *)
Fixpoint answered (t : trace) : bool :=
  match t with
  | [] => true
  | e :: t' =>
      (if is_error_diag e then has_exit t' else true) && answered t'
  end.

(** A diagnostic [ERROR: <message>] is printed and [exit(1)] comes later. *)
Definition fatal_report (t : trace) : Prop :=
  exists pre msg mid post,
    t = pre ++ EStderr "ERROR: %s\n" [PStr msg] :: mid ++ EExit 1 :: post.

(** What holds of every thread of control: exits are reported, reports are
    followed by the exit, and the trace has an [exit] exactly when the
    thread ended with [exit(1)]. *)
Definition sound_run (t : trace) (o : outcome) : Prop :=
  reported false t = true /\ answered t = true
  /\ (has_exit t = true <-> o = Exited 1)
  /\ (forall c, o = Exited c -> c = 1).

(** The same for a whole process and its exit status. *)
Definition sound_process (t : trace) (st : option Z) : Prop :=
  reported false t = true /\ answered t = true
  /\ (has_exit t = true <-> st = Some 1)
  /\ (st = Some 0 \/ st = Some 1 \/ st = None).

(** Code that reports no fatal error at all. *)
Definition silent {A} (m : M A) : Prop :=
  wp disc_step m (fun _ s => s = DClean) DClean.

Definition status_of (o : outcome) : option Z :=
  match o with
  | Returned => Some 0
  | Exited c => Some c
  | Hangs => None
  end.

(** *** The chip handle is closed by [reset_gpio] alone *)

Definition is_chip_close (e : event) : bool :=
  match e with EChipClose _ => true | _ => false end.

Definition not_close (e : event) : bool := negb (is_chip_close e).

(** How many times [gpiod_chip_close(chip)] is called. *)
Fixpoint closes_of (chip : Z) (t : trace) : nat :=
  match t with
  | [] => O
  | EChipClose c :: t' => if c =? chip then S (closes_of chip t') else closes_of chip t'
  | _ :: t' => closes_of chip t'
  end.

(** The automaton of [forallb p]. *)
Definition all_step (p : event -> bool) (b : bool) (e : event) : bool :=
  b && p e.

Definition all_events {A} (p : event -> bool) (m : M A) : Prop :=
  wp (all_step p) m (fun _ b => b = true) true.

(** *** The protocol of [reset_gpio] *)

Inductive reset_phase : Type :=
| RIdle                  (* between two lines *)
| RGot (l : Z)           (* line [l] obtained: it is requested as input *)
| RWarn                  (* a step failed: a warning is printed *)
| RAcquired (l : Z)      (* line [l] acquired: it is released at once *)
| RClosed (chip : Z)     (* the chip is closed: nothing follows *)
| RBad.

(** The automaton of the cleanup: the phase, and the lines attempted so far
    (chip and line id, in order). *)
Definition reset_step (s : reset_phase * list (Z * Z)) (e : event)
    : reset_phase * list (Z * Z) :=
  let (ph, seen) := s in
  match ph, e with
  | RIdle, EStdout _ _ => (RIdle, seen)
  | RIdle, EGetLine chip pin l =>
      (if l =? 0 then RWarn else RGot l, seen ++ [(chip, pin)])
  | RGot l, EReqInput l' _ rc =>
      (if l' =? l then (if rc =? -1 then RWarn else RAcquired l) else RBad,
       seen)
  | RWarn, EStderr fmt _ =>
      (if String.prefix "Warning" fmt then RIdle else RBad, seen)
  | RAcquired l, ERelease l' => (if l' =? l then RIdle else RBad, seen)
  | RIdle, EChipClose chip => (RClosed chip, seen)
  | _, _ => (RBad, seen)
  end.

Definition returned {A} (r : result A) : Prop := exists a w, r = Ret a w.

(** [reset_gpio] closes the chip exactly once, whatever happens to the
    lines. *)
Definition count_closes (chip : Z) (n : nat) (e : event) : nat :=
  match e with
  | EChipClose c => if c =? chip then S n else n
  | _ => n
  end.

(** *** Each acquired line handle is released once *)

(** A request that succeeded on handle [h]. *)
Definition acquires (h : Z) (e : event) : bool :=
  match e with
  | EReqOutput l _ _ rc => (l =? h) && negb (rc =? -1)
  | EReqInput l _ rc => (l =? h) && negb (rc =? -1)
  | EReqBothEdges l _ rc => (l =? h) && negb (rc =? -1)
  | _ => false
  end.

Definition releases (h : Z) (e : event) : bool :=
  match e with
  | ERelease l => l =? h
  | _ => false
  end.

(** Where handle [h] stands: never acquired (or not since a failed request),
    held, released since it was last acquired, or misused (acquired while
    held, released twice). *)
Inductive lease : Type := Unheld | Holding | GivenBack | Broken.

Definition lease_step (h : Z) (s : lease) (e : event) : lease :=
  if acquires h e then
    match s with
    | Unheld | GivenBack => Holding
    | _ => Broken
    end
  else if releases h e then
    match s with
    | Holding => GivenBack
    | Unheld => Unheld
    | _ => Broken
    end
  else s.

Definition lease_of (h : Z) (t : trace) : lease :=
  after (lease_step h) Unheld t.

(** Handle [h] is not leaked and not released twice in [t]. *)
Definition released_once (h : Z) (t : trace) : bool :=
  match lease_of h t with
  | Unheld | GivenBack => true
  | _ => false
  end.

(** The handles that [gpiod_chip_get_line] returned, last first. *)
Fixpoint lines_got (acc : list Z) (t : trace) : list Z :=
  match t with
  | [] => acc
  | EGetLine _ _ l :: t' => lines_got (l :: acc) t'
  | _ :: t' => lines_got acc t'
  end.

(** The lease of [h] together with the handles got so far. *)
Definition lease_got_step (h : Z) (s : lease * list Z) (e : event)
    : lease * list Z :=
  (lease_step h (fst s) e,
   match e with
   | EGetLine _ _ l => l :: snd s
   | _ => snd s
   end).

(** What [receiver_thread_terminate] does to the lease of [h]. *)
Definition lease_after_terminate (h l1 l2 : Z) (s : lease) : lease :=
  let s1 := if l1 =? 0 then s else lease_step h s (ERelease l1) in
  if l2 =? 0 then s1 else lease_step h s1 (ERelease l2).

Definition lease_loop_post (h l : Z) (s : lease) {A} (r : result A)
    (s' : lease) : Prop :=
  match r with
  | Ret _ _ => s' = s
  | Exit _ => s' = lease_step h s (ERelease l)
  | Hang => True
  end.

(** *** The relay *)

(** The levels written by [n] flips starting from [state]. *)
Fixpoint flips (state : Z) (n : nat) : list Z :=
  match n with
  | O => []
  | S k => lnot state :: flips (lnot state) k
  end.

(** The sequence [1, 0, 1, 0, ...] of length [n]. *)
Definition relay_levels (n : nat) : list Z :=
  map (fun i => (Z.of_nat i + 1) mod 2) (seq 0 n).

(** Events read ([gpiod_line_event_read] calls that succeeded) and waits. *)
Fixpoint reads (t : trace) : nat :=
  match t with
  | [] => O
  | EEventRead _ rc :: t' => if rc =? -1 then reads t' else S (reads t')
  | _ :: t' => reads t'
  end.

Fixpoint waits (t : trace) : nat :=
  match t with
  | [] => O
  | EEventWait _ _ :: t' => S (waits t')
  | _ :: t' => waits t'
  end.

(** *** The level of the line when it is released *)

(** The level last asked for (by [gpiod_line_set_value], or as the initial
    level of [gpiod_line_request_output]), and, once a line has been
    released, what that level was at the first release. *)
Definition level_step (s : Z * option Z) (e : event) : Z * option Z :=
  match snd s with
  | Some _ => s
  | None =>
      match e with
      | ERelease _ => (fst s, Some (fst s))
      | ESetValue _ v _ => (v, None)
      | EReqOutput _ _ v _ => (v, None)
      | _ => s
      end
  end.

Definition level_at_release (t : trace) : option Z :=
  snd (after level_step (0, None) t).

(** ** Environments in which no call fails *)

(** No reply is [-1]: no call fails and no sleep is interrupted. *)
Definition calm (w : world) : bool :=
  forallb (fun r => negb (r_val r =? -1)) (script w)
  && negb (r_val (dflt w) =? -1).

(** The reply to the call number [k] (from 0) of a thread of control. *)
Definition reply_at (k : nat) (w : world) : reply :=
  nth k (script w) (dflt w).

(** ** Sample environments *)

Definition ok : reply := {| r_val := 0; r_errno := EOTHER 0; r_elapsed := 0 |}.

(** A call that returns the handle (or value) [p]. *)
Definition gives (p : Z) : reply :=
  {| r_val := p; r_errno := EOTHER 0; r_elapsed := 0 |}.

(** A call that returns [-1] with [errno = e]. *)
Definition fails (e : errno_t) : reply :=
  {| r_val := -1; r_errno := e; r_elapsed := 0 |}.

(** The world that gives the replies [s] and then succeeds for ever. *)
Definition world_of (s : list reply) : world :=
  {| script := s; dflt := ok; errno := EOTHER 0 |}.

(** The replies to a relay of count [n] ([gpio2.c] order) when every call
    succeeds: the two lines, the two requests, then for each cycle an event
    ready, read and the level written, then the write, the line and the
    request that follow the loop. *)
Definition relay_replies (n : nat) : list reply :=
  [gives 2000; gives 3000; ok; ok]
  ++ List.concat (repeat [gives 1; ok; ok] n)
  ++ [ok; gives 3000; ok].

Definition sample_locals : frame :=
  {| duration := ts_of_ns 0; remaining := ts_of_ns 0;
     remaining_again := ts_of_ns 0 |}.

(** How many times [gpiod_line_release(h)] is called. *)
Fixpoint releases_of (h : Z) (t : trace) : nat :=
  match t with
  | [] => O
  | ERelease l :: t' => if l =? h then S (releases_of h t') else releases_of h t'
  | _ :: t' => releases_of h t'
  end.

(** The run ends in [error(msg)]: the diagnostic, then [exit(1)]. *)
Definition fatal_exit {A} (msg : string) (m : M A) (w : world) : Prop :=
  run_result m w = Exit 1
  /\ exists pre,
       run_trace m w = pre ++ [EStderr "ERROR: %s\n" [PStr msg]; EExit 1].

(** The world of a process in which the issuer gets its line, gets it as
    output, and then fails to write the level of cycle 0. *)
Definition issuer_write_fails : process_world :=
  {| pw_main := world_of [gives 100];
     pw_issuer := world_of [gives 1000; ok; fails (EOTHER 5)];
     pw_locals := sample_locals;
     pw_receiver := world_of (relay_replies 10);
     pw_state0 := 0;
     pw_sched := [true; true; true; true; true; true];
     pw_atexit := world_of [] |}.

(** The world of a process in which every call succeeds. *)
Definition all_calls_succeed : process_world :=
  {| pw_main := world_of [gives 100];
     pw_issuer := world_of ([gives 1000] ++ repeat ok 42 ++ [gives 1000]);
     pw_locals := sample_locals;
     pw_receiver := world_of (relay_replies 10);
     pw_state0 := 0;
     pw_sched := [true; false; false; true];
     pw_atexit := world_of [gives 1016; ok; gives 1017; ok; gives 1021; ok] |}.




(** An issuer of [gpio2.c] with count 5 and the replies of a run in which
    every call succeeds. *)
Definition five_cycles : Gpio2.issuer_args :=
  {| Gpio2.duration_sec := 1; Gpio2.duration_nano_sec := 0; Gpio2.count := 5;
     Gpio2.line_id := 16; Gpio2.name := "issuer"; Gpio2.chip := 100 |}.

Definition five_cycles_world : world :=
  world_of ([gives 1000] ++ repeat ok 12 ++ [gives 1000]).

Definition is_atexit (e : event) : bool :=
  match e with EAtexit _ => true | _ => false end.

(** ** What a run did with its line handles

    The handles that [gpiod_chip_get_line] returned, the handles on which a
    request succeeded, the handles passed to [gpiod_line_release] (each list
    in call order), and the message of the last [ERROR:] diagnostic. *)
Record obs : Type := mk_obs {
  o_got : list Z;
  o_acquired : list Z;
  o_released : list Z;
  o_diag : option string
}.

Definition obs0 : obs :=
  {| o_got := []; o_acquired := []; o_released := []; o_diag := None |}.

Definition acquire (s : obs) (l rc : Z) : obs :=
  if rc =? -1 then s
  else {| o_got := o_got s; o_acquired := o_acquired s ++ [l];
          o_released := o_released s; o_diag := o_diag s |}.

Definition with_diag (s : obs) (msg : string) : obs :=
  {| o_got := o_got s; o_acquired := o_acquired s;
     o_released := o_released s; o_diag := Some msg |}.

Definition with_released (s : obs) (ls : list Z) : obs :=
  {| o_got := o_got s; o_acquired := o_acquired s;
     o_released := o_released s ++ ls; o_diag := o_diag s |}.

Definition obs_step (s : obs) (e : event) : obs :=
  match e with
  | EGetLine _ _ l =>
      {| o_got := o_got s ++ [l]; o_acquired := o_acquired s;
         o_released := o_released s; o_diag := o_diag s |}
  | EReqOutput l _ _ rc => acquire s l rc
  | EReqInput l _ rc => acquire s l rc
  | EReqBothEdges l _ rc => acquire s l rc
  | ERelease l => with_released s [l]
  | EStderr fmt [PStr msg] =>
      if String.eqb fmt "ERROR: %s\n" then with_diag s msg else s
  | _ => s
  end.

Definition observe (t : trace) : obs := after obs_step obs0 t.

(** The pin numbers named in the warnings of [reset_gpio], in order. *)
Definition warn_step (acc : list Z) (e : event) : list Z :=
  match e with
  | EStderr fmt (PInt pin :: _) =>
      if String.prefix "Warning" fmt then acc ++ [pin] else acc
  | _ => acc
  end.

Definition warned (t : trace) : list Z := after warn_step [] t.

(** Two automata run side by side. *)
Definition both {S T : Type} (f : S -> event -> S) (g : T -> event -> T)
    (s : S * T) (e : event) : S * T :=
  (f (fst s) e, g (snd s) e).

(** For each pin [reset_gpio] goes through, in order, how it ended: [true]
    when the handle got for that pin was released, [false] when a warning
    naming that pin was printed.  The state holds the pin being reset with
    its handle. *)
Definition settle_step (s : option (Z * Z) * list (Z * bool)) (e : event)
    : option (Z * Z) * list (Z * bool) :=
  match e with
  | EGetLine _ pin l => (Some (pin, l), snd s)
  | ERelease l' =>
      match fst s with
      | Some (pin, l) =>
          if l' =? l then (None, snd s ++ [(pin, true)]) else s
      | None => s
      end
  | EStderr fmt (PInt pin :: _) =>
      if String.prefix "Warning" fmt then (None, snd s ++ [(pin, false)])
      else s
  | _ => s
  end.

Definition settled (t : trace) : list (Z * bool) :=
  snd (after settle_step (None, []) t).

(** What holds between two lines of [reset_gpio], [done] being the pins gone
    through: each of them ended one way or the other, the warnings are those
    of the pins that were not released, every line acquired was released,
    and no fatal error was reported. *)
Definition reset_settled (done : list Z)
    (s : (obs * list Z) * (option (Z * Z) * list (Z * bool))) : Prop :=
  fst (snd s) = None
  /\ map fst (snd (snd s)) = done
  /\ snd (fst s) = map fst (filter (fun x => negb (snd x)) (snd (snd s)))
  /\ o_released (fst (fst s)) = o_acquired (fst (fst s))
  /\ List.length (o_released (fst (fst s)))
     = List.length (filter snd (snd (snd s)))
  /\ o_diag (fst (fst s)) = None.

(** What the issuer announces on the standard output: the cycle number and
    the word printed for the level, for each line of the form
    [<letter> [<cycle>] Set <word>]. *)
Definition announce_step (acc : list (Z * string)) (e : event)
    : list (Z * string) :=
  match e with
  | EStdout _ [PInt cycle; PStr word] => acc ++ [(cycle, word)]
  | _ => acc
  end.

Definition announced (t : trace) : list (Z * string) :=
  after announce_step [] t.

(** The announcements of [n] cycles from [cycle] on: [down] for an even
    cycle, [up] for an odd one. *)
Definition cycles_from (cycle : Z) (n : nat) : list (Z * string) :=
  map (fun i => (cycle + Z.of_nat i,
                 if (cycle + Z.of_nat i) mod 2 =? 0
                 then "down"%string else "up"%string))
    (seq 0 n).

(** The announcements a loop adds when it runs to its end. *)
Definition announce_post (cycle : Z) (n : nat) (s : list (Z * string)) {A}
    (r : result A) (s' : list (Z * string)) : Prop :=
  match r with
  | Ret _ _ => s' = s ++ cycles_from cycle n
  | _ => True
  end.

(** The diagnostics of a write that failed and of a sleep that failed, in
    the issuer of [gpio2.c] and in [led_thread]. *)
Definition issuer_write_or_sleep : list string :=
  [ "issuer: cannot change the value of the output";
    "issuer: problem with copying information from user space";
    "issuer: unexpected period duration";
    "issuer: unexpected errno value" ]%string.

Definition led_write_or_sleep : list string :=
  [ "cannot change the value of the output";
    "problem with copying information from user space";
    "unexpected period duration";
    "unexpected errno value" ]%string.

Definition mem_string (s : string) (l : list string) : bool :=
  existsb (String.eqb s) l.

(** A loop that is only left by a failed write or a failed sleep, and then
    with the handles as they were. *)
Definition leak_post (msgs : list string) (s : obs) {A} (r : result A)
    (s' : obs) : Prop :=
  match r with
  | Exit c => c = 1 /\ exists msg, In msg msgs /\ s' = with_diag s msg
  | _ => s' = s
  end.

(** How a run of the issuer of [gpio2.c] or of [led_thread] ends: at its
    end every line got was acquired and released; after a fatal error the
    line is still held exactly when the diagnostic is one of [msgs]; the run
    can only hang in a sleep, with its line held. *)
Definition issuer_outcome (msgs : list string) (rounds : list Z -> Prop)
    {A} (r : result A) (s : obs) : Prop :=
  match r with
  | Ret _ _ =>
      exists ls, rounds ls /\ ~ In 0 ls
                 /\ s = {| o_got := ls; o_acquired := ls; o_released := ls;
                           o_diag := None |}
  | Exit c =>
      c = 1 /\ exists msg,
        o_diag s = Some msg
        /\ if mem_string msg msgs
           then exists l, l <> 0 /\ o_got s = [l] /\ o_acquired s = [l]
                          /\ o_released s = []
           else incl (o_acquired s) (o_released s)
  | Hang =>
      exists l, l <> 0
                /\ s = {| o_got := [l]; o_acquired := [l]; o_released := [];
                          o_diag := None |}
  end.

(** The diagnostics of the loop of the relay. *)
Definition relay_loop_diagnostics : list string :=
  [ "receiver: error while waiting for an event";
    "receiver: error while reading the event";
    "contoller: cannot change the value of the output" ]%string.

(** The loop of the relay of [gpio2.c] is only left by a fatal error after
    both lines have been released. *)
Definition relay_loop_post (receiver controller : Z) (s : obs) {A}
    (r : result A) (s' : obs) : Prop :=
  match r with
  | Exit c =>
      c = 1 /\ exists msg,
        In msg relay_loop_diagnostics
        /\ s' = with_diag (with_released s [receiver; controller]) msg
  | Ret _ _ => s' = s
  | Hang => False
  end.

(** How a run of the relay of [gpio2.c] ends. *)
Definition relay_outcome {A} (r : result A) (s : obs) : Prop :=
  match r with
  | Ret _ _ =>
      exists l1 l2 l3,
        l1 <> 0
        /\ s = {| o_got := [l1; l2; l3]; o_acquired := [l2; l1; l3];
                  o_released := [l1; l2; l3]; o_diag := None |}
  | Exit c =>
      c = 1 /\ exists msg,
        o_diag s = Some msg
        /\ if String.eqb msg
                "receiver: cannot change the value of the output for the line that controls the LED"
           then exists l1 l2,
                  l1 <> 0 /\ o_got s = [l1; l2] /\ o_acquired s = [l2; l1]
                  /\ o_released s = []
           else incl (o_acquired s) (o_released s)
  | Hang => False
  end.

(** ** More sample environments *)

(** The issuer of [gpio2.c] whose first sleep fails with [EINVAL]. *)
Definition sample_issuer_sleep_fails : trace :=
  run_trace (Gpio2.issuer_thread (Gpio2.issuer_arg 100) sample_locals)
    (world_of [gives 1000; ok; ok; fails EINVAL]).

(** A relay of [gpio2.c] with count 1 whose write after the loop fails. *)
Definition sample_relay_last_write_fails : trace :=
  run_trace
    (Gpio2.receiver_thread
       {| Gpio2.r_count := 1; Gpio2.receiver_line_id := 21;
          Gpio2.controller_line_id := 17; Gpio2.receiver_name := "receiver";
          Gpio2.controller_name := "controller"; Gpio2.r_chip := 100 |} 0)
    (world_of [gives 2000; gives 3000; ok; ok; gives 1; ok; ok;
               fails (EOTHER 5)]).

(** The two-LED process when every call succeeds, and when the first sleep
    of the red LED fails with [EFAULT]. *)
Definition leds_succeed : Gpio1.led_world :=
  {| Gpio1.lw_main := world_of [gives 100];
     Gpio1.lw_green := world_of [gives 1017];
     Gpio1.lw_green_locals := sample_locals;
     Gpio1.lw_red := world_of [gives 1016];
     Gpio1.lw_red_locals := sample_locals;
     Gpio1.lw_sched := [true; false; false; true; false] |}.

Definition red_sleep_fails : Gpio1.led_world :=
  {| Gpio1.lw_main := world_of [gives 100];
     Gpio1.lw_green := world_of [gives 1017];
     Gpio1.lw_green_locals := sample_locals;
     Gpio1.lw_red := world_of [gives 1016; ok; ok; fails EFAULT];
     Gpio1.lw_red_locals := sample_locals;
     Gpio1.lw_sched := [true; false; false; true; false; false; false; false;
                        false; false; false] |}.

Definition sample_red_sleep_fails : trace :=
  run_trace (Gpio1.led_thread (Gpio1.red_args 100) sample_locals)
    (Gpio1.lw_red red_sleep_fails).

(** * Proofs *)

(** ** Running the monad *)

Lemma levels_app (t1 t2 : trace) : levels (t1 ++ t2) = levels t1 ++ levels t2.
Proof.
  induction t1 as [|e t1 IH]; simpl; [reflexivity|].
  destruct e; simpl; rewrite ?IH; reflexivity.
Qed.

Lemma odd_bit_mod2 (c : Z) : odd_bit c = c mod 2.
Proof.
  unfold odd_bit.
  replace (Z.land c 1) with (c mod 2)
    by (symmetry; apply (Z.land_ones c 1); lia).
  pose proof (Z.mod_pos_bound c 2 ltac:(lia)).
  destruct (Z.eqb_spec (c mod 2) 0); lia.
Qed.

Lemma bind_ret_inv {A B} (m : M A) (f : A -> M B) w t b w' :
  bind m f w = (t, Ret b w') ->
  exists a w1 t1 t2,
    m w = (t1, Ret a w1) /\ f a w1 = (t2, Ret b w') /\ t = t1 ++ t2.
Proof.
  unfold bind. destruct (m w) as [t1 [a w1| c |]]; try discriminate.
  destruct (f a w1) as [t2 r] eqn:E. intros H. inversion H; subst.
  exists a, w1, t1, t2. auto.
Qed.

Lemma call_inv (ev : reply -> event) w t r w' :
  call ev w = (t, Ret r w') -> r = fst (next w) /\ w' = snd (next w) /\ t = [ev r].
Proof.
  unfold call. destruct (next w) as [r0 w0]. intros H. inversion H; subst. auto.
Qed.

Lemma error_not_ret {A} msg w t (a : A) w' : error msg w <> (t, Ret a w').
Proof. unfold error, bind, fprintf_stderr, emit, exit. simpl. discriminate. Qed.

Lemma emit_inv e w t u w' :
  emit e w = (t, Ret u w') -> w' = w /\ t = [e].
Proof. unfold emit. intros H. inversion H; subst. auto. Qed.

Lemma pure_inv {A} (a : A) w t b w' :
  pure a w = (t, Ret b w') -> b = a /\ w' = w /\ t = [].
Proof. unfold pure. intros H. inversion H; subst. auto. Qed.

Lemma bind_error_not_ret {A} (m : M unit) msg w t (a : A) w' :
  (m ;; error msg) w <> (t, Ret a w').
Proof.
  intros H. apply bind_ret_inv in H as (? & ? & ? & ? & _ & H & _).
  exact (error_not_ret _ _ _ _ _ H).
Qed.

(** A guarded fatal branch that lets the run go on was not taken. *)
Lemma when_fatal_inv (c : bool) (m : M unit) msg w t u w' :
  when c (m ;; error msg) w = (t, Ret u w') ->
  c = false /\ w' = w /\ t = [].
Proof.
  destruct c; simpl; intros H.
  - exfalso. exact (bind_error_not_ret _ _ _ _ _ _ H).
  - apply pure_inv in H as (_ & -> & ->). auto.
Qed.

Lemma when_error_inv (c : bool) msg w t u w' :
  when c (error msg) w = (t, Ret u w') ->
  c = false /\ w' = w /\ t = [].
Proof.
  destruct c; simpl; intros H.
  - exfalso. exact (error_not_ret _ _ _ _ _ H).
  - apply pure_inv in H as (_ & -> & ->). auto.
Qed.

(** A sleep that comes back made [nanosleep] calls and nothing else. *)
Lemma sleep_loop_ret fuel cleanup f d r w t f' w' :
  sleep_loop fuel cleanup f d r w = (t, Ret f' w') ->
  forallb is_nanosleep t = true.
Proof.
  revert f d r w t.
  induction fuel as [|fuel IH]; intros f d r w t H; simpl in H.
  - discriminate.
  - apply bind_ret_inv in H as ([rc f1] & w1 & t1 & t2 & H1 & H2 & ->).
    unfold nanosleep in H1.
    apply bind_ret_inv in H1 as (rp & w0 & t0 & t3 & Hc & H1 & ->).
    apply call_inv in Hc as (-> & -> & ->).
    assert (t3 = []) as ->.
    { destruct (_ && _); apply pure_inv in H1; tauto. }
    assert (forallb is_nanosleep t2 = true) as Ht2.
    { destruct (rc =? -1).
      - apply bind_ret_inv in H2 as (e & w2 & t4 & t5 & He & H2 & ->).
        unfold get_errno in He. inversion He; subst.
        destruct (errno w2).
        + simpl. eapply IH; eassumption.
        + exfalso. exact (bind_error_not_ret _ _ _ _ _ _ H2).
        + exfalso. exact (bind_error_not_ret _ _ _ _ _ _ H2).
        + exfalso. exact (bind_error_not_ret _ _ _ _ _ _ H2).
      - apply pure_inv in H2 as (_ & _ & ->). reflexivity. }
    rewrite forallb_app. simpl. exact Ht2.
Qed.

Lemma nanosleep_levels t : forallb is_nanosleep t = true -> levels t = [].
Proof.
  induction t as [|e t IH]; simpl; [reflexivity|].
  destruct e; simpl; try discriminate. exact IH.
Qed.

Lemma do_sleep_levels cleanup f w t f' w' :
  do_sleep cleanup f w = (t, Ret f' w') -> levels t = [].
Proof.
  unfold do_sleep. intros H.
  apply nanosleep_levels. eapply sleep_loop_ret; eassumption.
Qed.

Lemma levels_from_S cycle n :
  levels_from cycle (S n) = cycle mod 2 :: levels_from (cycle + 1) n.
Proof.
  unfold levels_from. simpl. f_equal.
  - f_equal. lia.
  - rewrite <- seq_shift, map_map. apply map_ext. intros i. f_equal. lia.
Qed.

Lemma levels_from_0 n : levels_from 0 n = alternation n.
Proof. reflexivity. Qed.

(** The loop of the issuer, when it runs to its end, writes the level
    [cycle mod 2] in each cycle. *)
Lemma Managed_issuer_loop_levels n :
  forall cycle res f w t f' w',
    Managed.issuer_loop n cycle res f w = (t, Ret f' w') ->
    levels t = levels_from cycle n.
Proof.
  induction n as [|n IH]; intros cycle res f w t f' w' H; simpl in H.
  - apply pure_inv in H as (_ & _ & ->). reflexivity.
  - apply bind_ret_inv in H as (? & w1 & t1 & t2 & H1 & H & ->).
    apply emit_inv in H1 as (-> & ->).
    apply bind_ret_inv in H as (rc & w2 & t2' & t3 & H2 & H & ->).
    apply bind_ret_inv in H2 as (rp & w2' & ? & ? & Hc & Hp & ->).
    apply call_inv in Hc as (-> & -> & ->).
    apply pure_inv in Hp as (-> & -> & ->).
    apply bind_ret_inv in H as (? & w3 & t3' & t4 & H3 & H & ->).
    apply when_fatal_inv in H3 as (_ & -> & ->).
    apply bind_ret_inv in H as (f1 & w4 & t5 & t6 & H4 & H & ->).
    apply do_sleep_levels in H4. apply IH in H.
    rewrite levels_from_S, <- odd_bit_mod2.
    simpl. rewrite levels_app, H4, H. reflexivity.
Qed.

Lemma Gpio2_issuer_loop_levels n :
  forall cycle line f w t f' w',
    Gpio2.issuer_loop n cycle line f w = (t, Ret f' w') ->
    levels t = levels_from cycle n.
Proof.
  induction n as [|n IH]; intros cycle line f w t f' w' H; simpl in H.
  - apply pure_inv in H as (_ & _ & ->). reflexivity.
  - apply bind_ret_inv in H as (? & w1 & t1 & t2 & H1 & H & ->).
    apply emit_inv in H1 as (-> & ->).
    apply bind_ret_inv in H as (rc & w2 & t2' & t3 & H2 & H & ->).
    apply bind_ret_inv in H2 as (rp & w2' & ? & ? & Hc & Hp & ->).
    apply call_inv in Hc as (-> & -> & ->).
    apply pure_inv in Hp as (-> & -> & ->).
    apply bind_ret_inv in H as (? & w3 & t3' & t4 & H3 & H & ->).
    apply when_error_inv in H3 as (_ & -> & ->).
    apply bind_ret_inv in H as (f1 & w4 & t5 & t6 & H4 & H & ->).
    apply do_sleep_levels in H4. apply IH in H.
    rewrite levels_from_S, <- odd_bit_mod2.
    simpl. rewrite levels_app, H4, H. reflexivity.
Qed.

Lemma no_return_error {A} msg : no_return (@error A msg).
Proof. intros w t a w'. apply error_not_ret. Qed.

Lemma no_return_bind {A B} (m : M A) (f : A -> M B) :
  (forall a, no_return (f a)) -> no_return (bind m f).
Proof.
  intros Hf w t b w' H.
  apply bind_ret_inv in H as (a & w1 & t1 & t2 & _ & H & _).
  exact (Hf a _ _ _ _ H).
Qed.

Lemma when_inv (c : bool) (m : M unit) w t u w' :
  no_return m ->
  when c m w = (t, Ret u w') ->
  c = false /\ w' = w /\ t = [].
Proof.
  intros Hm. destruct c; simpl; intros H.
  - exfalso. exact (Hm _ _ _ _ H).
  - apply pure_inv in H as (_ & -> & ->). auto.
Qed.

Ltac fatal :=
  first [ apply no_return_error | apply no_return_bind; intros; fatal ].

Lemma call_val_inv (ev : reply -> event) w t v w' :
  (r <- call ev ;; pure (r_val r)) w = (t, Ret v w') ->
  v = r_val (fst (next w)) /\ w' = snd (next w) /\ t = [ev (fst (next w))].
Proof.
  intros H. apply bind_ret_inv in H as (r & w1 & t1 & t2 & Hc & Hp & ->).
  apply call_inv in Hc as (-> & -> & ->).
  apply pure_inv in Hp as (-> & -> & ->). auto.
Qed.

(** Splitting a run that returned at its first [bind]. *)
Ltac split_run H H1 :=
  let a := fresh "a" in let w := fresh "w" in
  let t1 := fresh "t" in let t2 := fresh "t" in
  apply bind_ret_inv in H as (a & w & t1 & t2 & H1 & H & ->).

Ltac guard_off H1 :=
  apply when_inv in H1 as (_ & -> & ->); [| fatal].

Lemma Managed_issuer_thread_levels CHIP args locals w t w' :
  Managed.issuer_thread CHIP args locals w = (t, Ret tt w') ->
  levels t = alternation (Z.to_nat (Managed.count args)).
Proof.
  unfold Managed.issuer_thread. intros H.
  split_run H H1. apply call_val_inv in H1 as (-> & -> & ->).
  split_run H H1. guard_off H1.
  split_run H H1. apply call_val_inv in H1 as (-> & -> & ->).
  split_run H H1. guard_off H1.
  split_run H H1. apply Managed_issuer_loop_levels in H1.
  split_run H H2.
  apply pure_inv in H as (_ & _ & ->).
  assert (levels t0 = []) as Ht0.
  { unfold Managed.issuer_thread_terminate, when in H2.
    destruct (negb _).
    - apply emit_inv in H2 as (_ & ->). reflexivity.
    - apply pure_inv in H2 as (_ & _ & ->). reflexivity. }
  simpl. rewrite !levels_app, H1, Ht0. simpl.
  rewrite !app_nil_r. apply levels_from_0.
Qed.

Lemma Gpio2_issuer_thread_levels args locals w t w' :
  Gpio2.issuer_thread args locals w = (t, Ret tt w') ->
  levels t = alternation (Z.to_nat (Gpio2.count args)) ++ [0].
Proof.
  unfold Gpio2.issuer_thread. intros H.
  split_run H H1. apply call_val_inv in H1 as (-> & -> & ->).
  split_run H H1. guard_off H1.
  split_run H H1. apply call_val_inv in H1 as (-> & -> & ->).
  split_run H H1. guard_off H1.
  split_run H H1. apply Gpio2_issuer_loop_levels in H1.
  split_run H H2. apply call_val_inv in H2 as (-> & -> & ->).
  split_run H H2. guard_off H2.
  split_run H H2. apply emit_inv in H2 as (-> & ->).
  split_run H H2. apply call_val_inv in H2 as (-> & -> & ->).
  split_run H H2. guard_off H2.
  split_run H H2. apply call_val_inv in H2 as (-> & -> & ->).
  split_run H H2. guard_off H2.
  split_run H H2. apply emit_inv in H2 as (-> & ->).
  apply pure_inv in H as (_ & _ & ->).
  simpl. rewrite !levels_app, H1. simpl.
  rewrite levels_from_0. reflexivity.
Qed.

Lemma ts_to_of_ns (n : Z) : ts_to_ns (ts_of_ns n) = n.
Proof.
  unfold ts_to_ns, ts_of_ns, NSEC_PER_SEC. simpl.
  pose proof (Z.div_mod n 1000000000 ltac:(lia)). lia.
Qed.

Lemma load_store f p v : load (store f p v) p = v.
Proof. destruct p; reflexivity. Qed.

Lemma sleep_loop_interrupted (es : list Z) :
  forall fuel cleanup f d r rp rest dw e,
    r_val rp <> -1 ->
    (List.length es < fuel)%nat ->
    exists t f',
      sleep_loop fuel cleanup f d r
        {| script := map interrupted es ++ rp :: rest; dflt := dw;
           errno := e |}
      = (t, Ret f' {| script := rest; dflt := dw; errno := r_errno rp |})
      /\ forallb is_nanosleep t = true
      /\ requests t = chain (load f d) es
      /\ slept t = ts_to_ns (load f d).
Proof.
  induction es as [|e1 es IH]; intros fuel cleanup f d r rp rest dw e Hrp Hfuel.
  - destruct fuel as [|fuel]; [simpl in Hfuel; lia|].
    apply Z.eqb_neq in Hrp.
    exists [ENanosleep (load f d) rp], f.
    simpl. unfold bind, nanosleep, bind, call, next. simpl.
    repeat (rewrite Hrp; simpl).
    repeat split; try reflexivity. lia.
  - destruct fuel as [|fuel]; [simpl in Hfuel; lia|].
    simpl in Hfuel.
    destruct (IH fuel cleanup
                (store f r (ts_of_ns (ts_to_ns (load f d) - e1)))
                r p_remaining_again rp rest dw EINTR Hrp ltac:(lia))
      as (t & f' & Hrun & Hns & Hreq & Hslept).
    exists (ENanosleep (load f d) (interrupted e1) :: t), f'.
    rewrite load_store in Hreq, Hslept.
    simpl. unfold bind at 1. unfold nanosleep, bind, call, next. simpl.
    rewrite Hrun. simpl. rewrite Hns, Hreq, Hslept, ts_to_of_ns.
    repeat split; try reflexivity. lia.
Qed.

(** An interruption: [nanosleep] returned [-1] with [errno = EINTR]. *)
Lemma sleep_step_hang cleanup f d r rp w fuel t :
  (forall w0, run_result cleanup w0 <> Hang) ->
  next w = (rp, {| script := tl (script w); dflt := dflt w;
                   errno := r_errno rp |}) ->
  sleep_loop (S fuel) cleanup f d r w = (t, Hang) ->
  r_val rp = -1 /\ r_errno rp = EINTR
  /\ exists t' f',
       sleep_loop fuel cleanup f' r p_remaining_again
         {| script := tl (script w); dflt := dflt w; errno := EINTR |}
       = (t', Hang).
Proof.
  intros Hc Hn. simpl. unfold bind at 1. unfold nanosleep, bind at 1, call.
  rewrite Hn.
  assert (forall msg w0 t0,
            (cleanup ;; @error frame msg) w0 <> (t0, Hang)) as Hfatal.
  { intros msg w0 t0. unfold bind. specialize (Hc w0). unfold run_result in Hc.
    destruct (cleanup w0) as [tc [[] wc|c|]]; simpl in *;
      try discriminate; congruence. }
  destruct (r_val rp =? -1) eqn:Ev; destruct (r_errno rp) eqn:Ee; simpl;
    rewrite ?Ev; simpl; try discriminate;
    unfold bind at 1; unfold get_errno; simpl.
  - destruct (sleep_loop fuel cleanup _ r p_remaining_again _)
      as [t' [f' w'|c|]] eqn:El; try discriminate.
    intros _. apply Z.eqb_eq in Ev. split; [exact Ev|]. split; [reflexivity|].
    eexists. eexists. exact El.
  - destruct ((cleanup ;; @error frame _) _) as [t0 r0] eqn:E0.
    destruct r0; try discriminate. exfalso. exact (Hfatal _ _ _ E0).
  - destruct ((cleanup ;; @error frame _) _) as [t0 r0] eqn:E0.
    destruct r0; try discriminate. exfalso. exact (Hfatal _ _ _ E0).
  - destruct ((cleanup ;; @error frame _) _) as [t0 r0] eqn:E0.
    destruct r0; try discriminate. exfalso. exact (Hfatal _ _ _ E0).
Qed.

(** The sleep never ends only in a world where every [nanosleep] to come is
    interrupted. *)
Lemma do_sleep_hang cleanup f w t :
  (forall w0, run_result cleanup w0 <> Hang) ->
  do_sleep cleanup f w = (t, Hang) ->
  Forall (fun rp => r_val rp = -1 /\ r_errno rp = EINTR) (script w)
  /\ r_val (dflt w) = -1 /\ r_errno (dflt w) = EINTR.
Proof.
  intros Hc. unfold do_sleep.
  destruct w as [s dw e]. simpl.
  generalize p_duration as d, p_remaining as r. revert f e t.
  induction s as [|rp s IH]; intros f e t d r H.
  - apply (sleep_step_hang cleanup f d r dw) in H as (Hv & He & _);
      [auto | exact Hc | reflexivity].
  - apply (sleep_step_hang cleanup f d r rp) in H
      as (Hv & He & t' & f' & H); [| exact Hc | reflexivity].
    simpl in H. apply IH in H as (HF & Hd).
    split; [constructor; auto | exact Hd].
Qed.

Section Typestate.
Context {S : Type} (step : S -> event -> S).

Lemma after_app s t1 t2 :
  after step s (t1 ++ t2) = after step (after step s t1) t2.
Proof. apply fold_left_app. Qed.

Lemma wp_run {A} (m : M A) Q s w :
  wp step m Q s -> Q (snd (m w)) (after step s (fst (m w))).
Proof. intros H. apply H. Qed.

Lemma wp_conseq {A} (m : M A) (Q Q' : result A -> S -> Prop) s :
  wp step m Q s -> (forall r s', Q r s' -> Q' r s') -> wp step m Q' s.
Proof. intros H HQ w. apply HQ, H. Qed.

Lemma wp_pure {A} (a : A) Q s :
  (forall w, Q (Ret a w) s) -> wp step (pure a) Q s.
Proof. intros H w. apply H. Qed.

Lemma wp_bind {A B} (m : M A) (f : A -> M B) Q s :
  wp step m (wp_then step f Q) s -> wp step (bind m f) Q s.
Proof.
  intros H w. specialize (H w). unfold bind, wp_then in *.
  destruct (m w) as [t [a w1|c|]]; simpl in *; try exact H.
  specialize (H w1). destruct (f a w1) as [t' r]. simpl in *.
  rewrite after_app. exact H.
Qed.

Lemma wp_call (ev : reply -> event) Q s :
  (forall r w, Q (Ret r w) (step s (ev r))) -> wp step (call ev) Q s.
Proof.
  intros H w. unfold call. destruct (next w) as [r w1]. apply H.
Qed.

Lemma wp_emit e Q s :
  (forall w, Q (Ret tt w) (step s e)) -> wp step (emit e) Q s.
Proof. intros H w. apply H. Qed.

Lemma wp_exit {A} c (Q : result A -> S -> Prop) s :
  Q (Exit c) (step s (EExit c)) -> wp step (exit c) Q s.
Proof. intros H w. apply H. Qed.

Lemma wp_hang {A} (Q : result A -> S -> Prop) s :
  Q Hang s -> wp step hang Q s.
Proof. intros H w. apply H. Qed.

Lemma wp_get_errno Q s :
  (forall e w, Q (Ret e w) s) -> wp step get_errno Q s.
Proof. intros H w. apply H. Qed.

Lemma wp_when (c : bool) (m : M unit) Q s :
  (c = true -> wp step m Q s) ->
  (c = false -> forall w, Q (Ret tt w) s) ->
  wp step (when c m) Q s.
Proof.
  intros Ht Hf. destruct c; simpl.
  - apply Ht. reflexivity.
  - apply wp_pure. apply Hf. reflexivity.
Qed.

Lemma wp_error {A} msg (Q : result A -> S -> Prop) s :
  Q (Exit 1)
    (step (step s (EStderr "ERROR: %s\n" [PStr msg])) (EExit 1)) ->
  wp step (error msg) Q s.
Proof. intros H w. apply H. Qed.

(** The sleep, for a property that [nanosleep] calls do not affect. *)
Lemma wp_sleep_loop fuel cleanup (Q : result frame -> S -> Prop) s :
  (forall req rp, step s (ENanosleep req rp) = s) ->
  (forall msg, wp step (cleanup ;; error msg) Q s) ->
  (forall f w, Q (Ret f w) s) ->
  Q Hang s ->
  forall f d r, wp step (sleep_loop fuel cleanup f d r) Q s.
Proof.
  intros Hstep Hfatal Hret Hhang.
  induction fuel as [|fuel IH]; intros f d r; simpl.
  - apply wp_hang. exact Hhang.
  - apply wp_bind. unfold nanosleep. apply wp_bind, wp_call.
    intros rp w. simpl. rewrite Hstep.
    assert (forall f1, wp step
              (let '(rc, f') := (r_val rp, f1) in
               if rc =? -1
               then e <- get_errno ;;
                    match e with
                    | EINTR => sleep_loop fuel cleanup f' r p_remaining_again
                    | EFAULT =>
                        cleanup ;;
                        error "issuer: problem with copying information from user space"
                    | EINVAL =>
                        cleanup ;; error "issuer: unexpected period duration"
                    | EOTHER _ =>
                        cleanup ;; error "issuer: unexpected errno value"
                    end
               else pure f') Q s) as Hk.
    { intros f1. simpl. destruct (r_val rp =? -1).
      - apply wp_bind, wp_get_errno. intros e w0. simpl.
        destruct e; [apply IH | apply Hfatal ..].
      - apply wp_pure. apply Hret. }
    destruct (_ && _); apply wp_pure; intros w0; simpl; apply Hk.
Qed.

Lemma wp_do_sleep cleanup (Q : result frame -> S -> Prop) s f :
  (forall req rp, step s (ENanosleep req rp) = s) ->
  (forall msg, wp step (cleanup ;; error msg) Q s) ->
  (forall f w, Q (Ret f w) s) ->
  Q Hang s ->
  wp step (do_sleep cleanup f) Q s.
Proof.
  intros H1 H2 H3 H4 w. unfold do_sleep.
  exact (wp_sleep_loop _ cleanup Q s H1 H2 H3 H4 f _ _ w).
Qed.
End Typestate.

Ltac wp_step :=
  lazymatch goal with
  | |- wp _ (bind _ _) _ _ => apply wp_bind
  | |- wp _ (call _) _ _ => apply wp_call; intros ? ?; simpl
  | |- wp _ (emit _) _ _ => apply wp_emit; intros ?; simpl
  | |- wp _ (pure _) _ _ => apply wp_pure; intros ?; simpl
  | |- wp _ (error _) _ _ => apply wp_error; simpl
  | |- wp _ (exit _) _ _ => apply wp_exit; simpl
  | |- wp _ get_errno _ _ => apply wp_get_errno; intros ? ?; simpl
  | |- wp _ (when _ _) _ _ => apply wp_when; [intros ? | intros ? ?; simpl]
  | |- wp _ (gpiod_chip_open_by_name _) _ _ => unfold gpiod_chip_open_by_name
  | |- wp _ (gpiod_chip_close _) _ _ => unfold gpiod_chip_close
  | |- wp _ (gpiod_chip_get_line _ _) _ _ => unfold gpiod_chip_get_line
  | |- wp _ (gpiod_line_request_output _ _ _) _ _ =>
      unfold gpiod_line_request_output
  | |- wp _ (gpiod_line_request_input _ _) _ _ =>
      unfold gpiod_line_request_input
  | |- wp _ (gpiod_line_request_both_edges_events _ _) _ _ =>
      unfold gpiod_line_request_both_edges_events
  | |- wp _ (gpiod_line_set_value _ _) _ _ => unfold gpiod_line_set_value
  | |- wp _ (gpiod_line_event_wait _) _ _ => unfold gpiod_line_event_wait
  | |- wp _ (gpiod_line_event_read _) _ _ => unfold gpiod_line_event_read
  | |- wp _ (gpiod_line_release _) _ _ => unfold gpiod_line_release
  | |- wp _ (printf _ _) _ _ => unfold printf
  | |- wp _ (fprintf_stderr _ _) _ _ => unfold fprintf_stderr
  | |- wp _ (pthread_create _) _ _ => unfold pthread_create
  | |- wp _ (pthread_join _) _ _ => unfold pthread_join
  | |- wp _ (atexit _) _ _ => unfold atexit
  | |- wp _ (Managed.issuer_thread_terminate _) _ _ =>
      unfold Managed.issuer_thread_terminate
  | |- wp _ (Managed.receiver_thread_terminate _) _ _ =>
      unfold Managed.receiver_thread_terminate
  | |- wp_then _ _ _ _ _ => unfold wp_then
  end.

Ltac wp_go := repeat wp_step.

Lemma disciplined_do_sleep cleanup f :
  (forall msg, disciplined (cleanup ;; @error frame msg)) ->
  disciplined (do_sleep cleanup f).
Proof.
  intros H. apply wp_do_sleep; simpl; auto.
Qed.

Lemma disciplined_Gpio2_issuer_loop n :
  forall cycle line f, disciplined (Gpio2.issuer_loop n cycle line f).
Proof.
  induction n as [|n IH]; intros cycle line f; simpl; unfold disciplined.
  - wp_go. reflexivity.
  - wp_go; [split; reflexivity|].
    eapply wp_conseq.
    + apply disciplined_do_sleep. intros msg. unfold disciplined. wp_go.
      split; reflexivity.
    + intros [f' w'|c|] s' Hs; simpl in *; subst; auto.
      apply IH.
Qed.

Lemma disciplined_bind {A B} (m : M A) (f : A -> M B) :
  disciplined m -> (forall a, disciplined (f a)) -> disciplined (bind m f).
Proof.
  intros Hm Hf. unfold disciplined. apply wp_bind.
  eapply wp_conseq; [exact Hm|].
  intros [a w|c|] s Hs; simpl in *; subst; auto. apply Hf.
Qed.

Lemma disciplined_Managed_issuer_loop n :
  forall cycle res f, disciplined (Managed.issuer_loop n cycle res f).
Proof.
  induction n as [|n IH]; intros cycle res f; simpl; unfold disciplined.
  - wp_go. reflexivity.
  - wp_go; try (split; reflexivity).
    eapply wp_conseq.
    + apply disciplined_do_sleep. intros msg. unfold disciplined. wp_go.
      all: split; reflexivity.
    + intros [f' w'|c|] s' Hs; simpl in *; subst; auto.
      apply IH.
Qed.

Lemma disciplined_Gpio2_issuer_thread args locals :
  disciplined (Gpio2.issuer_thread args locals).
Proof.
  unfold Gpio2.issuer_thread.
  unfold disciplined. wp_go; try (split; reflexivity).
  eapply wp_conseq; [apply disciplined_Gpio2_issuer_loop|].
  intros [f' w'|c|] s' Hs; simpl in *; subst; auto.
  wp_go; try (split; reflexivity); try reflexivity.
Qed.

Lemma disciplined_Managed_issuer_thread CHIP args locals :
  disciplined (Managed.issuer_thread CHIP args locals).
Proof.
  unfold Managed.issuer_thread.
  unfold disciplined. wp_go; try (split; reflexivity).
  eapply wp_conseq; [apply disciplined_Managed_issuer_loop|].
  intros [f' w'|c|] s' Hs; simpl in *; subst; auto.
  wp_go; try (split; reflexivity); try reflexivity.
Qed.

Lemma disciplined_Gpio2_receiver_loop n :
  forall receiver controller state,
    disciplined (Gpio2.receiver_loop n receiver controller state).
Proof.
  induction n as [|n IH]; intros receiver controller state; simpl;
    unfold disciplined.
  - wp_go. reflexivity.
  - wp_go; try (split; reflexivity). apply IH.
Qed.

Lemma disciplined_Managed_receiver_loop n :
  forall res state, disciplined (Managed.receiver_loop n res state).
Proof.
  induction n as [|n IH]; intros res state; simpl; unfold disciplined.
  - wp_go. reflexivity.
  - wp_go; try (split; reflexivity). apply IH.
Qed.

Lemma disciplined_Gpio2_receiver_thread args state0 :
  disciplined (Gpio2.receiver_thread args state0).
Proof.
  unfold Gpio2.receiver_thread.
  unfold disciplined. wp_go; try (split; reflexivity).
  eapply wp_conseq; [apply disciplined_Gpio2_receiver_loop|].
  intros [f' w'|c|] s' Hs; simpl in *; subst; auto.
  wp_go; try (split; reflexivity); try reflexivity.
Qed.

Lemma disciplined_Managed_receiver_thread CHIP args state0 :
  disciplined (Managed.receiver_thread CHIP args state0).
Proof.
  unfold Managed.receiver_thread.
  unfold disciplined. wp_go; try (split; reflexivity).
  eapply wp_conseq; [apply disciplined_Managed_receiver_loop|].
  intros [f' w'|c|] s' Hs; simpl in *; subst; auto.
  wp_go; try (split; reflexivity); try reflexivity.
Qed.

Lemma diag_exit_disjoint e : is_error_diag e = true -> is_exit e = false.
Proof. destruct e; simpl; congruence. Qed.

Lemma after_cons {S} (step : S -> event -> S) s e t :
  after step s (e :: t) = after step (step s e) t.
Proof. reflexivity. Qed.

Lemma after_DBad t : after disc_step DBad t = DBad.
Proof. induction t; simpl; auto. Qed.

Lemma after_DExited t : after disc_step DExited t = DExited -> t = [].
Proof.
  destruct t as [|e t]; [reflexivity|].
  rewrite after_cons. simpl. rewrite after_DBad. discriminate.
Qed.

Lemma after_DDiag t :
  (after disc_step DDiag t = DExited -> t = [EExit 1]) /\
  after disc_step DDiag t <> DClean.
Proof.
  destruct t as [|e t]; [split; discriminate|].
  rewrite after_cons.
  assert (disc_step DDiag e = DBad
          \/ (e = EExit 1 /\ disc_step DDiag e = DExited))
    as [Hb | [-> Hx]].
  { destruct e; simpl; auto. destruct code as [|[p|p|]|]; auto. }
  - rewrite Hb, after_DBad. split; discriminate.
  - rewrite Hx. split.
    + intros H. apply after_DExited in H. subst. reflexivity.
    + destruct t; [discriminate|].
      rewrite after_cons. simpl. rewrite after_DBad. discriminate.
Qed.

Lemma disc_step_DClean e :
  disc_step DClean e =
  if is_error_diag e then DDiag else if is_exit e then DBad else DClean.
Proof. reflexivity. Qed.

Lemma disc_clean t :
  after disc_step DClean t = DClean -> forallb quiet t = true.
Proof.
  induction t as [|e t IH]; [reflexivity|].
  rewrite after_cons, disc_step_DClean. simpl forallb. unfold quiet at 1.
  destruct (is_error_diag e) eqn:Hd; simpl.
  - intros H. exfalso. exact (proj2 (after_DDiag t) H).
  - destruct (is_exit e) eqn:Hx; simpl.
    + rewrite after_DBad. discriminate.
    + exact IH.
Qed.

Lemma disc_exited t :
  after disc_step DClean t = DExited ->
  exists pre d,
    t = pre ++ [d; EExit 1] /\ forallb quiet pre = true
    /\ is_error_diag d = true.
Proof.
  induction t as [|e t IH]; [discriminate|].
  rewrite after_cons, disc_step_DClean.
  destruct (is_error_diag e) eqn:Hd.
  - intros H. apply (proj1 (after_DDiag t)) in H. subst.
    exists [], e. auto.
  - destruct (is_exit e) eqn:Hx.
    + rewrite after_DBad. discriminate.
    + intros H. destruct (IH H) as (pre & d & -> & Hq & Hdd).
      exists (e :: pre), d. simpl. unfold quiet at 1. rewrite Hd, Hx. auto.
Qed.

Lemma is_exit_not_diag e : is_exit e = true -> is_error_diag e = false.
Proof. destruct e; simpl; congruence. Qed.

Lemma has_exit_app t1 t2 : has_exit (t1 ++ t2) = has_exit t1 || has_exit t2.
Proof. apply existsb_app. Qed.

Lemma reported_mono t : forall seen,
  reported seen t = true -> reported true t = true.
Proof.
  induction t as [|e t IH]; intros seen; simpl; [reflexivity|].
  destruct (is_exit e).
  - destruct seen; simpl; [auto | discriminate].
  - intros H. apply IH in H. exact H.
Qed.

Lemma reported_weaken t seen seen' :
  reported seen t = true -> reported (seen || seen') t = true.
Proof.
  destruct seen; simpl; [auto|].
  destruct seen'; [apply reported_mono | auto].
Qed.

Lemma reported_app t1 : forall t2 s1 s2,
  reported s1 t1 = true -> reported s2 t2 = true ->
  reported (s1 || s2) (t1 ++ t2) = true.
Proof.
  induction t1 as [|e t1 IH]; intros t2 s1 s2 H1 H2; simpl in *.
  - rewrite orb_comm. apply reported_weaken. exact H2.
  - destruct (is_exit e).
    + apply andb_prop in H1 as [H1 H1'].
      apply andb_prop in H1 as [Hs He]. subst s1. simpl.
      rewrite He. simpl. exact (IH t2 true s2 H1' H2).
    + replace (s1 || s2 || is_error_diag e)
        with ((s1 || is_error_diag e) || s2)
        by (destruct s1, s2, (is_error_diag e); reflexivity).
      apply IH; assumption.
Qed.

Lemma reported_interleave sched : forall t1 t2 s1 s2,
  reported s1 t1 = true -> reported s2 t2 = true ->
  reported (s1 || s2) (interleave sched t1 t2) = true.
Proof.
  induction sched as [|b sched IH]; intros t1 t2 s1 s2 H1 H2; simpl.
  - apply reported_app; assumption.
  - destruct t1 as [|e1 t1].
    { rewrite orb_comm. apply reported_weaken. exact H2. }
    destruct t2 as [|e2 t2].
    { apply reported_weaken. exact H1. }
    destruct b.
    + simpl in H1 |- *. destruct (is_exit e1).
      * apply andb_prop in H1 as [H1 H1'].
        apply andb_prop in H1 as [Hs He]. subst s1. simpl.
        rewrite He. simpl. exact (IH t1 (e2 :: t2) true s2 H1' H2).
      * replace (s1 || s2 || is_error_diag e1)
          with ((s1 || is_error_diag e1) || s2)
          by (destruct s1, s2, (is_error_diag e1); reflexivity).
        apply IH; assumption.
    + simpl in H2 |- *. destruct (is_exit e2).
      * apply andb_prop in H2 as [H2 H2'].
        apply andb_prop in H2 as [Hs He]. subst s2.
        rewrite orb_true_r. simpl. rewrite He. simpl.
        pose proof (IH (e1 :: t1) t2 s1 true H1 H2') as Hr.
        rewrite orb_true_r in Hr. exact Hr.
      * replace (s1 || s2 || is_error_diag e2)
          with (s1 || (s2 || is_error_diag e2))
          by (destruct s1, s2, (is_error_diag e2); reflexivity).
        apply IH; assumption.
Qed.

Lemma reported_until_exit t : forall seen,
  reported seen t = true -> reported seen (until_exit t) = true.
Proof.
  induction t as [|e t IH]; intros seen; simpl; [reflexivity|].
  destruct (is_exit e) eqn:Hx; simpl; rewrite Hx.
  - intros H. apply andb_prop in H as [H _]. rewrite H. reflexivity.
  - apply IH.
Qed.

Lemma has_exit_interleave sched : forall t1 t2,
  has_exit (interleave sched t1 t2) = has_exit t1 || has_exit t2.
Proof.
  induction sched as [|b sched IH]; intros t1 t2; simpl.
  - apply has_exit_app.
  - destruct t1 as [|e1 t1]; [reflexivity|].
    destruct t2 as [|e2 t2]; [rewrite orb_false_r; reflexivity|].
    destruct b; simpl; rewrite IH; simpl.
    + rewrite orb_assoc. reflexivity.
    + destruct (is_exit e1), (is_exit e2), (has_exit t1), (has_exit t2);
        reflexivity.
Qed.

Lemma has_exit_until_exit t : has_exit (until_exit t) = has_exit t.
Proof.
  induction t as [|e t IH]; simpl; [reflexivity|].
  destruct (is_exit e) eqn:Hx; simpl; rewrite Hx; simpl; auto.
Qed.

Lemma answered_app t1 t2 :
  answered t1 = true -> answered t2 = true -> answered (t1 ++ t2) = true.
Proof.
  induction t1 as [|e t1 IH]; simpl; intros H1 H2; [exact H2|].
  apply andb_prop in H1 as [Hd H1]. rewrite (IH H1 H2), andb_true_r.
  destruct (is_error_diag e); [|reflexivity].
  rewrite has_exit_app, Hd. reflexivity.
Qed.

Lemma answered_interleave sched : forall t1 t2,
  answered t1 = true -> answered t2 = true ->
  answered (interleave sched t1 t2) = true.
Proof.
  induction sched as [|b sched IH]; intros t1 t2 H1 H2; simpl.
  - apply answered_app; assumption.
  - destruct t1 as [|e1 t1]; [exact H2|].
    destruct t2 as [|e2 t2]; [exact H1|].
    destruct b; simpl.
    + simpl in H1. apply andb_prop in H1 as [Hd H1].
      rewrite (IH _ _ H1 H2), andb_true_r.
      destruct (is_error_diag e1); [|reflexivity].
      rewrite has_exit_interleave, Hd. reflexivity.
    + pose proof H2 as H2'. simpl in H2'. apply andb_prop in H2' as [Hd H2'].
      rewrite (IH _ _ H1 H2'), andb_true_r.
      destruct (is_error_diag e2); [|reflexivity].
      rewrite has_exit_interleave, Hd. apply orb_true_r.
Qed.

Lemma answered_until_exit t :
  answered t = true -> answered (until_exit t) = true.
Proof.
  induction t as [|e t IH]; simpl; [reflexivity|].
  intros H. apply andb_prop in H as [Hd H].
  destruct (is_exit e) eqn:Hx; simpl.
  - rewrite (is_exit_not_diag _ Hx). reflexivity.
  - rewrite (IH H), andb_true_r, has_exit_until_exit. exact Hd.
Qed.

Lemma exit_code_has_exit t : has_exit t = false <-> exit_code t = None.
Proof.
  induction t as [|e t IH]; simpl; [tauto|].
  destruct e; simpl; try exact IH. split; discriminate.
Qed.

Lemma quiet_has_exit t : forallb quiet t = true -> has_exit t = false.
Proof.
  induction t as [|e t IH]; simpl; [reflexivity|].
  intros H. apply andb_prop in H as [Hq H]. rewrite (IH H), orb_false_r.
  unfold quiet in Hq. apply andb_prop in Hq as [_ Hq].
  destruct (is_exit e); [discriminate | reflexivity].
Qed.

Lemma quiet_reported t seen : forallb quiet t = true -> reported seen t = true.
Proof.
  revert seen. induction t as [|e t IH]; intros seen; simpl; [reflexivity|].
  intros H. apply andb_prop in H as [Hq H].
  unfold quiet in Hq. apply andb_prop in Hq as [_ Hq].
  destruct (is_exit e); [discriminate|]. apply IH. exact H.
Qed.

Lemma quiet_answered t : forallb quiet t = true -> answered t = true.
Proof.
  induction t as [|e t IH]; simpl; [reflexivity|].
  intros H. apply andb_prop in H as [Hq H]. rewrite (IH H), andb_true_r.
  unfold quiet in Hq. apply andb_prop in Hq as [Hq _].
  destruct (is_error_diag e); [discriminate | reflexivity].
Qed.

Lemma quiet_no_diag t e :
  forallb quiet t = true -> In e t -> is_error_diag e = false.
Proof.
  intros H Hin. rewrite forallb_forall in H. specialize (H e Hin).
  unfold quiet in H. apply andb_prop in H as [H _].
  destruct (is_error_diag e); [discriminate | reflexivity].
Qed.

Lemma fatal_tail_sound pre d :
  forallb quiet pre = true -> is_error_diag d = true ->
  reported false (pre ++ [d; EExit 1]) = true
  /\ answered (pre ++ [d; EExit 1]) = true
  /\ has_exit (pre ++ [d; EExit 1]) = true.
Proof.
  intros Hq Hd. repeat split.
  - change false with (false || false). apply reported_app.
    + apply quiet_reported. exact Hq.
    + simpl. rewrite (diag_exit_disjoint _ Hd), Hd. reflexivity.
  - apply answered_app; [apply quiet_answered; exact Hq|].
    simpl. rewrite Hd. reflexivity.
  - rewrite has_exit_app. simpl. rewrite !orb_true_r. reflexivity.
Qed.

Lemma disciplined_sound {A} (m : M A) w :
  disciplined m -> sound_run (fst (m w)) (outcome_of (snd (m w))).
Proof.
  intros H. specialize (H w). unfold disciplined_post in H.
  destruct (m w) as [t [a w'|c|]]; simpl in *.
  - apply disc_clean in H. repeat split.
    + apply quiet_reported; assumption.
    + apply quiet_answered; assumption.
    + rewrite (quiet_has_exit _ H). discriminate.
    + discriminate.
    + discriminate.
  - destruct H as [-> H]. apply disc_exited in H as (pre & d & -> & Hq & Hd).
    destruct (fatal_tail_sound pre d Hq Hd) as (H1 & H2 & H3).
    repeat split; auto. intros c Hc. inversion Hc. reflexivity.
  - apply disc_clean in H. repeat split.
    + apply quiet_reported; assumption.
    + apply quiet_answered; assumption.
    + rewrite (quiet_has_exit _ H). discriminate.
    + discriminate.
    + discriminate.
Qed.

Lemma reported_exit_code t : forall seen c,
  reported seen t = true -> exit_code t = Some c -> c = 1.
Proof.
  induction t as [|e t IH]; intros seen c; simpl; [discriminate|].
  destruct e; simpl; try apply IH.
  intros H Hc. inversion Hc; subst.
  apply andb_prop in H as [H _]. apply andb_prop in H as [_ H].
  destruct c as [|[p|p|]|]; try discriminate. reflexivity.
Qed.

Lemma exit_code_until_exit t : exit_code (until_exit t) = exit_code t.
Proof.
  induction t as [|e t IH]; simpl; [reflexivity|].
  destruct e; simpl; auto.
Qed.

Lemma sound_run_app_quiet q t o :
  forallb quiet q = true -> sound_run t o -> sound_run (q ++ t) o.
Proof.
  intros Hq (H1 & H2 & H3 & H4). repeat split; auto.
  - change false with (false || false). apply reported_app; auto.
    apply quiet_reported; assumption.
  - apply answered_app; auto. apply quiet_answered; assumption.
  - rewrite has_exit_app, (quiet_has_exit _ Hq). simpl. apply H3.
  - rewrite has_exit_app, (quiet_has_exit _ Hq). simpl. apply H3.
Qed.

Lemma sound_process_quiet_l q t st :
  forallb quiet q = true -> sound_process t st -> sound_process (q ++ t) st.
Proof.
  intros Hq (H1 & H2 & H3 & H4). repeat split; auto.
  - change false with (false || false). apply reported_app; auto.
    apply quiet_reported; assumption.
  - apply answered_app; auto. apply quiet_answered; assumption.
  - rewrite has_exit_app, (quiet_has_exit _ Hq). simpl. apply H3.
  - rewrite has_exit_app, (quiet_has_exit _ Hq). simpl. apply H3.
Qed.

Lemma sound_process_quiet_r q t st :
  forallb quiet q = true -> sound_process t st -> sound_process (t ++ q) st.
Proof.
  intros Hq (H1 & H2 & H3 & H4). repeat split; auto.
  - change false with (false || false). apply reported_app; auto.
    apply quiet_reported; assumption.
  - apply answered_app; auto. apply quiet_answered; assumption.
  - rewrite has_exit_app, (quiet_has_exit _ Hq), orb_false_r. apply H3.
  - rewrite has_exit_app, (quiet_has_exit _ Hq), orb_false_r. apply H3.
Qed.

(** The concurrent phase: it exits exactly when one side does, and it ends
    normally exactly when both sides return. *)
Lemma run_threads_sound sched t1 o1 t2 o2 :
  sound_run t1 o1 -> sound_run t2 o2 ->
  sound_run (fst (run_threads sched (t1, o1) (t2, o2)))
            (snd (run_threads sched (t1, o1) (t2, o2)))
  /\ (snd (run_threads sched (t1, o1) (t2, o2)) = Returned <->
      o1 = Returned /\ o2 = Returned).
Proof.
  intros (R1 & A1 & X1 & C1) (R2 & A2 & X2 & C2).
  unfold run_threads. simpl.
  set (t := until_exit (interleave sched t1 t2)).
  assert (reported false t = true) as Rt.
  { apply reported_until_exit.
    change false with (false || false). apply reported_interleave; auto. }
  assert (answered t = true) as At.
  { apply answered_until_exit, answered_interleave; auto. }
  assert (has_exit t = has_exit t1 || has_exit t2) as Xt.
  { unfold t. rewrite has_exit_until_exit. apply has_exit_interleave. }
  destruct (exit_code t) as [c|] eqn:Ec.
  - pose proof (reported_exit_code _ _ _ Rt Ec). subst c. simpl.
    assert (has_exit t = true) as Hx.
    { destruct (has_exit t) eqn:E; [reflexivity|].
      apply exit_code_has_exit in E. congruence. }
    split.
    + repeat split; auto. intros c Hc. inversion Hc. reflexivity.
    + split; [discriminate|]. intros [-> ->].
      rewrite Xt in Hx. apply orb_prop in Hx as [Hx | Hx].
      * apply X1 in Hx. discriminate.
      * apply X2 in Hx. discriminate.
  - assert (has_exit t = false) as Hx by (apply exit_code_has_exit; exact Ec).
    assert (o1 <> Exited 1 /\ o2 <> Exited 1) as [N1 N2].
    { rewrite Xt in Hx. apply orb_false_elim in Hx as [Hx1 Hx2].
      split; intros E.
      - apply X1 in E. congruence.
      - apply X2 in E. congruence. }
    destruct o1 as [|c1|]; destruct o2 as [|c2|]; simpl;
      (split;
       [ repeat split; auto; try discriminate; rewrite Hx; discriminate
       | split; [intros E; try discriminate; auto | intros [E1 E2]; try discriminate; auto] ]).
Qed.

Lemma silent_quiet {A} (m : M A) w :
  silent m -> forallb quiet (fst (m w)) = true.
Proof. intros H. apply disc_clean. apply (H w). Qed.

Lemma silent_reset_line CHIP pin : silent (Managed.reset_line CHIP pin).
Proof.
  unfold silent, Managed.reset_line. wp_go.
  destruct (r_val r =? 0); wp_go; [reflexivity|].
  destruct (r_val r0 =? -1); wp_go; reflexivity.
Qed.

Lemma silent_bind {A B} (m : M A) (f : A -> M B) :
  silent m -> (forall a, silent (f a)) -> silent (bind m f).
Proof.
  intros Hm Hf. unfold silent. apply wp_bind.
  eapply wp_conseq; [exact Hm|].
  intros [a w|c|] s Hs; simpl in *; subst; auto. apply Hf.
Qed.

Lemma silent_reset_lines CHIP pins : silent (Managed.reset_lines CHIP pins).
Proof.
  induction pins as [|pin pins IH]; simpl.
  - unfold silent. wp_go. reflexivity.
  - apply silent_bind; [apply silent_reset_line | intros _; exact IH].
Qed.

Lemma silent_reset_gpio CHIP : silent (Managed.reset_gpio CHIP).
Proof.
  unfold Managed.reset_gpio.
  apply silent_bind; [unfold silent; wp_go; reflexivity | intros _].
  apply silent_bind; [apply silent_reset_lines | intros _].
  unfold silent; wp_go; reflexivity.
Qed.

Lemma disciplined_cases {A} (m : M A) w t r :
  disciplined m -> m w = (t, r) ->
  match r with
  | Exit c =>
      c = 1 /\ exists pre d,
        t = pre ++ [d; EExit 1] /\ forallb quiet pre = true
        /\ is_error_diag d = true
  | _ => forallb quiet t = true
  end.
Proof.
  intros H E. specialize (H w). rewrite E in H. simpl in H.
  destruct r as [a w'|c|]; simpl in H.
  - apply disc_clean; assumption.
  - destruct H as [-> H]. split; [reflexivity|]. apply disc_exited; assumption.
  - apply disc_clean; assumption.
Qed.

Lemma sound_run_process t o : sound_run t o -> sound_process t (status_of o).
Proof.
  intros (H1 & H2 & H3 & H4). repeat split; auto.
  - intros Hx. apply H3 in Hx. subst. reflexivity.
  - intros Hs. apply H3. destruct o; simpl in Hs; try discriminate.
    inversion Hs. reflexivity.
  - destruct o as [|c|]; simpl; auto. rewrite (H4 c eq_refl). auto.
Qed.

Lemma disciplined_main_create thread message :
  disciplined (Gpio2.main_create thread message).
Proof.
  unfold disciplined, Gpio2.main_create. wp_go; try (split; reflexivity); try reflexivity.
Qed.

Lemma disciplined_Gpio2_main_open : disciplined Gpio2.main_open.
Proof.
  unfold disciplined, Gpio2.main_open. wp_go; try (split; reflexivity); try reflexivity.
Qed.

Lemma disciplined_Managed_main_create thread message :
  disciplined (Managed.main_create thread message).
Proof.
  unfold disciplined, Managed.main_create. wp_go; try (split; reflexivity); try reflexivity.
Qed.

Lemma disciplined_Managed_main_open : disciplined Managed.main_open.
Proof.
  unfold disciplined, Managed.main_open. wp_go; try (split; reflexivity); try reflexivity.
Qed.

Lemma Gpio2_main_second_sound chip pw w :
  sound_run (fst (Gpio2.main_second chip pw w))
            (snd (Gpio2.main_second chip pw w)).
Proof.
  unfold Gpio2.main_second.
  pose proof (disciplined_main_create "receiver_thread"
                "cannot create the thread for the receiver") as Hc.
  pose proof (disciplined_sound _ w Hc) as Hs.
  destruct (Gpio2.main_create _ _ w) as [t r] eqn:E.
  pose proof (disciplined_cases _ _ _ _ Hc E) as Hq.
  destruct r as [a w'|c|]; simpl in *; try exact Hs.
  pose proof (disciplined_sound _ (pw_receiver pw)
                (disciplined_Gpio2_receiver_thread
                   (Gpio2.receiver_arg chip) (pw_state0 pw))) as Hr.
  destruct (Gpio2.receiver_thread _ _ _) as [t' r']. simpl in *.
  apply sound_run_app_quiet; assumption.
Qed.

Lemma Managed_main_second_sound CHIP pw w :
  sound_run (fst (Managed.main_second CHIP pw w))
            (snd (Managed.main_second CHIP pw w)).
Proof.
  unfold Managed.main_second.
  pose proof (disciplined_Managed_main_create "receiver_thread"
                "cannot create the thread for the receiver") as Hc.
  pose proof (disciplined_sound _ w Hc) as Hs.
  destruct (Managed.main_create _ _ w) as [t r] eqn:E.
  pose proof (disciplined_cases _ _ _ _ Hc E) as Hq.
  destruct r as [a w'|c|]; simpl in *; try exact Hs.
  pose proof (disciplined_sound _ (pw_receiver pw)
                (disciplined_Managed_receiver_thread CHIP
                   Managed.receiver_arg (pw_state0 pw))) as Hr.
  destruct (Managed.receiver_thread _ _ _ _) as [t' r']. simpl in *.
  apply sound_run_app_quiet; assumption.
Qed.

Lemma fatal_process pre d :
  forallb quiet pre = true -> is_error_diag d = true ->
  sound_process (pre ++ [d; EExit 1]) (Some 1).
Proof.
  intros Hq Hd. destruct (fatal_tail_sound pre d Hq Hd) as (H1 & H2 & H3).
  repeat split; auto.
Qed.

Lemma hang_process t : forallb quiet t = true -> sound_process t None.
Proof.
  intros Hq. repeat split; auto.
  - apply quiet_reported; assumption.
  - apply quiet_answered; assumption.
  - rewrite (quiet_has_exit _ Hq). discriminate.
  - discriminate.
Qed.

Lemma Managed_main_sound pw :
  sound_process (fst (Managed.main pw)) (snd (Managed.main pw)).
Proof.
  unfold Managed.main.
  destruct (Managed.main_open (pw_main pw)) as [t0 r0] eqn:E0.
  pose proof (disciplined_cases _ _ _ _ disciplined_Managed_main_open E0) as H0.
  destruct r0 as [CHIP w1|c|]; simpl.
  2:{ destruct H0 as (-> & pre & d & -> & Hq & Hd). apply fatal_process; auto. }
  2:{ apply hang_process; assumption. }
  assert (disciplined
            (atexit "reset_gpio" ;;
             Managed.main_create "issuer_thread"
               "cannot create the thread for the issuer")) as Hd1.
  { apply disciplined_bind; [unfold disciplined; wp_go; reflexivity|].
    intros _. apply disciplined_Managed_main_create. }
  destruct ((atexit "reset_gpio" ;; Managed.main_create _ _) w1)
    as [t1 r1] eqn:E1.
  pose proof (disciplined_cases _ _ _ _ Hd1 E1) as H1.
  pose proof (silent_quiet _ (pw_atexit pw) (silent_reset_gpio CHIP)) as Hh.
  fold (run_trace (Managed.reset_gpio CHIP) (pw_atexit pw)) in Hh.
  fold (Managed.exit_handlers CHIP pw) in Hh.
  destruct r1 as [u w2|c|]; simpl.
  2:{ destruct H1 as (-> & pre & d & -> & Hq & Hd).
      apply sound_process_quiet_l; [assumption|].
      apply sound_process_quiet_r; [assumption|].
      apply fatal_process; auto. }
  2:{ apply hang_process. rewrite forallb_app, H0, H1. reflexivity. }
  pose proof (disciplined_sound _ (pw_issuer pw)
                (disciplined_Managed_issuer_thread CHIP Managed.issuer_arg
                   (pw_locals pw))) as Hi.
  destruct (Managed.issuer_thread CHIP Managed.issuer_arg (pw_locals pw)
              (pw_issuer pw)) as [ti ri]. simpl in Hi.
  pose proof (Managed_main_second_sound CHIP pw w2) as Hs.
  destruct (Managed.main_second CHIP pw w2) as [ts os]. simpl in Hs.
  destruct (run_threads_sound (pw_sched pw) _ _ _ _ Hi Hs) as [Hr _].
  destruct (run_threads (pw_sched pw) (ti, outcome_of ri) (ts, os))
    as [t2 o2]. simpl in Hr.
  apply sound_run_process in Hr.
  destruct o2 as [|c|]; simpl in *.
  - apply sound_process_quiet_l; [assumption|].
    apply sound_process_quiet_l; [assumption|].
    apply sound_process_quiet_r; [|assumption].
    simpl. exact Hh.
  - apply sound_process_quiet_l; [assumption|].
    apply sound_process_quiet_l; [assumption|].
    apply sound_process_quiet_r; assumption.
  - apply sound_process_quiet_l; [assumption|].
    apply sound_process_quiet_l; assumption.
Qed.

Lemma Gpio2_main_sound pw :
  sound_process (fst (Gpio2.main pw)) (snd (Gpio2.main pw)).
Proof.
  unfold Gpio2.main.
  destruct (Gpio2.main_open (pw_main pw)) as [t0 r0] eqn:E0.
  pose proof (disciplined_cases _ _ _ _ disciplined_Gpio2_main_open E0) as H0.
  destruct r0 as [chip w1|c|]; simpl.
  2:{ destruct H0 as (-> & pre & d & -> & Hq & Hd). apply fatal_process; auto. }
  2:{ apply hang_process; assumption. }
  destruct (Gpio2.main_create "issuer_thread"
              "cannot create the thread for the issuer" w1)
    as [t1 r1] eqn:E1.
  pose proof (disciplined_cases _ _ _ _
                (disciplined_main_create _ _) E1) as H1.
  destruct r1 as [u w2|c|]; simpl.
  2:{ destruct H1 as (-> & pre & d & -> & Hq & Hd).
      apply sound_process_quiet_l; [assumption|].
      apply fatal_process; auto. }
  2:{ apply hang_process. rewrite forallb_app, H0, H1. reflexivity. }
  pose proof (disciplined_sound _ (pw_issuer pw)
                (disciplined_Gpio2_issuer_thread (Gpio2.issuer_arg chip)
                   (pw_locals pw))) as Hi.
  destruct (Gpio2.issuer_thread (Gpio2.issuer_arg chip) (pw_locals pw)
              (pw_issuer pw)) as [ti ri]. simpl in Hi.
  pose proof (Gpio2_main_second_sound chip pw w2) as Hs.
  destruct (Gpio2.main_second chip pw w2) as [ts os]. simpl in Hs.
  destruct (run_threads_sound (pw_sched pw) _ _ _ _ Hi Hs) as [Hr _].
  destruct (run_threads (pw_sched pw) (ti, outcome_of ri) (ts, os))
    as [t2 o2]. simpl in Hr.
  apply sound_run_process in Hr.
  destruct o2 as [|c|]; simpl in *.
  - apply sound_process_quiet_l; [assumption|].
    apply sound_process_quiet_l; [assumption|].
    apply sound_process_quiet_r; [reflexivity | assumption].
  - apply sound_process_quiet_l; [assumption|].
    apply sound_process_quiet_l; assumption.
  - apply sound_process_quiet_l; [assumption|].
    apply sound_process_quiet_l; assumption.
Qed.

Lemma answered_in t d :
  answered t = true -> In d t -> is_error_diag d = true -> has_exit t = true.
Proof.
  induction t as [|e t IH]; simpl; [tauto|].
  intros H [-> | Hin] Hd; apply andb_prop in H as [H1 H2].
  - rewrite Hd in H1. rewrite H1. apply orb_true_r.
  - rewrite (IH H2 Hin Hd). apply orb_true_r.
Qed.

Lemma reported_first_exit t : forall seen,
  reported seen t = true -> has_exit t = true ->
  exists mid post, t = mid ++ EExit 1 :: post.
Proof.
  induction t as [|e t IH]; intros seen; simpl; [discriminate|].
  destruct (is_exit e) eqn:Hx.
  - intros H _. apply andb_prop in H as [H _]. apply andb_prop in H as [_ H].
    destruct e; try discriminate. destruct code as [|[p|p|]|]; try discriminate.
    exists [], t. reflexivity.
  - simpl. intros H Hh. destruct (IH _ H Hh) as (mid & post & ->).
    exists (e :: mid), post. reflexivity.
Qed.

Lemma error_diag_form d :
  is_error_diag d = true -> exists msg, d = EStderr "ERROR: %s\n" [PStr msg].
Proof.
  destruct d; simpl; try discriminate.
  destruct args as [|[z|s0|e|e] [|a args]]; try discriminate.
  intros H. apply String.eqb_eq in H. subst. exists s0. reflexivity.
Qed.

Lemma reported_fatal t : forall seen,
  reported seen t = true -> has_exit t = true ->
  seen = true \/ fatal_report t.
Proof.
  induction t as [|e t IH]; intros seen; simpl; [discriminate|].
  destruct (is_exit e) eqn:Hx.
  - intros H _. apply andb_prop in H as [H _]. apply andb_prop in H as [H _].
    auto.
  - simpl. intros H Hh. destruct (IH _ H Hh) as [Hs | (pre & msg & mid & post & ->)].
    + apply orb_prop in Hs as [Hs | Hd]; [auto|]. right.
      destruct (error_diag_form _ Hd) as [msg ->].
      destruct (reported_first_exit _ _ H Hh) as (mid & post & ->).
      exists [], msg, mid, post. reflexivity.
    + right. exists (e :: pre), msg, mid, post. reflexivity.
Qed.

(** What a sound process run gives for the exit status. *)
Lemma sound_process_status t st :
  sound_process t st ->
  (forall msg, In (EStderr "ERROR: %s\n" [PStr msg]) t -> st = Some 1)
  /\ (st = Some 1 -> fatal_report t)
  /\ (st = Some 0 -> has_exit t = false)
  /\ (st = Some 0 \/ st = Some 1 \/ st = None).
Proof.
  intros (H1 & H2 & H3 & H4). repeat split; auto.
  - intros msg Hin. apply H3. eapply answered_in; eauto.
  - intros Hs. apply H3 in Hs.
    destruct (reported_fatal _ _ H1 Hs) as [Hf | Hf]; [discriminate | exact Hf].
  - intros Hs. destruct (has_exit t); [|reflexivity].
    rewrite (proj1 H3 eq_refl) in Hs. discriminate.
Qed.

Lemma run_result_eq {A} (m : M A) w r :
  run_result m w = r -> m w = (fst (m w), r).
Proof. unfold run_result. intros <-. destruct (m w); reflexivity. Qed.

Lemma Managed_completes_status pw :
  Managed.completes pw -> snd (Managed.main pw) = Some 0.
Proof.
  intros (CHIP & w1 & w2 & H0 & H1 & (a2 & w3 & H2) & (ai & wi & Hi)
          & (ar & wr & Hr)).
  unfold Managed.main.
  rewrite (run_result_eq _ _ _ H0), (run_result_eq _ _ _ H1).
  pose proof (disciplined_sound _ (pw_issuer pw)
                (disciplined_Managed_issuer_thread CHIP Managed.issuer_arg
                   (pw_locals pw))) as Si.
  rewrite (run_result_eq _ _ _ Hi) in Si |- *. simpl in Si.
  pose proof (Managed_main_second_sound CHIP pw w2) as Ss.
  assert (snd (Managed.main_second CHIP pw w2) = Returned) as Es.
  { unfold Managed.main_second. rewrite (run_result_eq _ _ _ H2).
    rewrite (run_result_eq _ _ _ Hr). reflexivity. }
  destruct (Managed.main_second CHIP pw w2) as [ts os]. simpl in Ss, Es.
  subst os.
  destruct (run_threads_sound (pw_sched pw) _ _ _ _ Si Ss) as [_ Hret].
  simpl outcome_of.
  destruct (run_threads (pw_sched pw) _ _) as [t2 o2]. simpl in Hret.
  rewrite (proj2 Hret (conj eq_refl eq_refl)). reflexivity.
Qed.

Lemma Gpio2_completes_status pw :
  Gpio2.completes pw -> snd (Gpio2.main pw) = Some 0.
Proof.
  intros (chip & w1 & w2 & H0 & H1 & (a2 & w3 & H2) & (ai & wi & Hi)
          & (ar & wr & Hr)).
  unfold Gpio2.main.
  rewrite (run_result_eq _ _ _ H0), (run_result_eq _ _ _ H1).
  pose proof (disciplined_sound _ (pw_issuer pw)
                (disciplined_Gpio2_issuer_thread (Gpio2.issuer_arg chip)
                   (pw_locals pw))) as Si.
  rewrite (run_result_eq _ _ _ Hi) in Si |- *. simpl in Si.
  pose proof (Gpio2_main_second_sound chip pw w2) as Ss.
  assert (snd (Gpio2.main_second chip pw w2) = Returned) as Es.
  { unfold Gpio2.main_second. rewrite (run_result_eq _ _ _ H2).
    rewrite (run_result_eq _ _ _ Hr). reflexivity. }
  destruct (Gpio2.main_second chip pw w2) as [ts os]. simpl in Ss, Es.
  subst os.
  destruct (run_threads_sound (pw_sched pw) _ _ _ _ Si Ss) as [_ Hret].
  simpl outcome_of.
  destruct (run_threads (pw_sched pw) _ _) as [t2 o2]. simpl in Hret.
  rewrite (proj2 Hret (conj eq_refl eq_refl)). reflexivity.
Qed.

Lemma after_all_false p t : after (all_step p) false t = false.
Proof. induction t; simpl; auto. Qed.

Lemma after_all p t : after (all_step p) true t = forallb p t.
Proof.
  induction t as [|e t IH]; [reflexivity|].
  rewrite after_cons. unfold all_step at 2. simpl.
  destruct (p e); simpl; [exact IH | apply after_all_false].
Qed.

Lemma all_events_run {A} p (m : M A) w :
  all_events p m -> forallb p (fst (m w)) = true.
Proof. intros H. rewrite <- after_all. apply (H w). Qed.

Lemma all_events_bind {A B} p (m : M A) (f : A -> M B) :
  all_events p m -> (forall a, all_events p (f a)) -> all_events p (bind m f).
Proof.
  intros Hm Hf. unfold all_events. apply wp_bind.
  eapply wp_conseq; [exact Hm|].
  intros [a w|c|] s Hs; simpl in *; subst; auto. apply Hf.
Qed.

Lemma no_close_do_sleep cleanup f :
  all_events not_close cleanup -> all_events not_close (do_sleep cleanup f).
Proof.
  intros H. apply wp_do_sleep; simpl; auto.
  intros msg. apply all_events_bind; [exact H | intros _].
  unfold all_events. wp_go. reflexivity.
Qed.

Ltac no_close_go := unfold all_events; wp_go; try reflexivity.

Lemma no_close_Gpio2_issuer_loop n :
  forall cycle line f,
    all_events not_close (Gpio2.issuer_loop n cycle line f).
Proof.
  induction n as [|n IH]; intros cycle line f; simpl.
  - no_close_go.
  - no_close_go.
    eapply wp_conseq; [apply no_close_do_sleep; no_close_go|].
    intros [f' w'|c|] s' Hs; simpl in *; subst; auto. apply IH.
Qed.

Lemma no_close_Managed_issuer_loop n :
  forall cycle res f,
    all_events not_close (Managed.issuer_loop n cycle res f).
Proof.
  induction n as [|n IH]; intros cycle res f; simpl.
  - no_close_go.
  - no_close_go.
    eapply wp_conseq; [apply no_close_do_sleep; no_close_go|].
    intros [f' w'|c|] s' Hs; simpl in *; subst; auto. apply IH.
Qed.

Lemma no_close_Gpio2_receiver_loop n :
  forall receiver controller state,
    all_events not_close (Gpio2.receiver_loop n receiver controller state).
Proof.
  induction n as [|n IH]; intros receiver controller state; simpl.
  - no_close_go.
  - no_close_go. apply IH.
Qed.

Lemma no_close_Managed_receiver_loop n :
  forall res state,
    all_events not_close (Managed.receiver_loop n res state).
Proof.
  induction n as [|n IH]; intros res state; simpl.
  - no_close_go.
  - no_close_go. apply IH.
Qed.

Lemma no_close_Gpio2_issuer_thread args locals :
  all_events not_close (Gpio2.issuer_thread args locals).
Proof.
  unfold Gpio2.issuer_thread. no_close_go.
  eapply wp_conseq; [apply no_close_Gpio2_issuer_loop|].
  intros [f' w'|c|] s' Hs; simpl in *; subst; auto. no_close_go.
Qed.

Lemma no_close_Managed_issuer_thread CHIP args locals :
  all_events not_close (Managed.issuer_thread CHIP args locals).
Proof.
  unfold Managed.issuer_thread. no_close_go.
  eapply wp_conseq; [apply no_close_Managed_issuer_loop|].
  intros [f' w'|c|] s' Hs; simpl in *; subst; auto. no_close_go.
Qed.

Lemma no_close_Gpio2_receiver_thread args state0 :
  all_events not_close (Gpio2.receiver_thread args state0).
Proof.
  unfold Gpio2.receiver_thread. no_close_go.
  eapply wp_conseq; [apply no_close_Gpio2_receiver_loop|].
  intros [f' w'|c|] s' Hs; simpl in *; subst; auto. no_close_go.
Qed.

Lemma no_close_Managed_receiver_thread CHIP args state0 :
  all_events not_close (Managed.receiver_thread CHIP args state0).
Proof.
  unfold Managed.receiver_thread. no_close_go.
  eapply wp_conseq; [apply no_close_Managed_receiver_loop|].
  intros [f' w'|c|] s' Hs; simpl in *; subst; auto. no_close_go.
Qed.

Lemma forallb_interleave (p : event -> bool) sched : forall t1 t2,
  forallb p t1 = true -> forallb p t2 = true ->
  forallb p (interleave sched t1 t2) = true.
Proof.
  induction sched as [|b sched IH]; intros t1 t2 H1 H2; simpl.
  - rewrite forallb_app, H1, H2. reflexivity.
  - destruct t1 as [|e1 t1]; [exact H2|].
    destruct t2 as [|e2 t2]; [exact H1|].
    destruct b; simpl.
    + simpl in H1. apply andb_prop in H1 as [He H1].
      rewrite He, (IH _ _ H1 H2). reflexivity.
    + pose proof H2 as H2'. simpl in H2'. apply andb_prop in H2' as [He H2'].
      rewrite He, (IH _ _ H1 H2'). reflexivity.
Qed.

Lemma forallb_until_exit (p : event -> bool) t :
  forallb p t = true -> forallb p (until_exit t) = true.
Proof.
  induction t as [|e t IH]; simpl; [reflexivity|].
  intros H. apply andb_prop in H as [He H].
  destruct (is_exit e); simpl; rewrite He; auto.
Qed.

Lemma no_close_closes chip t :
  forallb not_close t = true -> closes_of chip t = O.
Proof.
  induction t as [|e t IH]; simpl; [reflexivity|].
  intros H. apply andb_prop in H as [He H].
  destruct e; simpl in *; try discriminate; auto.
Qed.

Lemma closes_of_app chip t1 t2 :
  closes_of chip (t1 ++ t2) = (closes_of chip t1 + closes_of chip t2)%nat.
Proof.
  induction t1 as [|e t1 IH]; simpl; [reflexivity|].
  destruct e; simpl; try exact IH.
  destruct (chip0 =? chip); simpl; rewrite IH; reflexivity.
Qed.

Lemma reset_line_protocol CHIP pin seen :
  wp reset_step (Managed.reset_line CHIP pin)
    (fun r s => returned r /\ s = (RIdle, seen ++ [(CHIP, pin)]))
    (RIdle, seen).
Proof.
  unfold Managed.reset_line. wp_go.
  destruct (r_val r =? 0) eqn:E0.
  - wp_go. split; [eexists; eexists; reflexivity | reflexivity].
  - wp_go. rewrite Z.eqb_refl.
    destruct (r_val r0 =? -1) eqn:E1.
    + wp_go. split; [eexists; eexists; reflexivity | reflexivity].
    + wp_go. rewrite Z.eqb_refl.
      split; [eexists; eexists; reflexivity | reflexivity].
Qed.

Lemma reset_lines_protocol CHIP pins : forall seen,
  wp reset_step (Managed.reset_lines CHIP pins)
    (fun r s => returned r
                /\ s = (RIdle, seen ++ map (fun pin => (CHIP, pin)) pins))
    (RIdle, seen).
Proof.
  induction pins as [|pin pins IH]; intros seen; simpl.
  - wp_go. rewrite app_nil_r.
    split; [eexists; eexists; reflexivity | reflexivity].
  - apply wp_bind. eapply wp_conseq; [apply reset_line_protocol|].
    intros r s [(a & w & ->) ->]. simpl.
    eapply wp_conseq; [apply IH|].
    intros r s [Hr ->]. split; [exact Hr|].
    rewrite <- app_assoc. reflexivity.
Qed.

Lemma reset_gpio_protocol CHIP :
  wp reset_step (Managed.reset_gpio CHIP)
    (fun r s => returned r
                /\ s = (RClosed CHIP,
                        [(CHIP, 16); (CHIP, 17); (CHIP, 21)]))
    (RIdle, []).
Proof.
  unfold Managed.reset_gpio.
  change [(CHIP, 16); (CHIP, 17); (CHIP, 21)]
    with ([] ++ map (fun pin => (CHIP, pin)) Managed.pins).
  generalize Managed.pins as ps. intros ps. wp_go.
  eapply wp_conseq; [apply reset_lines_protocol|].
  intros r s [(a & w' & ->) ->]. simpl. wp_go.
  split; [eexists; eexists; reflexivity | reflexivity].
Qed.

Lemma after_count_closes chip t : forall n,
  after (count_closes chip) n t = (n + closes_of chip t)%nat.
Proof.
  induction t as [|e t IH]; intros n; [simpl; lia|].
  rewrite after_cons, IH. destruct e; simpl; try lia.
  destruct (chip0 =? chip); lia.
Qed.

Lemma reset_line_closes chip CHIP pin n :
  wp (count_closes chip) (Managed.reset_line CHIP pin)
    (fun r s => returned r /\ s = n) n.
Proof.
  unfold Managed.reset_line. wp_go.
  destruct (r_val r =? 0).
  - wp_go. split; [eexists; eexists; reflexivity | reflexivity].
  - wp_go. destruct (r_val r0 =? -1); wp_go;
      (split; [eexists; eexists; reflexivity | reflexivity]).
Qed.

Lemma reset_lines_closes chip CHIP pins n :
  wp (count_closes chip) (Managed.reset_lines CHIP pins)
    (fun r s => returned r /\ s = n) n.
Proof.
  induction pins as [|pin pins IH]; simpl.
  - wp_go. split; [eexists; eexists; reflexivity | reflexivity].
  - apply wp_bind. eapply wp_conseq; [apply reset_line_closes|].
    intros r s [(a & w & ->) ->]. simpl. exact IH.
Qed.

Lemma reset_gpio_closes chip CHIP n :
  wp (count_closes chip) (Managed.reset_gpio CHIP)
    (fun r s => returned r /\ s = if CHIP =? chip then S n else n) n.
Proof.
  unfold Managed.reset_gpio. generalize Managed.pins as ps. intros ps. wp_go.
  eapply wp_conseq; [apply reset_lines_closes|].
  intros r s [(a & w' & ->) ->]. simpl. wp_go.
  split; [eexists; eexists; reflexivity | reflexivity].
Qed.

Lemma no_close_Managed_main_open : all_events not_close Managed.main_open.
Proof. unfold Managed.main_open. no_close_go. Qed.

Lemma no_close_Managed_main_create thread message :
  all_events not_close (Managed.main_create thread message).
Proof. unfold Managed.main_create. no_close_go. Qed.

Lemma no_close_Gpio2_main_open : all_events not_close Gpio2.main_open.
Proof. unfold Gpio2.main_open. no_close_go. Qed.

Lemma no_close_Gpio2_main_create thread message :
  all_events not_close (Gpio2.main_create thread message).
Proof. unfold Gpio2.main_create. no_close_go. Qed.

Lemma no_close_Managed_main_second CHIP pw w :
  forallb not_close (fst (Managed.main_second CHIP pw w)) = true.
Proof.
  unfold Managed.main_second.
  pose proof (all_events_run _ _ w
                (no_close_Managed_main_create "receiver_thread"
                   "cannot create the thread for the receiver")) as Hc.
  destruct (Managed.main_create _ _ w) as [t [a w'|c|]]; simpl in *; auto.
  pose proof (all_events_run _ _ (pw_receiver pw)
                (no_close_Managed_receiver_thread CHIP Managed.receiver_arg
                   (pw_state0 pw))) as Hr.
  destruct (Managed.receiver_thread _ _ _ _) as [t' r']. simpl in *.
  rewrite forallb_app, Hc, Hr. reflexivity.
Qed.

Lemma no_close_Gpio2_main_second chip pw w :
  forallb not_close (fst (Gpio2.main_second chip pw w)) = true.
Proof.
  unfold Gpio2.main_second.
  pose proof (all_events_run _ _ w
                (no_close_Gpio2_main_create "receiver_thread"
                   "cannot create the thread for the receiver")) as Hc.
  destruct (Gpio2.main_create _ _ w) as [t [a w'|c|]]; simpl in *; auto.
  pose proof (all_events_run _ _ (pw_receiver pw)
                (no_close_Gpio2_receiver_thread (Gpio2.receiver_arg chip)
                   (pw_state0 pw))) as Hr.
  destruct (Gpio2.receiver_thread _ _ _) as [t' r']. simpl in *.
  rewrite forallb_app, Hc, Hr. reflexivity.
Qed.

Lemma no_close_run_threads sched (t1 : trace) o1 (t2 : trace) o2 :
  forallb not_close t1 = true -> forallb not_close t2 = true ->
  forallb not_close (fst (run_threads sched (t1, o1) (t2, o2))) = true.
Proof.
  intros H1 H2. unfold run_threads. simpl.
  assert (forallb not_close (until_exit (interleave sched t1 t2)) = true) as H.
  { apply forallb_until_exit, forallb_interleave; assumption. }
  destruct (exit_code _); [exact H|].
  destruct o1; try exact H. destruct o2; exact H.
Qed.

(** In the program with the exit handler, every close of the chip is in the
    part of the process trace produced by the handler. *)
Lemma Managed_main_closes pw :
  exists pre post,
    fst (Managed.main pw) = pre ++ post
    /\ forallb not_close pre = true
    /\ (post = [] \/
        exists CHIP, post = run_trace (Managed.reset_gpio CHIP) (pw_atexit pw)).
Proof.
  unfold Managed.main.
  pose proof (all_events_run _ _ (pw_main pw) no_close_Managed_main_open) as H0.
  destruct (Managed.main_open (pw_main pw)) as [t0 [CHIP w1|c|]]; simpl in H0;
    try (exists t0, []; rewrite app_nil_r; simpl; auto; fail).
  assert (all_events not_close
            (atexit "reset_gpio" ;;
             Managed.main_create "issuer_thread"
               "cannot create the thread for the issuer")) as Hd1.
  { apply all_events_bind; [no_close_go|].
    intros _. apply no_close_Managed_main_create. }
  pose proof (all_events_run _ _ w1 Hd1) as H1.
  destruct ((atexit "reset_gpio" ;; Managed.main_create _ _) w1)
    as [t1 [u w2|c|]]; simpl in H1; simpl fst.
  2:{ exists (t0 ++ t1), (Managed.exit_handlers CHIP pw).
      rewrite <- app_assoc, forallb_app, H0, H1. simpl.
      split; [reflexivity|]. split; [reflexivity|]. right. exists CHIP.
      reflexivity. }
  2:{ exists (t0 ++ t1), []. rewrite app_nil_r, forallb_app, H0, H1. auto. }
  pose proof (all_events_run _ _ (pw_issuer pw)
                (no_close_Managed_issuer_thread CHIP Managed.issuer_arg
                   (pw_locals pw))) as Hi.
  destruct (Managed.issuer_thread CHIP Managed.issuer_arg (pw_locals pw)
              (pw_issuer pw)) as [ti ri]. simpl in Hi.
  pose proof (no_close_Managed_main_second CHIP pw w2) as Hs.
  destruct (Managed.main_second CHIP pw w2) as [ts os]. simpl in Hs.
  pose proof (no_close_run_threads (pw_sched pw) ti (outcome_of ri) ts os
                Hi Hs) as Hr.
  destruct (run_threads (pw_sched pw) (ti, outcome_of ri) (ts, os))
    as [t2 o2] eqn:Ert. rewrite ?Ert in Hr. simpl in Hr.
  destruct o2 as [|c|]; simpl fst.
  - exists (t0 ++ t1 ++ t2 ++ [EPthreadJoin 0; EPthreadJoin 1]),
      (Managed.exit_handlers CHIP pw).
    split; [rewrite <- !app_assoc; reflexivity|].
    split; [|right; exists CHIP; reflexivity].
    rewrite !forallb_app, H0, H1, Hr. reflexivity.
  - exists (t0 ++ t1 ++ t2), (Managed.exit_handlers CHIP pw).
    split; [rewrite <- !app_assoc; reflexivity|].
    split; [|right; exists CHIP; reflexivity].
    rewrite !forallb_app, H0, H1, Hr. reflexivity.
  - exists (t0 ++ t1 ++ t2), [].
    split; [rewrite app_nil_r; reflexivity|].
    split; [|left; reflexivity].
    rewrite !forallb_app, H0, H1, Hr. reflexivity.
Qed.

(** In [gpio2.c] the chip is closed by [main], once, when both threads have
    been joined, and on no other path. *)
Lemma Gpio2_main_closes pw :
  (snd (Gpio2.main pw) = Some 0 ->
   exists pre chip,
     fst (Gpio2.main pw) = pre ++ [EChipClose chip]
     /\ forallb not_close pre = true)
  /\ (snd (Gpio2.main pw) <> Some 0 ->
      forallb not_close (fst (Gpio2.main pw)) = true).
Proof.
  unfold Gpio2.main.
  pose proof (all_events_run _ _ (pw_main pw) no_close_Gpio2_main_open) as H0.
  destruct (Gpio2.main_open (pw_main pw)) as [t0 r0] eqn:E0.
  pose proof (disciplined_cases _ _ _ _ disciplined_Gpio2_main_open E0) as D0.
  destruct r0 as [chip w1|c|]; simpl in H0.
  2:{ destruct D0 as [-> _]. simpl. split; [discriminate | auto]. }
  2:{ simpl. split; [discriminate | auto]. }
  pose proof (all_events_run _ _ w1
                (no_close_Gpio2_main_create "issuer_thread"
                   "cannot create the thread for the issuer")) as H1.
  destruct (Gpio2.main_create "issuer_thread" _ w1) as [t1 r1] eqn:E1.
  pose proof (disciplined_cases _ _ _ _
                (disciplined_main_create _ _) E1) as D1.
  destruct r1 as [u w2|c|]; simpl in H1.
  2:{ destruct D1 as [-> _]. simpl.
      split; [discriminate|]. intros _. rewrite forallb_app, H0, H1.
      reflexivity. }
  2:{ simpl. split; [discriminate|]. intros _. rewrite forallb_app, H0, H1.
      reflexivity. }
  pose proof (all_events_run _ _ (pw_issuer pw)
                (no_close_Gpio2_issuer_thread (Gpio2.issuer_arg chip)
                   (pw_locals pw))) as Hi.
  pose proof (disciplined_sound _ (pw_issuer pw)
                (disciplined_Gpio2_issuer_thread (Gpio2.issuer_arg chip)
                   (pw_locals pw))) as Si.
  destruct (Gpio2.issuer_thread (Gpio2.issuer_arg chip) (pw_locals pw)
              (pw_issuer pw)) as [ti ri]. simpl in Hi, Si.
  pose proof (no_close_Gpio2_main_second chip pw w2) as Hs.
  pose proof (Gpio2_main_second_sound chip pw w2) as Ss.
  destruct (Gpio2.main_second chip pw w2) as [ts os]. simpl in Hs, Ss.
  pose proof (no_close_run_threads (pw_sched pw) ti (outcome_of ri) ts os
                Hi Hs) as Hr.
  destruct (run_threads_sound (pw_sched pw) _ _ _ _ Si Ss) as [(_ & _ & _ & Hc) _].
  destruct (run_threads (pw_sched pw) (ti, outcome_of ri) (ts, os))
    as [t2 o2] eqn:Ert. rewrite ?Ert in Hr. simpl in Hr, Hc.
  destruct o2 as [|c|]; simpl.
  - split; [|intros H; exfalso; apply H; reflexivity].
    intros _. exists (t0 ++ t1 ++ t2 ++ [EPthreadJoin 0; EPthreadJoin 1]), chip.
    split; [rewrite <- !app_assoc; reflexivity|].
    rewrite !forallb_app, H0, H1, Hr. reflexivity.
  - rewrite (Hc c eq_refl). split; [discriminate|]. intros _.
    rewrite !forallb_app, H0, H1, Hr. reflexivity.
  - split; [discriminate|]. intros _.
    rewrite !forallb_app, H0, H1, Hr. reflexivity.
Qed.

Lemma run_trace_bind {A B} (m : M A) (f : A -> M B) w :
  run_trace (bind m f) w =
  run_trace m w ++
  match run_result m w with
  | Ret a w' => run_trace (f a) w'
  | _ => []
  end.
Proof.
  unfold run_trace, run_result, bind.
  destruct (m w) as [t [a w'|c|]]; simpl; rewrite ?app_nil_r; auto.
  destruct (f a w'); reflexivity.
Qed.

Lemma run_result_bind {A B} (m : M A) (f : A -> M B) w :
  run_result (bind m f) w =
  match run_result m w with
  | Ret a w' => run_result (f a) w'
  | Exit c => Exit c
  | Hang => Hang
  end.
Proof.
  unfold run_result, bind.
  destruct (m w) as [t [a w'|c|]]; simpl; auto.
  destruct (f a w'); reflexivity.
Qed.

(** Invoking the handler [n] times in a row. *)
Lemma invoke_reset_gpio_closes CHIP n : forall k,
  wp (count_closes CHIP) (invoke n (Managed.reset_gpio CHIP))
    (fun r s => returned r /\ s = (k + n)%nat) k.
Proof.
  induction n as [|n IH]; intros k; simpl.
  - wp_go. split; [eexists; eexists; reflexivity | lia].
  - apply wp_bind. eapply wp_conseq; [apply reset_gpio_closes|].
    intros r s [(a & w' & ->) ->]. simpl. rewrite Z.eqb_refl.
    eapply wp_conseq; [apply IH|].
    intros r s [Hr ->]. split; [exact Hr | lia].
Qed.

Lemma reset_gpio_closes_le chip CHIP w :
  (closes_of chip (run_trace (Managed.reset_gpio CHIP) w) <= 1)%nat.
Proof.
  pose proof (reset_gpio_closes chip CHIP O w) as [_ H].
  rewrite after_count_closes in H. unfold run_trace.
  destruct (CHIP =? chip); simpl in H; lia.
Qed.

Lemma lease_terminate h l s :
  wp (lease_step h) (Managed.issuer_thread_terminate {| Managed.issuer := l |})
    (fun r s' => returned r /\ s' = if l =? 0 then s else lease_step h s (ERelease l))
    s.
Proof.
  wp_go; simpl in *.
  - destruct (l =? 0); [discriminate|].
    split; [eexists; eexists; reflexivity | reflexivity].
  - destruct (l =? 0); [|discriminate].
    split; [eexists; eexists; reflexivity | reflexivity].
Qed.

Lemma lease_fatal {A} h l s msg (Q : result A -> lease -> Prop) :
  (l =? 0) = false ->
  Q (Exit 1) (lease_step h s (ERelease l)) ->
  wp (lease_step h)
    (Managed.issuer_thread_terminate {| Managed.issuer := l |} ;;
     error msg)
    Q s.
Proof.
  intros Hl HQ. apply wp_bind.
  eapply wp_conseq; [apply lease_terminate|].
  intros r s' [(a & w & ->) ->]. rewrite Hl. simpl. wp_go.
  exact HQ.
Qed.

Lemma lease_Managed_issuer_loop h l n :
  (l =? 0) = false ->
  forall cycle f s,
    wp (lease_step h)
      (Managed.issuer_loop n cycle {| Managed.issuer := l |} f)
      (lease_loop_post h l s) s.
Proof.
  intros Hl.
  induction n as [|n IH]; intros cycle f s; simpl.
  - wp_go. reflexivity.
  - apply wp_bind. apply wp_emit. intros w. unfold wp_then.
    change (lease_step h s (EStdout _ _)) with s.
    apply wp_bind. unfold gpiod_line_set_value.
    apply wp_bind, wp_call. intros r w0. unfold wp_then.
    change (lease_step h s (ESetValue _ _ _)) with s.
    apply wp_pure. intros w1.
    apply wp_bind, wp_when.
    + intros _. apply lease_fatal; [exact Hl | reflexivity].
    + intros _ w2. unfold wp_then. apply wp_bind.
      eapply wp_conseq.
      * apply (wp_do_sleep (lease_step h) _ (lease_loop_post h l s) s).
        -- reflexivity.
        -- intros msg. apply lease_fatal; [exact Hl | reflexivity].
        -- intros f0 w3. reflexivity.
        -- exact I.
      * intros [f' w'|c|] s' Hs; simpl in *; subst; auto.
Qed.

(** X4: the issuer of the resource-struct program: on every path that
    ends, its line handle is neither leaked nor released twice. *)
Lemma Managed_issuer_thread_lease h CHIP args locals w :
  run_result (Managed.issuer_thread CHIP args locals) w <> Hang ->
  released_once h (run_trace (Managed.issuer_thread CHIP args locals) w) = true.
Proof.
  assert (wp (lease_step h) (Managed.issuer_thread CHIP args locals)
            (fun r s => match r with
                        | Hang => True
                        | _ => s = Unheld \/ s = GivenBack
                        end) Unheld) as H.
  { unfold Managed.issuer_thread.
    apply wp_bind. unfold gpiod_chip_get_line.
    apply wp_bind, wp_call. intros r w0. unfold wp_then.
    change (lease_step h Unheld (EGetLine _ _ _)) with Unheld.
    apply wp_pure. intros w1. set (l := r_val r).
    apply wp_bind, wp_when.
    { intros Hl. simpl in Hl. apply wp_bind.
      eapply wp_conseq; [apply lease_terminate|].
      intros r' s' [(a & w' & ->) ->]. fold l. rewrite Hl. simpl. wp_go.
      left. reflexivity. }
    intros Hl w2. simpl in Hl. unfold wp_then.
    apply wp_bind. unfold gpiod_line_request_output.
    apply wp_bind, wp_call. intros r2 w3. unfold wp_then.
    apply wp_pure. intros w4. simpl Managed.issuer.
    remember (lease_step h Unheld (EReqOutput l "issuer" 0 (r_val r2)))
      as s1 eqn:Es1.
    assert ((r_val r2 =? -1) = true -> s1 = Unheld) as Hfail.
    { intros E. rewrite Es1. unfold lease_step. simpl.
      rewrite E, andb_false_r. reflexivity. }
    assert (s1 = Unheld \/ (s1 = Holding /\ (l =? h) = true)) as Hs1.
    { rewrite Es1. unfold lease_step. simpl.
      destruct (l =? h); simpl; auto. destruct (negb _); auto. }
    clear Es1.
    apply wp_bind, wp_when.
    { intros E. rewrite (Hfail E). apply wp_bind.
      eapply wp_conseq; [apply lease_terminate|].
      intros r' s' [(a & w' & ->) ->]. rewrite Hl. simpl. wp_go.
      unfold lease_step. simpl. destruct (l =? h); auto. }
    intros _ w5. unfold wp_then. apply wp_bind.
    eapply wp_conseq; [apply (lease_Managed_issuer_loop h l _ Hl)|].
    assert (lease_step h s1 (ERelease l) = Unheld
            \/ lease_step h s1 (ERelease l) = GivenBack) as Hrel.
    { unfold lease_step. simpl.
      destruct Hs1 as [-> | [-> ->]]; [destruct (l =? h)|]; auto. }
    intros [f' w'|c|] s' Hs; simpl in Hs; subst; simpl; auto.
    apply wp_bind. eapply wp_conseq; [apply lease_terminate|].
    intros r' s' [(a & w'' & ->) ->]. rewrite Hl. simpl. wp_go. exact Hrel. }
  intros Hr. specialize (H w). unfold run_result, run_trace in *.
  unfold released_once, lease_of.
  destruct (snd (Managed.issuer_thread CHIP args locals w));
    try (destruct H as [-> | ->]; reflexivity).
  exfalso. apply Hr. reflexivity.
Qed.

Lemma after_lease_got h t : forall s got,
  after (lease_got_step h) (s, got) t
  = (after (lease_step h) s t, lines_got got t).
Proof.
  induction t as [|e t IH]; intros s got; [reflexivity|].
  rewrite !after_cons. unfold lease_got_step at 2. simpl fst. simpl snd.
  rewrite IH. destruct e; reflexivity.
Qed.

Lemma lease_receiver_terminate h l1 l2 s got :
  wp (lease_got_step h)
    (Managed.receiver_thread_terminate
       {| Managed.receiver := l1; Managed.controller := l2 |})
    (fun r s' => returned r /\ s' = (lease_after_terminate h l1 l2 s, got))
    (s, got).
Proof.
  unfold Managed.receiver_thread_terminate, lease_after_terminate.
  simpl Managed.receiver. simpl Managed.controller.
  destruct (l1 =? 0); destruct (l2 =? 0); simpl negb; unfold when; wp_go;
    (split; [eexists; eexists; reflexivity | reflexivity]).
Qed.

Lemma lease_receiver_fatal {A} h l1 l2 s got msg
    (Q : result A -> lease * list Z -> Prop) :
  Q (Exit 1) (lease_after_terminate h l1 l2 s, got) ->
  wp (lease_got_step h)
    (Managed.receiver_thread_terminate
       {| Managed.receiver := l1; Managed.controller := l2 |} ;;
     error msg)
    Q (s, got).
Proof.
  intros HQ. apply wp_bind.
  eapply wp_conseq; [apply lease_receiver_terminate|].
  intros r s' [(a & w & ->) ->]. simpl. wp_go. exact HQ.
Qed.

Lemma lease_Managed_receiver_loop h l1 l2 n :
  forall state s got,
    wp (lease_got_step h)
      (Managed.receiver_loop n
         {| Managed.receiver := l1; Managed.controller := l2 |} state)
      (fun r s' =>
         match r with
         | Ret _ _ => s' = (s, got)
         | Exit _ => s' = (lease_after_terminate h l1 l2 s, got)
         | Hang => True
         end)
      (s, got).
Proof.
  induction n as [|n IH]; intros state s got; simpl.
  - wp_go. reflexivity.
  - apply wp_bind. unfold gpiod_line_event_wait.
    apply wp_bind, wp_call. intros r w. unfold wp_then.
    change (lease_got_step h (s, got) (EEventWait _ _)) with (s, got).
    apply wp_pure. intros w0.
    apply wp_bind, wp_when;
      [intros _; apply lease_receiver_fatal; reflexivity|].
    intros _ w1. unfold wp_then.
    apply wp_bind. unfold gpiod_line_event_read.
    apply wp_bind, wp_call. intros r0 w2. unfold wp_then.
    change (lease_got_step h (s, got) (EEventRead _ _)) with (s, got).
    apply wp_pure. intros w3.
    apply wp_bind, wp_when;
      [intros _; apply lease_receiver_fatal; reflexivity|].
    intros _ w4. unfold wp_then.
    apply wp_bind, wp_emit. intros w5. unfold wp_then.
    change (lease_got_step h (s, got) (EStdout _ _)) with (s, got).
    apply wp_bind. unfold gpiod_line_set_value.
    apply wp_bind, wp_call. intros r1 w6. unfold wp_then.
    change (lease_got_step h (s, got) (ESetValue _ _ _)) with (s, got).
    apply wp_pure. intros w7.
    apply wp_bind, wp_when;
      [intros _; apply lease_receiver_fatal; reflexivity|].
    intros _ w8. unfold wp_then. apply IH.
Qed.

(** X5: the relay of the resource-struct program: when the driver hands out
    two different handles for its two lines, no non-null handle is leaked or
    released twice, on any path that ends. *)
Lemma Managed_receiver_thread_lease h CHIP args state0 w :
  h <> 0 ->
  NoDup (lines_got []
           (run_trace (Managed.receiver_thread CHIP args state0) w)) ->
  run_result (Managed.receiver_thread CHIP args state0) w <> Hang ->
  released_once h (run_trace (Managed.receiver_thread CHIP args state0) w)
  = true.
Proof.
  intros Hh0.
  assert (wp (lease_got_step h) (Managed.receiver_thread CHIP args state0)
            (fun r s => match r with
                        | Hang => True
                        | _ => NoDup (snd s) ->
                               fst s = Unheld \/ fst s = GivenBack
                        end)
            (Unheld, [])) as H.
  { unfold Managed.receiver_thread.
    apply wp_bind. unfold gpiod_chip_get_line.
    apply wp_bind, wp_call. intros r1 w0. unfold wp_then.
    apply wp_pure. intros w1. set (l1 := r_val r1).
    change (lease_got_step h (Unheld, []) (EGetLine _ _ _))
      with (Unheld, [l1]).
    simpl Managed.receiver. simpl Managed.controller.
    apply wp_bind, wp_when.
    { intros Hl. apply lease_receiver_fatal.
      unfold lease_after_terminate. simpl. rewrite Hl. auto. }
    intros Hl1 w2. unfold wp_then.
    apply wp_bind. apply wp_bind, wp_call. intros r2 w3. unfold wp_then.
    apply wp_pure. intros w4. set (l2 := r_val r2).
    change (lease_got_step h (Unheld, [l1]) (EGetLine _ _ _))
      with (Unheld, [l2; l1]).
    simpl Managed.receiver. simpl Managed.controller.
    apply wp_bind, wp_when.
    { intros Hl. rewrite Hl in Hl1. discriminate. }
    intros _ w5. unfold wp_then.
    apply wp_bind. unfold gpiod_line_request_output.
    apply wp_bind, wp_call. intros r3 w6. unfold wp_then.
    apply wp_pure. intros w7.
    change (lease_got_step h (Unheld, [l2; l1])
              (EReqOutput l2 "controller" 0 (r_val r3)))
      with (lease_step h Unheld (EReqOutput l2 "controller" 0 (r_val r3)),
            [l2; l1]).
    assert (forall s, NoDup [l2; l1] ->
              (s = Unheld \/ (s = Holding /\ (l2 =? h) = true)) ->
              lease_after_terminate h l1 l2 s = Unheld
              \/ lease_after_terminate h l1 l2 s = GivenBack) as Hterm1.
    { intros s Hnd Hs. inversion Hnd as [|? ? Hnin _]; subst.
      assert ((l1 =? l2) = false) as Hne.
      { apply Z.eqb_neq. intros E. apply Hnin. left. exact E. }
      unfold lease_after_terminate, lease_step. simpl. rewrite Hl1.
      destruct Hs as [-> | [-> Hh]].
      - destruct (l1 =? h); destruct (l2 =? 0); destruct (l2 =? h); auto.
      - apply Z.eqb_eq in Hh. subst h. rewrite Hne.
        apply Z.eqb_neq in Hh0. rewrite Hh0, Z.eqb_refl. auto. }
    remember (lease_step h Unheld (EReqOutput l2 "controller" 0 (r_val r3)))
      as s1 eqn:Es1.
    assert ((r_val r3 =? -1) = true -> s1 = Unheld) as Hfail1.
    { intros E. rewrite Es1. unfold lease_step. simpl.
      rewrite E, andb_false_r. reflexivity. }
    assert (s1 = Unheld \/ (s1 = Holding /\ (l2 =? h) = true)) as Hs1.
    { rewrite Es1. unfold lease_step. simpl.
      destruct (l2 =? h); simpl; auto. destruct (negb _); auto. }
    clear Es1.
    apply wp_bind, wp_when.
    { intros E. apply lease_receiver_fatal. simpl. intros Hnd.
      apply Hterm1; [exact Hnd | left; auto]. }
    intros _ w8. unfold wp_then.
    apply wp_bind. unfold gpiod_line_request_both_edges_events.
    apply wp_bind, wp_call. intros r4 w9. unfold wp_then.
    apply wp_pure. intros w10.
    change (lease_got_step h (s1, [l2; l1])
              (EReqBothEdges l1 "receiver" (r_val r4)))
      with (lease_step h s1 (EReqBothEdges l1 "receiver" (r_val r4)),
            [l2; l1]).
    remember (lease_step h s1 (EReqBothEdges l1 "receiver" (r_val r4)))
      as s2 eqn:Es2.
    assert (NoDup [l2; l1] ->
            lease_after_terminate h l1 l2 s2 = Unheld
            \/ lease_after_terminate h l1 l2 s2 = GivenBack) as Hterm2.
    { intros Hnd. inversion Hnd as [|? ? Hnin _]; subst.
      assert ((l1 =? l2) = false) as Hne.
      { apply Z.eqb_neq. intros E. apply Hnin. left. exact E. }
      assert ((l2 =? l1) = false) as Hne' by (rewrite Z.eqb_sym; exact Hne).
      unfold lease_after_terminate, lease_step. simpl. rewrite Hl1.
      destruct Hs1 as [-> | [-> Hh]].
      - destruct (l1 =? h) eqn:E1; simpl.
        + apply Z.eqb_eq in E1. subst h. rewrite Hne'.
          destruct (negb (r_val r4 =? -1)); destruct (l2 =? 0); auto.
        + destruct (l2 =? 0); destruct (l2 =? h); auto.
      - apply Z.eqb_eq in Hh. subst h. rewrite Hne. simpl.
        apply Z.eqb_neq in Hh0. rewrite Hh0, Z.eqb_refl. auto. }
    clear Es2.
    apply wp_bind, wp_when.
    { intros E. apply lease_receiver_fatal. simpl. exact Hterm2. }
    intros _ w11. unfold wp_then. apply wp_bind.
    eapply wp_conseq; [apply lease_Managed_receiver_loop|].
    intros [st w'|c|] s' Hs; simpl in Hs; subst; simpl; auto.
    apply wp_bind. eapply wp_conseq; [apply lease_receiver_terminate|].
    intros r' s' [(a & w'' & ->) ->]. simpl. wp_go. exact Hterm2. }
  intros Hnd Hr. specialize (H w). unfold run_result, run_trace in *.
  rewrite after_lease_got in H. unfold released_once, lease_of.
  destruct (snd (Managed.receiver_thread CHIP args state0 w)); simpl in H.
  - destruct (H Hnd) as [E | E]; rewrite E; reflexivity.
  - destruct (H Hnd) as [E | E]; rewrite E; reflexivity.
  - exfalso. apply Hr. reflexivity.
Qed.

Lemma reads_app t1 t2 : reads (t1 ++ t2) = (reads t1 + reads t2)%nat.
Proof.
  induction t1 as [|e t1 IH]; simpl; [reflexivity|].
  destruct e; simpl; try exact IH. destruct (rc =? -1); simpl; rewrite IH; auto.
Qed.

Lemma waits_app t1 t2 : waits (t1 ++ t2) = (waits t1 + waits t2)%nat.
Proof.
  induction t1 as [|e t1 IH]; simpl; [reflexivity|].
  destruct e; simpl; rewrite ?IH; reflexivity.
Qed.

Lemma Managed_receiver_loop_run n :
  forall res state w t state' w',
    Managed.receiver_loop n res state w = (t, Ret state' w') ->
    levels t = flips state n /\ reads t = n /\ waits t = n.
Proof.
  induction n as [|n IH]; intros res state w t state' w' H; simpl in H.
  - apply pure_inv in H as (_ & _ & ->). auto.
  - split_run H H1. apply call_val_inv in H1 as (-> & -> & ->).
    split_run H H1. guard_off H1.
    split_run H H1. apply call_val_inv in H1 as (-> & -> & ->).
    split_run H H1. apply when_inv in H1 as (Hrc & -> & ->); [|fatal].
    split_run H H1. apply emit_inv in H1 as (-> & ->).
    split_run H H1. apply call_val_inv in H1 as (-> & -> & ->).
    split_run H H1. guard_off H1.
    apply IH in H as (HL & HR & HW).
    simpl. rewrite Hrc, HL, HR, HW. auto.
Qed.

Lemma Gpio2_receiver_loop_run n :
  forall receiver controller state w t state' w',
    Gpio2.receiver_loop n receiver controller state w = (t, Ret state' w') ->
    levels t = flips state n /\ reads t = n /\ waits t = n.
Proof.
  induction n as [|n IH];
    intros receiver controller state w t state' w' H; simpl in H.
  - apply pure_inv in H as (_ & _ & ->). auto.
  - split_run H H1. apply call_val_inv in H1 as (-> & -> & ->).
    split_run H H1. guard_off H1.
    split_run H H1. apply call_val_inv in H1 as (-> & -> & ->).
    split_run H H1. apply when_inv in H1 as (Hrc & -> & ->); [|fatal].
    split_run H H1. apply emit_inv in H1 as (-> & ->).
    split_run H H1. apply call_val_inv in H1 as (-> & -> & ->).
    split_run H H1. guard_off H1.
    apply IH in H as (HL & HR & HW).
    simpl. rewrite Hrc, HL, HR, HW. auto.
Qed.

Lemma lnot_mod2 c : lnot (c mod 2) = (c + 1) mod 2.
Proof.
  pose proof (Z.mod_pos_bound c 2 ltac:(lia)) as Hb.
  rewrite <- (Zplus_mod_idemp_l c 1 2).
  assert (c mod 2 = 0 \/ c mod 2 = 1) as [-> | ->] by lia; reflexivity.
Qed.

Lemma flips_mod2 n : forall c, flips (c mod 2) n = levels_from (c + 1) n.
Proof.
  induction n as [|n IH]; intros c; [reflexivity|].
  simpl flips. rewrite levels_from_S, lnot_mod2, IH. reflexivity.
Qed.

(** When [state] starts at 0 the relay writes [1, 0, 1, 0, ...]. *)
Lemma flips_zero n : flips 0 n = relay_levels n.
Proof.
  change 0 with (0 mod 2). rewrite flips_mod2.
  unfold levels_from, relay_levels. apply map_ext. intros i. f_equal. lia.
Qed.

(** When [state] starts at anything else it writes [0, 1, 0, 1, ...]. *)
Lemma flips_nonzero state n : state <> 0 -> flips state n = alternation n.
Proof.
  intros Hs. destruct n as [|n]; [reflexivity|].
  simpl flips. unfold lnot. apply Z.eqb_neq in Hs. rewrite Hs.
  change 0 with (0 mod 2) at 2. rewrite flips_mod2.
  rewrite <- levels_from_0, levels_from_S. reflexivity.
Qed.

Lemma terminate_quiet_levels (m : M unit) w t u w' :
  m w = (t, Ret u w') ->
  (forall w0, forallb (fun e => match e with ERelease _ => true | _ => false end)
                (fst (m w0)) = true) ->
  levels t = [] /\ reads t = O /\ waits t = O.
Proof.
  intros H Hall. specialize (Hall w). rewrite H in Hall. simpl in Hall.
  clear H. induction t as [|e t IH]; simpl; auto.
  simpl in Hall. destruct e; try discriminate. simpl in Hall. auto.
Qed.

Lemma receiver_terminate_releases res w0 :
  forallb (fun e => match e with ERelease _ => true | _ => false end)
    (fst (Managed.receiver_thread_terminate res w0)) = true.
Proof.
  unfold Managed.receiver_thread_terminate, bind, when, gpiod_line_release,
    emit, pure.
  destruct (negb (Managed.receiver res =? 0));
    destruct (negb (Managed.controller res =? 0)); reflexivity.
Qed.

Lemma Managed_receiver_thread_run CHIP args state0 w t w' :
  Managed.receiver_thread CHIP args state0 w = (t, Ret tt w') ->
  levels t = flips state0 (Z.to_nat (Managed.r_count args))
  /\ reads t = Z.to_nat (Managed.r_count args)
  /\ waits t = Z.to_nat (Managed.r_count args).
Proof.
  unfold Managed.receiver_thread. intros H.
  split_run H H1. apply call_val_inv in H1 as (-> & -> & ->).
  split_run H H1. guard_off H1.
  split_run H H1. apply call_val_inv in H1 as (-> & -> & ->).
  split_run H H1. guard_off H1.
  split_run H H1. apply call_val_inv in H1 as (-> & -> & ->).
  split_run H H1. guard_off H1.
  split_run H H1. apply call_val_inv in H1 as (-> & -> & ->).
  split_run H H1. guard_off H1.
  split_run H H1. apply Managed_receiver_loop_run in H1 as (HL & HR & HW).
  split_run H H2.
  apply pure_inv in H as (_ & _ & ->).
  destruct (terminate_quiet_levels _ _ _ _ _ H2
              (receiver_terminate_releases _)) as (TL & TR & TW).
  simpl. rewrite !levels_app, !reads_app, !waits_app, HL, HR, HW, TL, TR, TW.
  simpl. rewrite !app_nil_r, !Nat.add_0_r. auto.
Qed.

Lemma Gpio2_receiver_thread_run args state0 w t w' :
  Gpio2.receiver_thread args state0 w = (t, Ret tt w') ->
  levels t = flips state0 (Z.to_nat (Gpio2.r_count args)) ++ [0]
  /\ reads t = Z.to_nat (Gpio2.r_count args)
  /\ waits t = Z.to_nat (Gpio2.r_count args).
Proof.
  unfold Gpio2.receiver_thread. intros H.
  split_run H H1. apply call_val_inv in H1 as (-> & -> & ->).
  split_run H H1. guard_off H1.
  split_run H H1. apply call_val_inv in H1 as (-> & -> & ->).
  split_run H H1. guard_off H1.
  split_run H H1. apply call_val_inv in H1 as (-> & -> & ->).
  split_run H H1. guard_off H1.
  split_run H H1. apply call_val_inv in H1 as (-> & -> & ->).
  split_run H H1. guard_off H1.
  split_run H H1. apply Gpio2_receiver_loop_run in H1 as (HL & HR & HW).
  split_run H H2. apply call_val_inv in H2 as (-> & -> & ->).
  split_run H H2. guard_off H2.
  split_run H H2. apply emit_inv in H2 as (-> & ->).
  split_run H H2. apply emit_inv in H2 as (-> & ->).
  split_run H H2. apply call_val_inv in H2 as (-> & -> & ->).
  split_run H H2. guard_off H2.
  split_run H H2. apply call_val_inv in H2 as (-> & -> & ->).
  split_run H H2. guard_off H2.
  split_run H H2. apply emit_inv in H2 as (-> & ->).
  apply pure_inv in H as (_ & _ & ->).
  simpl. rewrite !levels_app, !reads_app, !waits_app, HL, HR, HW.
  simpl. rewrite !Nat.add_0_r. auto.
Qed.

Lemma after_level_nanosleep t : forall s,
  forallb is_nanosleep t = true -> after level_step s t = s.
Proof.
  induction t as [|e t IH]; intros s H; [reflexivity|].
  simpl in H. apply andb_prop in H as [He H].
  rewrite after_cons, (IH _ H).
  destruct e; try discriminate. unfold level_step. destruct (snd s); reflexivity.
Qed.

Lemma last_cons {A} (a : A) l d : last (a :: l) d = last l a.
Proof.
  revert a d. induction l as [|b l IH]; intros a d; [reflexivity|].
  change (last (a :: b :: l) d) with (last (b :: l) d).
  rewrite (IH b d), (IH b a). reflexivity.
Qed.

Lemma Managed_issuer_loop_level n :
  forall cycle res f w t f' w' cur,
    Managed.issuer_loop n cycle res f w = (t, Ret f' w') ->
    after level_step (cur, None) t = (last (levels_from cycle n) cur, None).
Proof.
  induction n as [|n IH]; intros cycle res f w t f' w' cur H; simpl in H.
  - apply pure_inv in H as (_ & _ & ->). reflexivity.
  - split_run H H1. apply emit_inv in H1 as (-> & ->).
    split_run H H1. apply call_val_inv in H1 as (-> & -> & ->).
    split_run H H1. guard_off H1.
    split_run H H1. unfold do_sleep in H1. apply sleep_loop_ret in H1.
    apply (IH _ _ _ _ _ _ _ (odd_bit cycle)) in H.
    simpl app. rewrite !after_cons, after_app.
    change (level_step (level_step (cur, None) (EStdout _ _)) (ESetValue _ _ _))
      with (odd_bit cycle, @None Z).
    rewrite (after_level_nanosleep _ _ H1), H.
    rewrite levels_from_S, last_cons, odd_bit_mod2. reflexivity.
Qed.

Lemma Gpio2_issuer_loop_level n :
  forall cycle line f w t f' w' cur,
    Gpio2.issuer_loop n cycle line f w = (t, Ret f' w') ->
    after level_step (cur, None) t = (last (levels_from cycle n) cur, None).
Proof.
  induction n as [|n IH]; intros cycle line f w t f' w' cur H; simpl in H.
  - apply pure_inv in H as (_ & _ & ->). reflexivity.
  - split_run H H1. apply emit_inv in H1 as (-> & ->).
    split_run H H1. apply call_val_inv in H1 as (-> & -> & ->).
    split_run H H1. guard_off H1.
    split_run H H1. unfold do_sleep in H1. apply sleep_loop_ret in H1.
    apply (IH _ _ _ _ _ _ _ (odd_bit cycle)) in H.
    simpl app. rewrite !after_cons, after_app.
    change (level_step (level_step (cur, None) (EStdout _ _)) (ESetValue _ _ _))
      with (odd_bit cycle, @None Z).
    rewrite (after_level_nanosleep _ _ H1), H.
    rewrite levels_from_S, last_cons, odd_bit_mod2. reflexivity.
Qed.

Lemma Managed_issuer_thread_level CHIP args locals w t w' :
  Managed.issuer_thread CHIP args locals w = (t, Ret tt w') ->
  level_at_release t
  = Some (last (alternation (Z.to_nat (Managed.count args))) 0).
Proof.
  unfold Managed.issuer_thread. intros H.
  split_run H H1. apply call_val_inv in H1 as (-> & -> & ->).
  split_run H H1. apply when_inv in H1 as (Hl & -> & ->); [|fatal].
  split_run H H1. apply call_val_inv in H1 as (-> & -> & ->).
  split_run H H1. guard_off H1.
  split_run H H1.
  apply (Managed_issuer_loop_level _ _ _ _ _ _ _ _ 0) in H1.
  split_run H H2.
  apply pure_inv in H as (_ & _ & ->).
  unfold Managed.issuer_thread_terminate in H2. simpl in Hl, H2.
  rewrite Hl in H2. simpl in H2. apply emit_inv in H2 as (_ & ->).
  unfold level_at_release. simpl app.
  rewrite !after_cons, !after_app.
  change (level_step (level_step (0, None) (EGetLine _ _ _)) (EReqOutput _ _ _ _))
    with (0, @None Z).
  rewrite H1. simpl. rewrite levels_from_0. reflexivity.
Qed.

Lemma Gpio2_issuer_thread_level args locals w t w' :
  Gpio2.issuer_thread args locals w = (t, Ret tt w') ->
  level_at_release t = Some 0.
Proof.
  unfold Gpio2.issuer_thread. intros H.
  split_run H H1. apply call_val_inv in H1 as (-> & -> & ->).
  split_run H H1. guard_off H1.
  split_run H H1. apply call_val_inv in H1 as (-> & -> & ->).
  split_run H H1. guard_off H1.
  split_run H H1.
  apply (Gpio2_issuer_loop_level _ _ _ _ _ _ _ _ 0) in H1.
  split_run H H2. apply call_val_inv in H2 as (-> & -> & ->).
  split_run H H2. guard_off H2.
  split_run H H2. apply emit_inv in H2 as (-> & ->).
  split_run H H2. apply call_val_inv in H2 as (-> & -> & ->).
  split_run H H2. guard_off H2.
  split_run H H2. apply call_val_inv in H2 as (-> & -> & ->).
  split_run H H2. guard_off H2.
  split_run H H2. apply emit_inv in H2 as (-> & ->).
  apply pure_inv in H as (_ & _ & ->).
  unfold level_at_release. simpl app.
  rewrite !after_cons, !after_app.
  change (level_step (level_step (0, None) (EGetLine _ _ _)) (EReqOutput _ _ _ _))
    with (0, @None Z).
  rewrite H1. reflexivity.
Qed.

Lemma returns_run {A} (m : M A) w :
  returns m w -> exists a w', m w = (run_trace m w, Ret a w').
Proof.
  intros (a & w' & H). exists a, w'. unfold run_trace, run_result in *.
  destruct (m w). simpl in *. subst. reflexivity.
Qed.

(** ** The issuer when no call fails *)

Lemma reply_at_0 w : reply_at 0 w = fst (next w).
Proof. unfold reply_at, next. destruct (script w); reflexivity. Qed.

Lemma reply_at_S k w : reply_at (S k) w = reply_at k (snd (next w)).
Proof.
  unfold reply_at, next. destruct (script w); simpl; [|reflexivity].
  destruct k; reflexivity.
Qed.

Lemma calm_next w :
  calm w = true ->
  (r_val (fst (next w)) =? -1) = false /\ calm (snd (next w)) = true.
Proof.
  unfold calm, next. intros H. apply andb_prop in H as [Hs Hd].
  destruct (script w) as [|r s]; simpl in *.
  - split; [apply negb_true_iff; exact Hd | exact Hd].
  - apply andb_prop in Hs as [Hr Hs]. split; [apply negb_true_iff; exact Hr|].
    rewrite Hs, Hd. reflexivity.
Qed.

(** The world [k] calls later. *)
Lemma calm_script_length w :
  List.length (script (snd (next w))) = pred (List.length (script w)).
Proof. unfold next. destruct (script w); reflexivity. Qed.

Lemma call_val_run (ev : reply -> event) w :
  (r <- call ev ;; pure (r_val r)) w
  = ([ev (fst (next w))], Ret (r_val (fst (next w))) (snd (next w))).
Proof. unfold bind, call, pure. destruct (next w). reflexivity. Qed.

Lemma bind_run {A B} (m : M A) (f : A -> M B) w t1 a w1 :
  m w = (t1, Ret a w1) ->
  bind m f w = (t1 ++ fst (f a w1), snd (f a w1)).
Proof. unfold bind. intros ->. destruct (f a w1). reflexivity. Qed.

(** A sleep that nothing disturbs is one call. *)
Lemma do_sleep_calm cleanup f w :
  calm w = true ->
  do_sleep cleanup f w
  = ([ENanosleep (duration f) (fst (next w))], Ret f (snd (next w))).
Proof.
  intros H. apply calm_next in H as [Hv _].
  unfold do_sleep. simpl. unfold bind at 1. unfold nanosleep, bind at 1, call.
  destruct (next w) as [rp w1]. simpl in *. rewrite Hv. simpl.
  rewrite Hv. reflexivity.
Qed.

Lemma Gpio2_issuer_loop_calm n :
  forall cycle line f w,
    calm w = true ->
    exists t w',
      Gpio2.issuer_loop n cycle line f w = (t, Ret f w')
      /\ calm w' = true
      /\ forall k, reply_at k w' = reply_at (2 * n + k) w.
Proof.
  induction n as [|n IH]; intros cycle line f w Hw; simpl Gpio2.issuer_loop.
  - exists [], w. repeat split; auto.
  - destruct (calm_next _ Hw) as [Hv1 Hw1].
    destruct (calm_next _ Hw1) as [Hv2 Hw2].
    destruct (IH (cycle + 1) line f _ Hw2) as (t & w' & Hrun & Hc & Hat).
    eexists. exists w'. split; [|split; [exact Hc|]].
    + unfold printf. erewrite bind_run by reflexivity.
      unfold gpiod_line_set_value.
      erewrite bind_run by apply call_val_run.
      rewrite Hv1. simpl when. erewrite bind_run by reflexivity.
      erewrite bind_run by (apply do_sleep_calm; exact Hw1).
      rewrite Hrun. simpl. reflexivity.
    + intros k. rewrite Hat.
      replace (2 * S n + k)%nat with (S (S (2 * n + k))) by lia.
      rewrite !reply_at_S. reflexivity.
Qed.

Lemma Managed_issuer_loop_calm n :
  forall cycle res f w,
    calm w = true ->
    exists t w',
      Managed.issuer_loop n cycle res f w = (t, Ret f w')
      /\ calm w' = true
      /\ forall k, reply_at k w' = reply_at (2 * n + k) w.
Proof.
  induction n as [|n IH]; intros cycle res f w Hw; simpl Managed.issuer_loop.
  - exists [], w. repeat split; auto.
  - destruct (calm_next _ Hw) as [Hv1 Hw1].
    destruct (calm_next _ Hw1) as [Hv2 Hw2].
    destruct (IH (cycle + 1) res f _ Hw2) as (t & w' & Hrun & Hc & Hat).
    eexists. exists w'. split; [|split; [exact Hc|]].
    + unfold printf. erewrite bind_run by reflexivity.
      unfold gpiod_line_set_value.
      erewrite bind_run by apply call_val_run.
      rewrite Hv1. simpl when. erewrite bind_run by reflexivity.
      erewrite bind_run by (apply do_sleep_calm; exact Hw1).
      rewrite Hrun. simpl. reflexivity.
    + intros k. rewrite Hat.
      replace (2 * S n + k)%nat with (S (S (2 * n + k))) by lia.
      rewrite !reply_at_S. reflexivity.
Qed.

Lemma Gpio2_issuer_thread_calm args locals w :
  calm w = true ->
  r_val (reply_at 0 w) <> 0 ->
  r_val (reply_at (3 + 2 * Z.to_nat (Gpio2.count args)) w) <> 0 ->
  returns (Gpio2.issuer_thread args locals) w.
Proof.
  intros Hw H0 H3. rewrite reply_at_0 in H0. apply Z.eqb_neq in H0.
  destruct (calm_next _ Hw) as [_ Hw1].
  destruct (calm_next _ Hw1) as [Hv1 Hw2].
  destruct (Gpio2_issuer_loop_calm (Z.to_nat (Gpio2.count args)) 0
              (r_val (fst (next w)))
              (store locals p_duration
                 {| tv_sec := Gpio2.duration_sec args;
                    tv_nsec := Gpio2.duration_nano_sec args |})
              _ Hw2) as (t & w3 & Hrun & Hw3 & Hat).
  destruct (calm_next _ Hw3) as [Hv3 Hw4].
  destruct (calm_next _ Hw4) as [_ Hw5].
  destruct (calm_next _ Hw5) as [Hv5 _].
  assert ((r_val (fst (next (snd (next w3)))) =? 0) = false) as H4.
  { apply Z.eqb_neq. rewrite <- reply_at_0, <- reply_at_S, Hat.
    rewrite <- !reply_at_S.
    replace (S (S (2 * Z.to_nat (Gpio2.count args) + 1)))
      with (3 + 2 * Z.to_nat (Gpio2.count args))%nat by lia.
    exact H3. }
  unfold returns, run_result, Gpio2.issuer_thread.
  unfold gpiod_chip_get_line, gpiod_line_request_output,
    gpiod_line_set_value, gpiod_line_request_input, gpiod_line_release.
  erewrite bind_run by apply call_val_run. rewrite H0. simpl when.
  erewrite bind_run by reflexivity.
  erewrite bind_run by apply call_val_run. rewrite Hv1. simpl when.
  erewrite bind_run by reflexivity.
  erewrite bind_run by exact Hrun.
  erewrite bind_run by apply call_val_run. rewrite Hv3. simpl when.
  erewrite bind_run by reflexivity.
  erewrite bind_run by reflexivity.
  erewrite bind_run by apply call_val_run. rewrite H4. simpl when.
  erewrite bind_run by reflexivity.
  erewrite bind_run by apply call_val_run. rewrite Hv5. simpl when.
  erewrite bind_run by reflexivity.
  erewrite bind_run by reflexivity.
  simpl. eexists. eexists. reflexivity.
Qed.

Lemma Managed_issuer_thread_calm CHIP args locals w :
  calm w = true ->
  r_val (reply_at 0 w) <> 0 ->
  returns (Managed.issuer_thread CHIP args locals) w.
Proof.
  intros Hw H0. rewrite reply_at_0 in H0. apply Z.eqb_neq in H0.
  destruct (calm_next _ Hw) as [_ Hw1].
  destruct (calm_next _ Hw1) as [Hv1 Hw2].
  destruct (Managed_issuer_loop_calm (Z.to_nat (Managed.count args)) 0
              {| Managed.issuer := r_val (fst (next w)) |}
              (store locals p_duration
                 {| tv_sec := Managed.duration_sec args;
                    tv_nsec := Managed.duration_nano_sec args |})
              _ Hw2) as (t & w3 & Hrun & Hw3 & Hat).
  unfold returns, run_result, Managed.issuer_thread.
  unfold gpiod_chip_get_line, gpiod_line_request_output.
  erewrite bind_run by apply call_val_run. simpl Managed.issuer.
  rewrite H0. simpl when.
  erewrite bind_run by reflexivity.
  erewrite bind_run by apply call_val_run. rewrite Hv1. simpl when.
  erewrite bind_run by reflexivity.
  erewrite bind_run by exact Hrun.
  unfold Managed.issuer_thread_terminate. simpl Managed.issuer.
  rewrite H0. simpl. eexists. eexists. reflexivity.
Qed.

(** C2: a Toggler with repetition count N whose calls all succeed runs its
    loop to the end, and the levels written during the loop are
    L_0, ..., L_{N-1} with L_i = i mod 2; the same levels are written on
    every run that reaches the end of the loop, whatever interruptions of the
    sleep occurred; they are all the levels the task writes (in [gpio2.c]
    followed by the one write made after the loop); for N = 5 the sequence
    is 0, 1, 0, 1, 0. *)
Theorem issuer_alternation :
  (forall N line f w,
     returns (Gpio2.issuer_loop (Z.to_nat N) 0 line f) w ->
     levels (run_trace (Gpio2.issuer_loop (Z.to_nat N) 0 line f) w)
     = alternation (Z.to_nat N))
  /\ (forall N resource f w,
        returns (Managed.issuer_loop (Z.to_nat N) 0 resource f) w ->
        levels (run_trace (Managed.issuer_loop (Z.to_nat N) 0 resource f) w)
        = alternation (Z.to_nat N))
  /\ (forall args locals w,
        returns (Gpio2.issuer_thread args locals) w ->
        levels (run_trace (Gpio2.issuer_thread args locals) w)
        = alternation (Z.to_nat (Gpio2.count args)) ++ [0])
  /\ (forall CHIP args locals w,
        returns (Managed.issuer_thread CHIP args locals) w ->
        levels (run_trace (Managed.issuer_thread CHIP args locals) w)
        = alternation (Z.to_nat (Managed.count args)))
  /\ (forall N line f w,
        calm w = true ->
        returns (Gpio2.issuer_loop (Z.to_nat N) 0 line f) w
        /\ levels (run_trace (Gpio2.issuer_loop (Z.to_nat N) 0 line f) w)
           = alternation (Z.to_nat N))
  /\ (forall N resource f w,
        calm w = true ->
        returns (Managed.issuer_loop (Z.to_nat N) 0 resource f) w
        /\ levels
             (run_trace (Managed.issuer_loop (Z.to_nat N) 0 resource f) w)
           = alternation (Z.to_nat N))
  /\ (forall args locals w,
        calm w = true ->
        r_val (reply_at 0 w) <> 0 ->
        r_val (reply_at (3 + 2 * Z.to_nat (Gpio2.count args)) w) <> 0 ->
        returns (Gpio2.issuer_thread args locals) w
        /\ levels (run_trace (Gpio2.issuer_thread args locals) w)
           = alternation (Z.to_nat (Gpio2.count args)) ++ [0])
  /\ (forall CHIP args locals w,
        calm w = true ->
        r_val (reply_at 0 w) <> 0 ->
        returns (Managed.issuer_thread CHIP args locals) w
        /\ levels (run_trace (Managed.issuer_thread CHIP args locals) w)
           = alternation (Z.to_nat (Managed.count args)))
  /\ alternation 5 = [0; 1; 0; 1; 0].
Proof.
  assert (forall N line f w,
            returns (Gpio2.issuer_loop (Z.to_nat N) 0 line f) w ->
            levels (run_trace (Gpio2.issuer_loop (Z.to_nat N) 0 line f) w)
            = alternation (Z.to_nat N)) as P1.
  { intros N line f w H. apply returns_run in H as (f' & w' & H).
    rewrite <- levels_from_0. eapply Gpio2_issuer_loop_levels. exact H. }
  assert (forall N resource f w,
            returns (Managed.issuer_loop (Z.to_nat N) 0 resource f) w ->
            levels
              (run_trace (Managed.issuer_loop (Z.to_nat N) 0 resource f) w)
            = alternation (Z.to_nat N)) as P2.
  { intros N resource f w H. apply returns_run in H as (f' & w' & H).
    rewrite <- levels_from_0. eapply Managed_issuer_loop_levels. exact H. }
  assert (forall args locals w,
            returns (Gpio2.issuer_thread args locals) w ->
            levels (run_trace (Gpio2.issuer_thread args locals) w)
            = alternation (Z.to_nat (Gpio2.count args)) ++ [0]) as P3.
  { intros args locals w H. apply returns_run in H as ([] & w' & H).
    eapply Gpio2_issuer_thread_levels. exact H. }
  assert (forall CHIP args locals w,
            returns (Managed.issuer_thread CHIP args locals) w ->
            levels (run_trace (Managed.issuer_thread CHIP args locals) w)
            = alternation (Z.to_nat (Managed.count args))) as P4.
  { intros CHIP args locals w H. apply returns_run in H as ([] & w' & H).
    eapply Managed_issuer_thread_levels. exact H. }
  split; [exact P1|]. split; [exact P2|]. split; [exact P3|].
  split; [exact P4|].
  split; [|split; [|split; [|split]]].
  - intros N line f w Hw.
    assert (returns (Gpio2.issuer_loop (Z.to_nat N) 0 line f) w) as Hr.
    { destruct (Gpio2_issuer_loop_calm (Z.to_nat N) 0 line f w Hw)
        as (t & w' & Hrun & _).
      exists f, w'. unfold run_result. rewrite Hrun. reflexivity. }
    split; [exact Hr | apply P1; exact Hr].
  - intros N resource f w Hw.
    assert (returns (Managed.issuer_loop (Z.to_nat N) 0 resource f) w) as Hr.
    { destruct (Managed_issuer_loop_calm (Z.to_nat N) 0 resource f w Hw)
        as (t & w' & Hrun & _).
      exists f, w'. unfold run_result. rewrite Hrun. reflexivity. }
    split; [exact Hr | apply P2; exact Hr].
  - intros args locals w Hw H0 H3.
    pose proof (Gpio2_issuer_thread_calm args locals w Hw H0 H3) as Hr.
    split; [exact Hr | apply P3; exact Hr].
  - intros CHIP args locals w Hw H0.
    pose proof (Managed_issuer_thread_calm CHIP args locals w Hw H0) as Hr.
    split; [exact Hr | apply P4; exact Hr].
  - reflexivity.
Qed.

Lemma issuer_alternation_witness :
  (returns (Gpio2.issuer_thread five_cycles sample_locals) five_cycles_world
   /\ levels (run_trace (Gpio2.issuer_thread five_cycles sample_locals)
                five_cycles_world)
      = [0; 1; 0; 1; 0; 0])
  /\ (returns (Managed.issuer_thread 100 Managed.issuer_arg sample_locals)
        (world_of [gives 1000])
      /\ levels (run_trace
                   (Managed.issuer_thread 100 Managed.issuer_arg
                      sample_locals)
                   (world_of [gives 1000]))
         = [0; 1; 0; 1; 0]).
Proof.
  split.
  - apply (proj1 (proj2 (proj2 (proj2 (proj2 (proj2 (proj2
             issuer_alternation))))))
             five_cycles sample_locals five_cycles_world).
    + reflexivity.
    + vm_compute. discriminate.
    + vm_compute. discriminate.
  - apply (proj1 (proj2 (proj2 (proj2 (proj2 (proj2 (proj2 (proj2
             issuer_alternation)))))))
             100 Managed.issuer_arg sample_locals (world_of [gives 1000])).
    + reflexivity.
    + vm_compute. discriminate.
Defined.

(** C5: when the sleep of the Toggler is interrupted, after any elapsed
    times [es] and any number of times in a row, the task calls [nanosleep]
    again with just what was left of the previous request, no error is
    reported, only [nanosleep] is called, and when the loop is left the time
    slept adds up to the configured duration. *)
Theorem sleep_resumes_after_interruption :
  forall cleanup f (es : list Z) rp rest dw e,
    r_val rp <> -1 ->
    exists t f',
      do_sleep cleanup f
        {| script := map interrupted es ++ rp :: rest; dflt := dw;
           errno := e |}
      = (t, Ret f' {| script := rest; dflt := dw; errno := r_errno rp |})
      /\ forallb is_nanosleep t = true
      /\ requests t = chain (duration f) es
      /\ slept t = ts_to_ns (duration f).
Proof.
  intros cleanup f es rp rest dw e Hrp. unfold do_sleep.
  apply (sleep_loop_interrupted es _ cleanup f p_duration p_remaining
           rp rest dw e Hrp).
  simpl. rewrite length_app, length_map. simpl. lia.
Qed.

Lemma sleep_resumes_after_interruption_witness :
  exists t f',
    do_sleep (pure tt)
      {| duration := {| tv_sec := 1; tv_nsec := 0 |};
         remaining := ts_of_ns 0; remaining_again := ts_of_ns 0 |}
      (world_of [interrupted 300; interrupted 200; interrupted 100; ok])
    = (t, Ret f' (world_of []))
    /\ forallb is_nanosleep t = true
    /\ requests t
       = [ {| tv_sec := 1; tv_nsec := 0 |};
           {| tv_sec := 0; tv_nsec := 999999700 |};
           {| tv_sec := 0; tv_nsec := 999999500 |};
           {| tv_sec := 0; tv_nsec := 999999400 |} ]
    /\ slept t = 1000000000.
Proof.
  apply (sleep_resumes_after_interruption (pure tt)
           {| duration := {| tv_sec := 1; tv_nsec := 0 |};
              remaining := ts_of_ns 0; remaining_again := ts_of_ns 0 |}
           [300; 200; 100] ok [] ok (EOTHER 0)).
  simpl. lia.
Defined.

(** C1 (the code breaks it): in [gpio2.c] the issuer that fails to write a
    level in its loop calls [error] without releasing the line it acquired:
    handle 1000 is acquired, never released, and the process exits with
    status 1 without any release of it. *)
Theorem gpio2_issuer_leaks_line_on_write_error :
  run_trace (Gpio2.issuer_thread (Gpio2.issuer_arg 100) sample_locals)
    (pw_issuer issuer_write_fails)
  = [ EGetLine 100 16 1000;
      EReqOutput 1000 "issuer" 0 0;
      EStdout "I [%4ld] Set %s\n" [PInt 0; PStr "down"];
      ESetValue 1000 0 (-1);
      EStderr "ERROR: %s\n"
        [PStr "issuer: cannot change the value of the output"];
      EExit 1 ]
  /\ run_result (Gpio2.issuer_thread (Gpio2.issuer_arg 100) sample_locals)
       (pw_issuer issuer_write_fails)
     = Exit 1
  /\ lease_of 1000
       (run_trace (Gpio2.issuer_thread (Gpio2.issuer_arg 100) sample_locals)
          (pw_issuer issuer_write_fails))
     = Holding
  /\ snd (Gpio2.main issuer_write_fails) = Some 1
  /\ releases_of 1000 (fst (Gpio2.main issuer_write_fails)) = O
  /\ released_once 1000 (fst (Gpio2.main issuer_write_fails)) = false.
Proof. vm_compute. repeat split; reflexivity. Qed.

(** C3 (the code breaks it): the local [state] of the relay is never
    initialised; when it holds 1 on entry, a relay with count 2 whose calls
    all succeed writes 0 then 1 (in [gpio2.c] followed by the write made
    after the loop), not 1 then 0. *)
Theorem relay_first_flip_depends_on_garbage :
  run_trace
    (Managed.receiver_thread 100
       {| Managed.r_count := 2; Managed.receiver_line_id := 21;
          Managed.controller_line_id := 17 |} 1)
    (world_of (relay_replies 2))
  = [ EGetLine 100 21 2000;
      EGetLine 100 17 3000;
      EReqOutput 3000 "controller" 0 0;
      EReqBothEdges 2000 "receiver" 0;
      EEventWait 2000 1; EEventRead 2000 0; EStdout "Get an event!\n" [];
      ESetValue 3000 0 0;
      EEventWait 2000 1; EEventRead 2000 0; EStdout "Get an event!\n" [];
      ESetValue 3000 1 0;
      ERelease 2000;
      ERelease 3000 ]
  /\ levels (run_trace
               (Managed.receiver_thread 100
                  {| Managed.r_count := 2; Managed.receiver_line_id := 21;
                     Managed.controller_line_id := 17 |} 1)
               (world_of (relay_replies 2)))
     = [0; 1]
  /\ returns
       (Managed.receiver_thread 100
          {| Managed.r_count := 2; Managed.receiver_line_id := 21;
             Managed.controller_line_id := 17 |} 1)
       (world_of (relay_replies 2))
  /\ levels (run_trace
               (Gpio2.receiver_thread
                  {| Gpio2.r_count := 2; Gpio2.receiver_line_id := 21;
                     Gpio2.controller_line_id := 17;
                     Gpio2.receiver_name := "receiver";
                     Gpio2.controller_name := "controller";
                     Gpio2.r_chip := 100 |} 1)
               (world_of (relay_replies 2)))
     = [0; 1; 0]
  /\ returns
       (Gpio2.receiver_thread
          {| Gpio2.r_count := 2; Gpio2.receiver_line_id := 21;
             Gpio2.controller_line_id := 17;
             Gpio2.receiver_name := "receiver";
             Gpio2.controller_name := "controller";
             Gpio2.r_chip := 100 |} 1)
       (world_of (relay_replies 2))
  /\ relay_levels 2 = [1; 0].
Proof.
  vm_compute. repeat split; try reflexivity;
    eexists; eexists; reflexivity.
Qed.

(** X9: what holds of the relay of the resource-struct program on every run
    that reaches its end: one event is read per wait, [N] in all; and when
    the uninitialised [state] holds 0 or 1 on entry, the levels written are
    its [N] flips: 1, 0, 1, ... from 0 and 0, 1, 0, ... from 1. *)
Lemma relay_run CHIP args state0 w :
  returns (Managed.receiver_thread CHIP args state0) w ->
  let t := run_trace (Managed.receiver_thread CHIP args state0) w in
  let n := Z.to_nat (Managed.r_count args) in
  reads t = n /\ waits t = n
  /\ (state0 = 0 -> levels t = relay_levels n)
  /\ (state0 = 1 -> levels t = alternation n).
Proof.
  intros H. apply returns_run in H as ([] & w' & H).
  apply Managed_receiver_thread_run in H as (HL & HR & HW).
  simpl. repeat split; auto.
  - intros ->. rewrite HL. apply flips_zero.
  - intros ->. rewrite HL. apply flips_nonzero. discriminate.
Qed.

(** X10: the same for the relay of [gpio2.c]: [N] waits and [N] events
    read on every run that reaches its end; and when the uninitialised
    [state] holds 0 or 1 on entry, the levels written are its [N] flips
    followed by the level 0 written after the loop. *)
Lemma gpio2_relay_run args state0 w :
  returns (Gpio2.receiver_thread args state0) w ->
  let t := run_trace (Gpio2.receiver_thread args state0) w in
  let n := Z.to_nat (Gpio2.r_count args) in
  reads t = n /\ waits t = n
  /\ (state0 = 0 -> levels t = relay_levels n ++ [0])
  /\ (state0 = 1 -> levels t = alternation n ++ [0]).
Proof.
  intros H. apply returns_run in H as ([] & w' & H).
  apply Gpio2_receiver_thread_run in H as (HL & HR & HW).
  simpl. repeat split; auto.
  - intros ->. rewrite HL, flips_zero. reflexivity.
  - intros ->. rewrite HL, flips_nonzero by discriminate. reflexivity.
Qed.

Ltac unfold_calls :=
  unfold bind, gpiod_chip_get_line, gpiod_line_request_output,
    gpiod_line_request_input, gpiod_line_request_both_edges_events,
    gpiod_line_set_value, gpiod_line_event_wait, gpiod_line_event_read,
    call, next, pure, when, error, printf, fprintf_stderr,
    gpiod_line_release, get_errno, emit, exit, bind.

(** The whole run of the relay when the request for edge events fails. *)
Lemma Managed_receiver_edge_request_fails CHIP args state0 r1 r2 r3 r4 rest d e :
  r_val r1 <> 0 -> r_val r3 <> -1 -> r_val r4 = -1 ->
  Managed.receiver_thread CHIP args state0
    {| script := r1 :: r2 :: r3 :: r4 :: rest; dflt := d; errno := e |}
  = ([ EGetLine CHIP (Managed.receiver_line_id args) (r_val r1);
       EGetLine CHIP (Managed.controller_line_id args) (r_val r2);
       EReqOutput (r_val r2) "controller" 0 (r_val r3);
       EReqBothEdges (r_val r1) "receiver" (-1);
       ERelease (r_val r1) ]
     ++ (if r_val r2 =? 0 then [] else [ERelease (r_val r2)])
     ++ [ EStderr "ERROR: %s\n"
            [PStr "receiver: cannot set the line's callbacks"];
          EExit 1 ],
     Exit 1).
Proof.
  intros H1 H3 H4. apply Z.eqb_neq in H1, H3.
  unfold Managed.receiver_thread, Managed.receiver_thread_terminate.
  unfold_calls.
  simpl. rewrite H1. simpl. rewrite H3. simpl. rewrite H4. simpl.
  destruct (r_val r2 =? 0); reflexivity.
Qed.

Lemma Gpio2_receiver_edge_request_fails args state0 r1 r2 r3 r4 rest d e :
  r_val r1 <> 0 -> r_val r3 <> -1 -> r_val r4 = -1 ->
  Gpio2.receiver_thread args state0
    {| script := r1 :: r2 :: r3 :: r4 :: rest; dflt := d; errno := e |}
  = ([ EGetLine (Gpio2.r_chip args) (Gpio2.receiver_line_id args) (r_val r1);
       EGetLine (Gpio2.r_chip args) (Gpio2.controller_line_id args) (r_val r2);
       EReqOutput (r_val r2) (Gpio2.controller_name args) 0 (r_val r3);
       EReqBothEdges (r_val r1) (Gpio2.receiver_name args) (-1);
       EStdout "errno: %d\n" [PErrno (r_errno r4)];
       EStdout "=> %s\n" [PStrerror (r_errno r4)];
       ERelease (r_val r1);
       ERelease (r_val r2);
       EStderr "ERROR: %s\n"
         [PStr "receiver: cannot set the line's callbacks"];
       EExit 1 ],
     Exit 1).
Proof.
  intros H1 H3 H4. apply Z.eqb_neq in H1, H3.
  unfold Gpio2.receiver_thread.
  unfold_calls.
  simpl. rewrite H1. simpl. rewrite H3. simpl. rewrite H4. simpl.
  reflexivity.
Qed.

(** C7: when the request for edge events on the watched line fails, the
    relay prints the diagnostic that names the failed operation and exits
    with status 1, and on that path the controller line is released once
    ([gpio2.c]) or at most once (resource-struct program: not at all when
    its handle is null), never twice. *)
Theorem relay_edge_request_failure :
  forall r1 r2 r3 r4 rest d e,
    r_val r1 <> 0 -> r_val r3 <> -1 -> r_val r4 = -1 ->
    r_val r1 <> r_val r2 ->
    let w := {| script := r1 :: r2 :: r3 :: r4 :: rest; dflt := d;
                errno := e |} in
    (forall args state0,
       fatal_exit "receiver: cannot set the line's callbacks"
         (Gpio2.receiver_thread args state0) w
       /\ releases_of (r_val r2)
            (run_trace (Gpio2.receiver_thread args state0) w) = 1%nat)
    /\ (forall CHIP args state0,
          fatal_exit "receiver: cannot set the line's callbacks"
            (Managed.receiver_thread CHIP args state0) w
          /\ releases_of (r_val r2)
               (run_trace (Managed.receiver_thread CHIP args state0) w)
             = if r_val r2 =? 0 then O else 1%nat).
Proof.
  intros r1 r2 r3 r4 rest d e H1 H3 H4 Hd w.
  assert ((r_val r1 =? r_val r2) = false) as Hne by (apply Z.eqb_neq; exact Hd).
  split.
  - intros args state0. unfold fatal_exit, run_result, run_trace, w.
    rewrite (Gpio2_receiver_edge_request_fails args state0 r1 r2 r3 r4 rest d e
               H1 H3 H4).
    simpl. rewrite Hne, Z.eqb_refl.
    split; [split; [reflexivity|] | reflexivity].
    eexists [_; _; _; _; _; _; _; _]. reflexivity.
  - intros CHIP args state0. unfold fatal_exit, run_result, run_trace, w.
    rewrite (Managed_receiver_edge_request_fails CHIP args state0
               r1 r2 r3 r4 rest d e H1 H3 H4).
    simpl. rewrite Hne.
    destruct (r_val r2 =? 0) eqn:E2; simpl.
    + split; [split; [reflexivity|] | reflexivity].
      eexists [_; _; _; _; _]. reflexivity.
    + rewrite Z.eqb_refl.
      split; [split; [reflexivity|] | reflexivity].
      eexists [_; _; _; _; _; _]. reflexivity.
Qed.

Lemma relay_edge_request_failure_witness :
  fatal_exit "receiver: cannot set the line's callbacks"
    (Managed.receiver_thread 100 Managed.receiver_arg 0)
    (world_of [gives 2000; gives 3000; ok; fails (EOTHER 16)])
  /\ releases_of 3000
       (run_trace (Managed.receiver_thread 100 Managed.receiver_arg 0)
          (world_of [gives 2000; gives 3000; ok; fails (EOTHER 16)]))
     = 1%nat.
Proof.
  apply (proj2 (relay_edge_request_failure
                  (gives 2000) (gives 3000) ok (fails (EOTHER 16)) [] ok
                  (EOTHER 0)
                  ltac:(simpl; lia) ltac:(simpl; lia) ltac:(reflexivity)
                  ltac:(simpl; lia))
           100 Managed.receiver_arg 0).
Defined.

(** C10: in the receiver the check made after getting the controller line
    tests the receiver handle; when the controller line comes back null
    (and the receiver line did not), nothing is reported and the next call
    is the request for output mode on the null handle. *)
Theorem receiver_misses_null_controller :
  forall r1 r2 r3 rest d e,
    r_val r1 <> 0 -> r_val r2 = 0 ->
    let w := {| script := r1 :: r2 :: r3 :: rest; dflt := d; errno := e |} in
    (forall args state0,
       exists t',
         run_trace (Gpio2.receiver_thread args state0) w
         = EGetLine (Gpio2.r_chip args) (Gpio2.receiver_line_id args) (r_val r1)
           :: EGetLine (Gpio2.r_chip args) (Gpio2.controller_line_id args) 0
           :: EReqOutput 0 (Gpio2.controller_name args) 0 (r_val r3) :: t')
    /\ (forall CHIP args state0,
          exists t',
            run_trace (Managed.receiver_thread CHIP args state0) w
            = EGetLine CHIP (Managed.receiver_line_id args) (r_val r1)
              :: EGetLine CHIP (Managed.controller_line_id args) 0
              :: EReqOutput 0 "controller" 0 (r_val r3) :: t').
Proof.
  intros r1 r2 r3 rest d e H1 H2 w. apply Z.eqb_neq in H1. unfold w.
  split.
  - intros args state0. unfold Gpio2.receiver_thread.
    do 5 (rewrite run_trace_bind; simpl; rewrite ?H1, ?H2; simpl).
    eexists. reflexivity.
  - intros CHIP args state0. unfold Managed.receiver_thread.
    do 5 (rewrite run_trace_bind; simpl; rewrite ?H1, ?H2; simpl).
    eexists. reflexivity.
Qed.

Lemma receiver_misses_null_controller_witness :
  exists t',
    run_trace (Managed.receiver_thread 100 Managed.receiver_arg 0)
      (world_of [gives 2000; gives 0; fails (EOTHER 22)])
    = EGetLine 100 21 2000 :: EGetLine 100 17 0
      :: EReqOutput 0 "controller" 0 (-1) :: t'.
Proof.
  apply (proj2 (receiver_misses_null_controller
                  (gives 2000) (gives 0) (fails (EOTHER 22)) [] ok (EOTHER 0)
                  ltac:(simpl; lia) ltac:(reflexivity))
           100 Managed.receiver_arg 0).
Defined.

(** The same check is repeated in [gpio2.c] after the loop, where the
    controller line is got again: a null handle goes unnoticed there too and
    is passed to [gpiod_line_request_input] and [gpiod_line_release]. *)
Lemma gpio2_receiver_misses_null_controller_after_loop :
  run_trace
    (Gpio2.receiver_thread
       {| Gpio2.r_count := 0; Gpio2.receiver_line_id := 21;
          Gpio2.controller_line_id := 17;
          Gpio2.receiver_name := "receiver";
          Gpio2.controller_name := "controller";
          Gpio2.r_chip := 100 |} 0)
    (world_of [gives 2000; gives 3000; ok; ok; ok; gives 0; ok])
  = [ EGetLine 100 21 2000;
      EGetLine 100 17 3000;
      EReqOutput 3000 "controller" 0 0;
      EReqBothEdges 2000 "receiver" 0;
      ESetValue 3000 0 0;
      ERelease 2000;
      ERelease 3000;
      EGetLine 100 17 0;
      EReqInput 0 "controller" 0;
      ERelease 0 ].
Proof. vm_compute. reflexivity. Qed.

(** C4, as the claim states it, fails: [reset_gpio] run twice closes the
    chip handle twice. *)
Lemma cleanup_twice_closes_chip_twice :
  run_trace (invoke 2 (Managed.reset_gpio 100))
    (world_of [gives 1016; ok; gives 1017; ok; gives 1021; ok;
               gives 1016; ok; gives 1017; ok; gives 1021; ok])
  = [ EStdout "Reset GPIO\n" [];
      EGetLine 100 16 1016; EReqInput 1016 "line" 0; ERelease 1016;
      EGetLine 100 17 1017; EReqInput 1017 "line" 0; ERelease 1017;
      EGetLine 100 21 1021; EReqInput 1021 "line" 0; ERelease 1021;
      EChipClose 100;
      EStdout "Reset GPIO\n" [];
      EGetLine 100 16 1016; EReqInput 1016 "line" 0; ERelease 1016;
      EGetLine 100 17 1017; EReqInput 1017 "line" 0; ERelease 1017;
      EGetLine 100 21 1021; EReqInput 1021 "line" 0; ERelease 1021;
      EChipClose 100 ]
  /\ closes_of 100
       (run_trace (invoke 2 (Managed.reset_gpio 100))
          (world_of [gives 1016; ok; gives 1017; ok; gives 1021; ok;
                     gives 1016; ok; gives 1017; ok; gives 1021; ok]))
     = 2%nat
  /\ ~ (closes_of 100
          (run_trace (invoke 2 (Managed.reset_gpio 100))
             (world_of [gives 1016; ok; gives 1017; ok; gives 1021; ok;
                        gives 1016; ok; gives 1017; ok; gives 1021; ok]))
        <= 1)%nat.
Proof.
  split; [vm_compute; reflexivity|].
  split; [vm_compute; reflexivity|].
  vm_compute. lia.
Qed.

(** C4, amended: every invocation of [reset_gpio] returns and closes the
    chip handle exactly once, with no guard, so [n] invocations close it [n]
    times; the program registers the handler once, and a process run closes
    any chip handle at most once. *)
Theorem cleanup_closes_chip_once_per_invocation :
  (forall CHIP n w,
     returned (run_result (invoke n (Managed.reset_gpio CHIP)) w)
     /\ closes_of CHIP (run_trace (invoke n (Managed.reset_gpio CHIP)) w) = n)
  /\ (forall pw chip, (closes_of chip (fst (Managed.main pw)) <= 1)%nat).
Proof.
  split.
  - intros CHIP n w.
    pose proof (invoke_reset_gpio_closes CHIP n O w) as [Hr Hn].
    rewrite after_count_closes in Hn. split; [exact Hr|]. exact Hn.
  - intros pw chip.
    destruct (Managed_main_closes pw) as (pre & post & -> & Hpre & Hpost).
    rewrite closes_of_app, (no_close_closes chip pre Hpre). simpl.
    destruct Hpost as [-> | [CHIP ->]]; [simpl; lia|].
    apply reset_gpio_closes_le.
Qed.

(** C6, as the claim states it, fails: the Toggler of the resource-struct
    program releases its line right after the last write of the loop.  With
    count 2 the line is released at level 1; with count 3 the writes are
    0, 1, 0 and no fourth write is made. *)
Lemma managed_issuer_releases_without_forcing_low :
  returns
    (Managed.issuer_thread 100
       {| Managed.duration_sec := 1; Managed.duration_nano_sec := 0;
          Managed.count := 2; Managed.line_id := 16 |} sample_locals)
    (world_of [gives 1000])
  /\ run_trace
       (Managed.issuer_thread 100
          {| Managed.duration_sec := 1; Managed.duration_nano_sec := 0;
             Managed.count := 2; Managed.line_id := 16 |} sample_locals)
       (world_of [gives 1000])
     = [ EGetLine 100 16 1000;
         EReqOutput 1000 "issuer" 0 0;
         EStdout "I [%4ld] Set %s\n" [PInt 0; PStr "down"];
         ESetValue 1000 0 0;
         ENanosleep {| tv_sec := 1; tv_nsec := 0 |} ok;
         EStdout "I [%4ld] Set %s\n" [PInt 1; PStr "up"];
         ESetValue 1000 1 0;
         ENanosleep {| tv_sec := 1; tv_nsec := 0 |} ok;
         ERelease 1000 ]
  /\ level_at_release
       (run_trace
          (Managed.issuer_thread 100
             {| Managed.duration_sec := 1; Managed.duration_nano_sec := 0;
                Managed.count := 2; Managed.line_id := 16 |} sample_locals)
          (world_of [gives 1000]))
     = Some 1
  /\ levels
       (run_trace
          (Managed.issuer_thread 100
             {| Managed.duration_sec := 1; Managed.duration_nano_sec := 0;
                Managed.count := 3; Managed.line_id := 16 |} sample_locals)
          (world_of [gives 1000]))
     = [0; 1; 0].
Proof.
  split; [vm_compute; eexists; eexists; reflexivity|].
  repeat split; vm_compute; reflexivity.
Qed.

(** C6, amended: a Toggler of [gpio2.c] that runs to its end writes level 0
    once more after its loop, so that its line is at level 0 when it is
    released (count 3: writes 0, 1, 0, then 0).  The Toggler of the
    resource-struct program makes no write after its loop: its line is
    released at the level of the last cycle, (N-1) mod 2, or at the initial
    level 0 when N = 0. *)
Theorem issuer_level_at_release :
  (forall args locals w,
     returns (Gpio2.issuer_thread args locals) w ->
     levels (run_trace (Gpio2.issuer_thread args locals) w)
     = alternation (Z.to_nat (Gpio2.count args)) ++ [0]
     /\ level_at_release (run_trace (Gpio2.issuer_thread args locals) w)
        = Some 0)
  /\ (forall CHIP args locals w,
        returns (Managed.issuer_thread CHIP args locals) w ->
        levels (run_trace (Managed.issuer_thread CHIP args locals) w)
        = alternation (Z.to_nat (Managed.count args))
        /\ level_at_release
             (run_trace (Managed.issuer_thread CHIP args locals) w)
           = Some (last (alternation (Z.to_nat (Managed.count args))) 0)).
Proof.
  split.
  - intros args locals w H. apply returns_run in H as ([] & w' & H). split.
    + eapply Gpio2_issuer_thread_levels. exact H.
    + eapply Gpio2_issuer_thread_level. exact H.
  - intros CHIP args locals w H. apply returns_run in H as ([] & w' & H). split.
    + eapply Managed_issuer_thread_levels. exact H.
    + eapply Managed_issuer_thread_level. exact H.
Qed.

Lemma issuer_level_at_release_witness :
  levels
    (run_trace
       (Gpio2.issuer_thread
          {| Gpio2.duration_sec := 1; Gpio2.duration_nano_sec := 0;
             Gpio2.count := 3; Gpio2.line_id := 16; Gpio2.name := "issuer";
             Gpio2.chip := 100 |} sample_locals)
       (world_of [gives 1000; ok; ok; ok; ok; ok; ok; ok; ok; gives 1000]))
  = [0; 1; 0; 0]
  /\ level_at_release
       (run_trace
          (Gpio2.issuer_thread
             {| Gpio2.duration_sec := 1; Gpio2.duration_nano_sec := 0;
                Gpio2.count := 3; Gpio2.line_id := 16; Gpio2.name := "issuer";
                Gpio2.chip := 100 |} sample_locals)
          (world_of [gives 1000; ok; ok; ok; ok; ok; ok; ok; ok; gives 1000]))
     = Some 0.
Proof.
  apply (proj1 issuer_level_at_release).
  vm_compute. eexists. eexists. reflexivity.
Defined.

(** C8, as the claim states it, fails: [gpio2.c] registers no cleanup
    callback, and its [main] closes the chip handle itself. *)
Lemma gpio2_main_closes_chip_itself :
  snd (Gpio2.main all_calls_succeed) = Some 0
  /\ existsb is_atexit (fst (Gpio2.main all_calls_succeed)) = false
  /\ closes_of 100 (fst (Gpio2.main all_calls_succeed)) = 1%nat
  /\ last (fst (Gpio2.main all_calls_succeed)) (EExit 0) = EChipClose 100.
Proof. vm_compute. repeat split; reflexivity. Qed.

(** C8, amended: in the program that registers it, the cleanup callback
    always returns; it gets lines 16, 17 and 21 of the chip in that order
    whatever fails, requests each line it got as input and releases at once
    each line it acquired, prints a warning after each failed step, and then
    closes the chip handle; and every close of a chip handle in a run of that
    program is made by the callback.  [gpio2.c] has no such callback: its
    [main] closes the chip handle, as its last action when both threads have
    been joined, and on no other path. *)
Theorem cleanup_resets_lines_and_closes_chip :
  (forall CHIP w,
     returned (run_result (Managed.reset_gpio CHIP) w)
     /\ after reset_step (RIdle, []) (run_trace (Managed.reset_gpio CHIP) w)
        = (RClosed CHIP, [(CHIP, 16); (CHIP, 17); (CHIP, 21)]))
  /\ (forall pw,
        exists pre post,
          fst (Managed.main pw) = pre ++ post
          /\ forallb not_close pre = true
          /\ (post = [] \/
              exists CHIP,
                post = run_trace (Managed.reset_gpio CHIP) (pw_atexit pw)))
  /\ (forall pw,
        (snd (Gpio2.main pw) = Some 0 ->
         exists pre chip,
           fst (Gpio2.main pw) = pre ++ [EChipClose chip]
           /\ forallb not_close pre = true)
        /\ (snd (Gpio2.main pw) <> Some 0 ->
            forallb not_close (fst (Gpio2.main pw)) = true)).
Proof.
  split; [|split].
  - intros CHIP w. exact (reset_gpio_protocol CHIP w).
  - exact Managed_main_closes.
  - exact Gpio2_main_closes.
Qed.

Lemma cleanup_resets_lines_and_closes_chip_witness :
  exists pre chip,
    fst (Gpio2.main all_calls_succeed) = pre ++ [EChipClose chip]
    /\ forallb not_close pre = true.
Proof.
  apply (proj1 (proj2 (proj2 cleanup_resets_lines_and_closes_chip)
                  all_calls_succeed)).
  vm_compute. reflexivity.
Defined.


(** ** Time spent sleeping *)

Lemma slept_app t1 t2 : slept (t1 ++ t2) = slept t1 + slept t2.
Proof.
  induction t1 as [|e t1 IH]; simpl; [reflexivity|].
  destruct e; simpl; rewrite ?IH; try reflexivity. lia.
Qed.

Lemma next_errno w : errno (snd (next w)) = r_errno (fst (next w)).
Proof. unfold next. destruct (script w); reflexivity. Qed.

Lemma duration_store f r v :
  r <> p_duration -> duration (store f r v) = duration f.
Proof. destruct r; simpl; congruence. Qed.

(** One [nanosleep] that returned control. *)
Lemma nanosleep_inv f d r w t rc f1 w1 :
  nanosleep f d r w = (t, Ret (rc, f1) w1) ->
  let rp := fst (next w) in
  t = [ENanosleep (load f d) rp] /\ rc = r_val rp /\ w1 = snd (next w)
  /\ f1 = if (r_val rp =? -1) && is_EINTR (r_errno rp)
          then store f r (ts_of_ns (ts_to_ns (load f d) - r_elapsed rp))
          else f.
Proof.
  unfold nanosleep. intros H.
  apply bind_ret_inv in H as (rp & w0 & t0 & t3 & Hc & H & ->).
  apply call_inv in Hc as (-> & -> & ->). simpl.
  destruct (_ && _); apply pure_inv in H as (H & -> & ->);
    inversion H; subst; auto.
Qed.

(** A sleep that comes back has slept the whole request, however many times
    it was cut short, and leaves [duration] as it was. *)
Lemma sleep_loop_slept fuel cleanup :
  forall f d r w t f' w',
    sleep_loop fuel cleanup f d r w = (t, Ret f' w') ->
    r <> p_duration ->
    slept t = ts_to_ns (load f d) /\ duration f' = duration f.
Proof.
  induction fuel as [|fuel IH]; intros f d r w t f' w' H Hr; simpl in H.
  - discriminate.
  - apply bind_ret_inv in H as ([rc f1] & w1 & t1 & t2 & H1 & H2 & ->).
    apply nanosleep_inv in H1 as (-> & -> & -> & ->).
    rewrite slept_app. simpl.
    destruct (r_val (fst (next w)) =? -1) eqn:Ev; simpl in *.
    + apply bind_ret_inv in H2 as (e & w2 & t4 & t5 & He & H2 & ->).
      unfold get_errno in He. inversion He; subst. clear He.
      rewrite next_errno in H2.
      destruct (r_errno (fst (next w))) eqn:Ee; simpl in H2;
        try (exfalso; exact (bind_error_not_ret _ _ _ _ _ _ H2)).
      apply IH in H2 as [Hs Hd]; [|discriminate].
      rewrite load_store, ts_to_of_ns in Hs.
      rewrite duration_store in Hd by exact Hr.
      simpl. split; [lia | exact Hd].
    + apply pure_inv in H2 as (-> & _ & ->). simpl. split; [lia | reflexivity].
Qed.

Lemma do_sleep_slept cleanup f w t f' w' :
  do_sleep cleanup f w = (t, Ret f' w') ->
  slept t = ts_to_ns (duration f) /\ duration f' = duration f.
Proof.
  unfold do_sleep. intros H.
  apply sleep_loop_slept in H; [exact H | discriminate].
Qed.

Lemma Gpio2_issuer_loop_slept n :
  forall cycle line f w t f' w',
    Gpio2.issuer_loop n cycle line f w = (t, Ret f' w') ->
    slept t = Z.of_nat n * ts_to_ns (duration f) /\ duration f' = duration f.
Proof.
  induction n as [|n IH]; intros cycle line f w t f' w' H; simpl in H.
  - apply pure_inv in H as (-> & _ & ->). simpl. split; [lia | reflexivity].
  - split_run H H1. apply emit_inv in H1 as (-> & ->).
    split_run H H1. apply call_val_inv in H1 as (-> & -> & ->).
    split_run H H1. guard_off H1.
    split_run H H1. apply do_sleep_slept in H1 as [Hs Hd].
    apply IH in H as [Hs' Hd'].
    rewrite Hd in Hs', Hd'.
    replace (Z.of_nat (S n) * ts_to_ns (duration f))
      with (ts_to_ns (duration f) + Z.of_nat n * ts_to_ns (duration f))
      by lia.
    simpl. rewrite slept_app, Hs, Hs'. split; [reflexivity | exact Hd'].
Qed.

Lemma Managed_issuer_loop_slept n :
  forall cycle res f w t f' w',
    Managed.issuer_loop n cycle res f w = (t, Ret f' w') ->
    slept t = Z.of_nat n * ts_to_ns (duration f) /\ duration f' = duration f.
Proof.
  induction n as [|n IH]; intros cycle res f w t f' w' H; simpl in H.
  - apply pure_inv in H as (-> & _ & ->). simpl. split; [lia | reflexivity].
  - split_run H H1. apply emit_inv in H1 as (-> & ->).
    split_run H H1. apply call_val_inv in H1 as (-> & -> & ->).
    split_run H H1. guard_off H1.
    split_run H H1. apply do_sleep_slept in H1 as [Hs Hd].
    apply IH in H as [Hs' Hd'].
    rewrite Hd in Hs', Hd'.
    replace (Z.of_nat (S n) * ts_to_ns (duration f))
      with (ts_to_ns (duration f) + Z.of_nat n * ts_to_ns (duration f))
      by lia.
    simpl. rewrite slept_app, Hs, Hs'. split; [reflexivity | exact Hd'].
Qed.

Lemma Gpio2_issuer_thread_slept args locals w t w' :
  Gpio2.issuer_thread args locals w = (t, Ret tt w') ->
  slept t
  = Z.max 0 (Gpio2.count args)
    * (Gpio2.duration_sec args * NSEC_PER_SEC + Gpio2.duration_nano_sec args).
Proof.
  unfold Gpio2.issuer_thread. intros H.
  split_run H H1. apply call_val_inv in H1 as (-> & -> & ->).
  split_run H H1. guard_off H1.
  split_run H H1. apply call_val_inv in H1 as (-> & -> & ->).
  split_run H H1. guard_off H1.
  split_run H H1. apply Gpio2_issuer_loop_slept in H1 as [H1 _].
  split_run H H2. apply call_val_inv in H2 as (-> & -> & ->).
  split_run H H2. guard_off H2.
  split_run H H2. apply emit_inv in H2 as (-> & ->).
  split_run H H2. apply call_val_inv in H2 as (-> & -> & ->).
  split_run H H2. guard_off H2.
  split_run H H2. apply call_val_inv in H2 as (-> & -> & ->).
  split_run H H2. guard_off H2.
  split_run H H2. apply emit_inv in H2 as (-> & ->).
  apply pure_inv in H as (_ & _ & ->).
  simpl. rewrite !slept_app, H1. simpl.
  replace (Z.of_nat (Z.to_nat (Gpio2.count args)))
    with (Z.max 0 (Gpio2.count args)) by lia.
  unfold ts_to_ns. simpl. lia.
Qed.

Lemma Managed_issuer_thread_slept CHIP args locals w t w' :
  Managed.issuer_thread CHIP args locals w = (t, Ret tt w') ->
  slept t
  = Z.max 0 (Managed.count args)
    * (Managed.duration_sec args * NSEC_PER_SEC
       + Managed.duration_nano_sec args).
Proof.
  unfold Managed.issuer_thread. intros H.
  split_run H H1. apply call_val_inv in H1 as (-> & -> & ->).
  split_run H H1. guard_off H1.
  split_run H H1. apply call_val_inv in H1 as (-> & -> & ->).
  split_run H H1. guard_off H1.
  split_run H H1. apply Managed_issuer_loop_slept in H1 as [H1 _].
  split_run H H2.
  apply pure_inv in H as (_ & _ & ->).
  assert (slept t0 = 0) as Ht0.
  { unfold Managed.issuer_thread_terminate, when in H2.
    destruct (negb _).
    - apply emit_inv in H2 as (_ & ->). reflexivity.
    - apply pure_inv in H2 as (_ & _ & ->). reflexivity. }
  simpl. rewrite !slept_app, H1, Ht0. simpl.
  replace (Z.of_nat (Z.to_nat (Managed.count args)))
    with (Z.max 0 (Managed.count args)) by lia.
  unfold ts_to_ns. simpl. lia.
Qed.

(** X1: an issuer that runs to its end has spent in [nanosleep] its count
    (0 when the count is negative) times the configured duration, whatever
    interruptions occurred: time elapsed before each interruption plus the
    requests that completed. *)
Theorem issuer_total_sleep :
  (forall args locals w,
     returns (Gpio2.issuer_thread args locals) w ->
     slept (run_trace (Gpio2.issuer_thread args locals) w)
     = Z.max 0 (Gpio2.count args)
       * (Gpio2.duration_sec args * NSEC_PER_SEC
          + Gpio2.duration_nano_sec args))
  /\ (forall CHIP args locals w,
        returns (Managed.issuer_thread CHIP args locals) w ->
        slept (run_trace (Managed.issuer_thread CHIP args locals) w)
        = Z.max 0 (Managed.count args)
          * (Managed.duration_sec args * NSEC_PER_SEC
             + Managed.duration_nano_sec args)).
Proof.
  split.
  - intros args locals w H. apply returns_run in H as ([] & w' & H).
    eapply Gpio2_issuer_thread_slept. exact H.
  - intros CHIP args locals w H. apply returns_run in H as ([] & w' & H).
    eapply Managed_issuer_thread_slept. exact H.
Qed.

Lemma issuer_total_sleep_witness :
  slept (run_trace (Managed.issuer_thread 100 Managed.issuer_arg sample_locals)
           (world_of [gives 1000; ok; ok; interrupted 400; interrupted 100]))
  = 5000000000.
Proof.
  apply (proj2 issuer_total_sleep 100 Managed.issuer_arg sample_locals
           (world_of [gives 1000; ok; ok; interrupted 400; interrupted 100])).
  vm_compute. eexists. eexists. reflexivity.
Defined.

(** X2: the sleep loop ends, by returning or by a fatal error, as soon as
    one reply of [nanosleep] is not an interruption ([-1] with [EINTR]); it
    goes on for ever only when every call is interrupted. *)
Theorem sleep_ends_unless_always_interrupted :
  forall cleanup f w rp,
    (forall w0, run_result cleanup w0 <> Hang) ->
    In rp (script w) \/ rp = dflt w ->
    ~ (r_val rp = -1 /\ r_errno rp = EINTR) ->
    run_result (do_sleep cleanup f) w <> Hang.
Proof.
  intros cleanup f w rp Hc Hin Hrp. unfold run_result.
  destruct (do_sleep cleanup f w) as [t r] eqn:E.
  destruct r as [f' w'|c|]; simpl; try discriminate.
  intros _. apply do_sleep_hang in E as [HF Hd]; [|exact Hc].
  destruct Hin as [Hin | ->].
  - rewrite Forall_forall in HF. exact (Hrp (HF rp Hin)).
  - exact (Hrp Hd).
Qed.

Lemma sleep_ends_unless_always_interrupted_witness :
  run_result (do_sleep (pure tt) sample_locals)
    {| script := [interrupted 5; interrupted 7; ok; interrupted 1];
       dflt := interrupted 3; errno := EOTHER 0 |}
  <> Hang.
Proof.
  apply (sleep_ends_unless_always_interrupted (pure tt) sample_locals
           {| script := [interrupted 5; interrupted 7; ok; interrupted 1];
              dflt := interrupted 3; errno := EOTHER 0 |} ok).
  - intros w0. discriminate.
  - left. simpl. tauto.
  - simpl. intros [H _]. discriminate.
Defined.

(** A sleep that fails for good, after the interruptions [es]. *)
Lemma sleep_loop_fatal (es : list Z) :
  forall fuel cleanup tc f d r rp rest dw e,
    (forall w0, cleanup w0 = (tc, Ret tt w0)) ->
    r_val rp = -1 -> r_errno rp <> EINTR ->
    (List.length es < fuel)%nat ->
    exists tn,
      sleep_loop fuel cleanup f d r
        {| script := map interrupted es ++ rp :: rest; dflt := dw;
           errno := e |}
      = (tn ++ tc
         ++ [EStderr "ERROR: %s\n"
               [PStr match r_errno rp with
                     | EFAULT =>
                         "issuer: problem with copying information from user space"
                     | EINVAL => "issuer: unexpected period duration"
                     | _ => "issuer: unexpected errno value"
                     end];
             EExit 1],
         Exit 1)
      /\ forallb is_nanosleep tn = true
      /\ requests tn = chain (load f d) es.
Proof.
  induction es as [|e1 es IH];
    intros fuel cleanup tc f d r rp rest dw e Hc Hv He Hfuel.
  - destruct fuel as [|fuel]; [simpl in Hfuel; lia|].
    exists [ENanosleep (load f d) rp].
    simpl. unfold bind at 1. unfold nanosleep, bind at 1, call, next. simpl.
    rewrite Hv. simpl.
    destruct (r_errno rp) eqn:Ee; [congruence| | |];
      simpl; unfold bind at 1; unfold get_errno; simpl;
      unfold bind; rewrite Hc; simpl; repeat split; reflexivity.
  - destruct fuel as [|fuel]; [simpl in Hfuel; lia|].
    simpl in Hfuel.
    destruct (IH fuel cleanup tc
                (store f r (ts_of_ns (ts_to_ns (load f d) - e1)))
                r p_remaining_again rp rest dw EINTR Hc Hv He ltac:(lia))
      as (tn & Hrun & Hns & Hreq).
    exists (ENanosleep (load f d) (interrupted e1) :: tn).
    rewrite load_store in Hreq.
    simpl. unfold bind at 1. unfold nanosleep, bind, call, next. simpl.
    rewrite Hrun. simpl. rewrite Hns, Hreq.
    repeat split; reflexivity.
Qed.

(** X3: when [nanosleep] fails with an [errno] other than [EINTR], after
    any number of interruptions, the sleep loop reports the error chosen by
    [errno] ([EFAULT], [EINVAL], any other value) and calls [exit(1)]; the
    issuer of [gpio2.c] does nothing before the report, the issuer of the
    resource-struct program releases its line first (when it has one). *)
Theorem sleep_fatal_errno :
  forall f es rp rest dw e,
    r_val rp = -1 -> r_errno rp <> EINTR ->
    let w := {| script := map interrupted es ++ rp :: rest; dflt := dw;
                errno := e |} in
    let report :=
      [ EStderr "ERROR: %s\n"
          [PStr match r_errno rp with
                | EFAULT =>
                    "issuer: problem with copying information from user space"
                | EINVAL => "issuer: unexpected period duration"
                | _ => "issuer: unexpected errno value"
                end];
        EExit 1 ] in
    (exists tn,
       do_sleep (pure tt) f w = (tn ++ report, Exit 1)
       /\ forallb is_nanosleep tn = true
       /\ requests tn = chain (duration f) es)
    /\ (forall resource,
          exists tn,
            do_sleep (Managed.issuer_thread_terminate resource) f w
            = (tn
               ++ (if Managed.issuer resource =? 0 then []
                   else [ERelease (Managed.issuer resource)])
               ++ report,
               Exit 1)
            /\ forallb is_nanosleep tn = true
            /\ requests tn = chain (duration f) es).
Proof.
  intros f es rp rest dw e Hv He w report. unfold do_sleep, w. simpl script.
  assert (List.length es
          < S (List.length (map interrupted es ++ rp :: rest)))%nat as Hfuel.
  { rewrite length_app, length_map. simpl. lia. }
  split.
  - destruct (sleep_loop_fatal es _ (pure tt) [] f p_duration p_remaining
                rp rest dw e ltac:(reflexivity) Hv He Hfuel)
      as (tn & Hrun & Hns & Hreq).
    exists tn. simpl in Hrun. auto.
  - intros resource.
    assert (forall w0,
              Managed.issuer_thread_terminate resource w0
              = (if Managed.issuer resource =? 0 then []
                 else [ERelease (Managed.issuer resource)], Ret tt w0))
      as Hc.
    { intros w0. unfold Managed.issuer_thread_terminate.
      destruct (Managed.issuer resource =? 0); reflexivity. }
    destruct (sleep_loop_fatal es _ _ _ f p_duration p_remaining
                rp rest dw e Hc Hv He Hfuel)
      as (tn & Hrun & Hns & Hreq).
    exists tn. auto.
Qed.

Lemma sleep_fatal_errno_witness :
  exists tn,
    do_sleep (Managed.issuer_thread_terminate {| Managed.issuer := 1000 |})
      sample_locals (world_of [interrupted 300; fails EINVAL])
    = (tn ++ [ERelease 1000]
          ++ [EStderr "ERROR: %s\n"
                [PStr "issuer: unexpected period duration"];
              EExit 1],
       Exit 1)
    /\ forallb is_nanosleep tn = true
    /\ requests tn = chain (duration sample_locals) [300].
Proof.
  apply (proj2 (sleep_fatal_errno sample_locals [300] (fails EINVAL) [] ok
                  (EOTHER 0) ltac:(reflexivity) ltac:(discriminate))
           {| Managed.issuer := 1000 |}).
Defined.

(** ** Line handles of the resource-struct program *)

Lemma Managed_issuer_thread_lease_witness :
  released_once 1000
    (run_trace (Managed.issuer_thread 100 Managed.issuer_arg sample_locals)
       (world_of [gives 1000; ok; ok; fails EFAULT]))
  = true.
Proof.
  apply (Managed_issuer_thread_lease 1000 100 Managed.issuer_arg sample_locals
           (world_of [gives 1000; ok; ok; fails EFAULT])).
  vm_compute. discriminate.
Defined.

Lemma Managed_receiver_thread_lease_witness :
  released_once 3000
    (run_trace (Managed.receiver_thread 100 Managed.receiver_arg 0)
       (world_of [gives 2000; gives 3000; ok; ok; gives 1; fails (EOTHER 5)]))
  = true.
Proof.
  apply (Managed_receiver_thread_lease 3000 100 Managed.receiver_arg 0
           (world_of [gives 2000; gives 3000; ok; ok; gives 1;
                      fails (EOTHER 5)])).
  - lia.
  - vm_compute. repeat constructor; simpl; intuition discriminate.
  - vm_compute. discriminate.
Defined.

(** ** The sleep, with the diagnostics it can end in *)

Section SleepDiagnostics.
Context {S : Type} (step : S -> event -> S).

Lemma wp_sleep_loop_msgs fuel cleanup (Q : result frame -> S -> Prop) s :
  (forall req rp, step s (ENanosleep req rp) = s) ->
  (forall msg,
     In msg (tl issuer_write_or_sleep) ->
     wp step (cleanup ;; error msg) Q s) ->
  (forall f w, Q (Ret f w) s) ->
  Q Hang s ->
  forall f d r, wp step (sleep_loop fuel cleanup f d r) Q s.
Proof.
  intros Hstep Hfatal Hret Hhang.
  induction fuel as [|fuel IH]; intros f d r; simpl.
  - apply wp_hang. exact Hhang.
  - apply wp_bind. unfold nanosleep. apply wp_bind, wp_call.
    intros rp w. simpl. rewrite Hstep.
    destruct (_ && _); apply wp_pure; intros w0; simpl;
      (destruct (r_val rp =? -1);
       [ apply wp_bind, wp_get_errno; intros e w1; simpl;
         destruct e; [apply IH | apply Hfatal; simpl; tauto ..]
       | apply wp_pure; apply Hret ]).
Qed.

Lemma wp_do_sleep_msgs cleanup (Q : result frame -> S -> Prop) s f :
  (forall req rp, step s (ENanosleep req rp) = s) ->
  (forall msg,
     In msg (tl issuer_write_or_sleep) ->
     wp step (cleanup ;; error msg) Q s) ->
  (forall f w, Q (Ret f w) s) ->
  Q Hang s ->
  wp step (do_sleep cleanup f) Q s.
Proof.
  intros H1 H2 H3 H4 w. unfold do_sleep.
  exact (wp_sleep_loop_msgs _ cleanup Q s H1 H2 H3 H4 f _ _ w).
Qed.

Lemma wp_led_sleep_loop fuel (Q : result frame -> S -> Prop) s :
  (forall req rp, step s (ENanosleep req rp) = s) ->
  (forall msg, In msg (tl led_write_or_sleep) -> wp step (error msg) Q s) ->
  (forall f w, Q (Ret f w) s) ->
  Q Hang s ->
  forall f d r, wp step (Gpio1.sleep_loop fuel f d r) Q s.
Proof.
  intros Hstep Hfatal Hret Hhang.
  induction fuel as [|fuel IH]; intros f d r; simpl.
  - apply wp_hang. exact Hhang.
  - apply wp_bind. unfold nanosleep. apply wp_bind, wp_call.
    intros rp w. simpl. rewrite Hstep.
    destruct (_ && _); apply wp_pure; intros w0; simpl;
      (destruct (r_val rp =? -1);
       [ apply wp_bind, wp_get_errno; intros e w1; simpl;
         destruct e; [apply IH | apply Hfatal; simpl; tauto ..]
       | apply wp_pure; apply Hret ]).
Qed.

Lemma wp_led_do_sleep (Q : result frame -> S -> Prop) s f :
  (forall req rp, step s (ENanosleep req rp) = s) ->
  (forall msg, In msg (tl led_write_or_sleep) -> wp step (error msg) Q s) ->
  (forall f w, Q (Ret f w) s) ->
  Q Hang s ->
  wp step (Gpio1.do_sleep f) Q s.
Proof.
  intros H1 H2 H3 H4 w. unfold Gpio1.do_sleep.
  exact (wp_led_sleep_loop _ Q s H1 H2 H3 H4 f _ _ w).
Qed.
End SleepDiagnostics.

(** ** What a thread did with its handles *)

Lemma obs_Gpio2_issuer_loop n :
  forall cycle line f s,
    wp obs_step (Gpio2.issuer_loop n cycle line f)
      (leak_post issuer_write_or_sleep s) s.
Proof.
  induction n as [|n IH]; intros cycle line f s; simpl.
  - wp_go. reflexivity.
  - wp_go.
    + split; [reflexivity|]. eexists. split; [|reflexivity]. simpl. tauto.
    + apply wp_do_sleep_msgs.
      * reflexivity.
      * intros msg Hin. wp_go. split; [reflexivity|].
        exists msg. split; [right; exact Hin | reflexivity].
      * intros f' w'. simpl. apply IH.
      * reflexivity.
Qed.

Lemma obs_led_loop n :
  forall cycle line f s,
    wp obs_step (Gpio1.led_loop n cycle line f)
      (leak_post led_write_or_sleep s) s.
Proof.
  induction n as [|n IH]; intros cycle line f s; simpl.
  - wp_go. reflexivity.
  - wp_go.
    + split; [reflexivity|]. eexists. split; [|reflexivity]. simpl. tauto.
    + apply wp_led_do_sleep.
      * reflexivity.
      * intros msg Hin. wp_go. split; [reflexivity|].
        exists msg. split; [right; exact Hin | reflexivity].
      * intros f' w'. simpl. apply IH.
      * reflexivity.
Qed.

Ltac obs_norm :=
  unfold acquire;
  repeat match goal with
         | H : (?a =? ?b) = _ |- context [?a =? ?b] => rewrite H
         end;
  simpl.

Ltac obs_nonzero :=
  repeat match goal with
         | H : (_ =? 0) = false |- _ => apply Z.eqb_neq in H
         end;
  first [assumption | congruence].

Ltac obs_incl :=
  let x := fresh "x" in
  intros x; simpl; tauto.

Ltac obs_exit :=
  split; [reflexivity|]; eexists; (split; [reflexivity|]); simpl;
  first [ obs_incl
        | eexists; repeat split; try reflexivity; obs_nonzero ].

Ltac obs_leak Hs :=
  let msg := fresh "msg" in
  let Hin := fresh "Hin" in
  destruct Hs as (-> & msg & Hin & ->);
  split; [reflexivity|]; exists msg; (split; [reflexivity|]);
  simpl in Hin;
  repeat (destruct Hin as [<- | Hin]; [simpl; eexists; repeat split; try reflexivity; obs_nonzero|]);
  destruct Hin.

Lemma obs_Gpio2_issuer_thread args locals :
  wp obs_step (Gpio2.issuer_thread args locals)
    (issuer_outcome issuer_write_or_sleep (fun ls => List.length ls = 2%nat))
    obs0.
Proof.
  unfold Gpio2.issuer_thread.
  wp_go; obs_norm; try obs_exit.
  eapply wp_conseq; [apply obs_Gpio2_issuer_loop|].
  intros [f' w'|c|] s' Hs; simpl in Hs.
  - subst s'. wp_go; obs_norm; try obs_exit.
    exists [r_val r; r_val r2]. split; [reflexivity|]. split; [|reflexivity].
    simpl. intros [Hz | [Hz | []]]; obs_nonzero.
  - obs_leak Hs.
  - subst s'. eexists. split; [|reflexivity]. obs_nonzero.
Qed.

Lemma obs_led_thread args locals :
  wp obs_step (Gpio1.led_thread args locals)
    (issuer_outcome led_write_or_sleep (fun ls => List.length ls = 1%nat))
    obs0.
Proof.
  unfold Gpio1.led_thread.
  wp_go; obs_norm; try obs_exit.
  eapply wp_conseq; [apply obs_led_loop|].
  intros [f' w'|c|] s' Hs; simpl in Hs.
  - subst s'. wp_go; obs_norm; try obs_exit.
    exists [r_val r]. split; [reflexivity|]. split; [|reflexivity].
    simpl. intros [Hz | []]; obs_nonzero.
  - obs_leak Hs.
  - subst s'. eexists. split; [|reflexivity]. obs_nonzero.
Qed.

Lemma obs_Gpio2_receiver_loop n :
  forall receiver controller state s,
    wp obs_step (Gpio2.receiver_loop n receiver controller state)
      (relay_loop_post receiver controller s) s.
Proof.
  induction n as [|n IH]; intros receiver controller state s; simpl.
  - wp_go. reflexivity.
  - wp_go; try apply IH;
      (split; [reflexivity|]; eexists;
       split;
       [| unfold with_diag, with_released; simpl; rewrite <- app_assoc;
          reflexivity ];
       simpl; tauto).
Qed.

Lemma obs_Gpio2_receiver_thread args state0 :
  wp obs_step (Gpio2.receiver_thread args state0) relay_outcome obs0.
Proof.
  unfold Gpio2.receiver_thread.
  wp_go; obs_norm; try obs_exit; try congruence.
  eapply wp_conseq; [apply obs_Gpio2_receiver_loop|].
  intros [f' w'|c|] s' Hs; simpl in Hs.
  - subst s'. wp_go; obs_norm; try obs_exit; try congruence.
    + split; [reflexivity|]. eexists. split; [reflexivity|]. simpl.
      eexists. eexists. repeat split; try reflexivity. obs_nonzero.
    + eexists. eexists. eexists. split; [|reflexivity]. obs_nonzero.
  - destruct Hs as (-> & msg & Hin & ->).
    split; [reflexivity|]. exists msg. split; [reflexivity|].
    simpl in Hin.
    repeat (destruct Hin as [<- | Hin]; [simpl; obs_incl|]).
    destruct Hin.
  - destruct Hs.
Qed.

(** X6: a run of the issuer of [gpio2.c] that ends in a fatal error exits
    with status 1 after a diagnostic; the line is still held (got, acquired
    as output, never released) exactly when the diagnostic is that of a
    failed write or of a failed sleep; after any other diagnostic every
    handle acquired was released. *)
Theorem gpio2_issuer_leaks_on_failed_write_or_sleep :
  forall args locals w c,
    run_result (Gpio2.issuer_thread args locals) w = Exit c ->
    let s := observe (run_trace (Gpio2.issuer_thread args locals) w) in
    c = 1
    /\ exists msg,
         o_diag s = Some msg
         /\ if mem_string msg issuer_write_or_sleep
            then exists l, l <> 0 /\ o_got s = [l] /\ o_acquired s = [l]
                           /\ o_released s = []
            else incl (o_acquired s) (o_released s).
Proof.
  intros args locals w c H s.
  pose proof (obs_Gpio2_issuer_thread args locals w) as Ho.
  unfold run_result in H. rewrite H in Ho. exact Ho.
Qed.

Lemma gpio2_issuer_leaks_on_failed_write_or_sleep_witness :
  1 = 1
  /\ exists msg,
       o_diag (observe sample_issuer_sleep_fails) = Some msg
       /\ if mem_string msg issuer_write_or_sleep
          then exists l,
                 l <> 0
                 /\ o_got (observe sample_issuer_sleep_fails) = [l]
                 /\ o_acquired (observe sample_issuer_sleep_fails) = [l]
                 /\ o_released (observe sample_issuer_sleep_fails) = []
          else incl (o_acquired (observe sample_issuer_sleep_fails))
                 (o_released (observe sample_issuer_sleep_fails)).
Proof.
  apply (gpio2_issuer_leaks_on_failed_write_or_sleep (Gpio2.issuer_arg 100)
           sample_locals (world_of [gives 1000; ok; ok; fails EINVAL]) 1).
  vm_compute. reflexivity.
Defined.

(** X7: a run of the relay of [gpio2.c] that ends in a fatal error exits
    with status 1 after a diagnostic; both lines are still held exactly when
    the diagnostic is that of the write made after the loop; after any other
    diagnostic every handle acquired was released. *)
Theorem gpio2_relay_leaks_on_failed_last_write :
  forall args state0 w c,
    run_result (Gpio2.receiver_thread args state0) w = Exit c ->
    let s := observe (run_trace (Gpio2.receiver_thread args state0) w) in
    c = 1
    /\ exists msg,
         o_diag s = Some msg
         /\ if String.eqb msg
                 "receiver: cannot change the value of the output for the line that controls the LED"
            then exists l1 l2,
                   l1 <> 0 /\ o_got s = [l1; l2] /\ o_acquired s = [l2; l1]
                   /\ o_released s = []
            else incl (o_acquired s) (o_released s).
Proof.
  intros args state0 w c H s.
  pose proof (obs_Gpio2_receiver_thread args state0 w) as Ho.
  unfold run_result in H. rewrite H in Ho. exact Ho.
Qed.

Lemma gpio2_relay_leaks_on_failed_last_write_witness :
  1 = 1
  /\ exists msg,
       o_diag (observe sample_relay_last_write_fails) = Some msg
       /\ if String.eqb msg
               "receiver: cannot change the value of the output for the line that controls the LED"
          then exists l1 l2,
                 l1 <> 0
                 /\ o_got (observe sample_relay_last_write_fails) = [l1; l2]
                 /\ o_acquired (observe sample_relay_last_write_fails)
                    = [l2; l1]
                 /\ o_released (observe sample_relay_last_write_fails) = []
          else incl (o_acquired (observe sample_relay_last_write_fails))
                 (o_released (observe sample_relay_last_write_fails)).
Proof.
  apply (gpio2_relay_leaks_on_failed_last_write
           {| Gpio2.r_count := 1; Gpio2.receiver_line_id := 21;
              Gpio2.controller_line_id := 17;
              Gpio2.receiver_name := "receiver";
              Gpio2.controller_name := "controller"; Gpio2.r_chip := 100 |}
           0
           (world_of [gives 2000; gives 3000; ok; ok; gives 1; ok; ok;
                      fails (EOTHER 5)])
           1).
  vm_compute. reflexivity.
Defined.

(** X8: a thread of [gpio2.c] that runs to its end released, in order, each
    handle it got: the issuer its line twice (as output, then as input), the
    relay its receiver line, its controller line, and the controller line
    got again after the loop; no fatal error was reported. *)
Theorem gpio2_threads_release_what_they_got :
  (forall args locals w,
     returns (Gpio2.issuer_thread args locals) w ->
     exists l l',
       l <> 0 /\ l' <> 0
       /\ observe (run_trace (Gpio2.issuer_thread args locals) w)
          = {| o_got := [l; l']; o_acquired := [l; l'];
               o_released := [l; l']; o_diag := None |})
  /\ (forall args state0 w,
        returns (Gpio2.receiver_thread args state0) w ->
        exists l1 l2 l3,
          l1 <> 0
          /\ observe (run_trace (Gpio2.receiver_thread args state0) w)
             = {| o_got := [l1; l2; l3]; o_acquired := [l2; l1; l3];
                  o_released := [l1; l2; l3]; o_diag := None |}).
Proof.
  split.
  - intros args locals w (a & w' & H).
    pose proof (obs_Gpio2_issuer_thread args locals w) as Ho.
    unfold run_result in H. rewrite H in Ho.
    destruct Ho as (ls & Hlen & Hnz & Ho).
    destruct ls as [|l [|l' [|x ls]]]; try discriminate.
    exists l, l'. split; [|split; [|exact Ho]].
    + intros ->. apply Hnz. simpl. auto.
    + intros ->. apply Hnz. simpl. auto.
  - intros args state0 w (a & w' & H).
    pose proof (obs_Gpio2_receiver_thread args state0 w) as Ho.
    unfold run_result in H. rewrite H in Ho. exact Ho.
Qed.

Lemma gpio2_threads_release_what_they_got_witness :
  exists l1 l2 l3,
    l1 <> 0
    /\ observe (run_trace (Gpio2.receiver_thread (Gpio2.receiver_arg 100) 0)
                  (world_of (relay_replies 10)))
       = {| o_got := [l1; l2; l3]; o_acquired := [l2; l1; l3];
            o_released := [l1; l2; l3]; o_diag := None |}.
Proof.
  apply (proj2 gpio2_threads_release_what_they_got (Gpio2.receiver_arg 100) 0
           (world_of (relay_replies 10))).
  vm_compute. eexists. eexists. reflexivity.
Defined.

(** ** The relay on runs that reach their end *)

Lemma relay_run_witness :
  reads (run_trace (Managed.receiver_thread 100 Managed.receiver_arg 0)
           (world_of (relay_replies 3)))
  = 3%nat
  /\ waits (run_trace (Managed.receiver_thread 100 Managed.receiver_arg 0)
              (world_of (relay_replies 3)))
     = 3%nat
  /\ (0 = 0 ->
      levels (run_trace (Managed.receiver_thread 100 Managed.receiver_arg 0)
                (world_of (relay_replies 3)))
      = relay_levels 3)
  /\ (0 = 1 ->
      levels (run_trace (Managed.receiver_thread 100 Managed.receiver_arg 0)
                (world_of (relay_replies 3)))
      = alternation 3).
Proof.
  apply (relay_run 100 Managed.receiver_arg 0 (world_of (relay_replies 3))).
  vm_compute. eexists. eexists. reflexivity.
Defined.

Lemma gpio2_relay_run_witness :
  reads (run_trace (Gpio2.receiver_thread (Gpio2.receiver_arg 100) 1)
           (world_of (relay_replies 10)))
  = 10%nat
  /\ waits (run_trace (Gpio2.receiver_thread (Gpio2.receiver_arg 100) 1)
              (world_of (relay_replies 10)))
     = 10%nat
  /\ (1 = 0 ->
      levels (run_trace (Gpio2.receiver_thread (Gpio2.receiver_arg 100) 1)
                (world_of (relay_replies 10)))
      = relay_levels 10 ++ [0])
  /\ (1 = 1 ->
      levels (run_trace (Gpio2.receiver_thread (Gpio2.receiver_arg 100) 1)
                (world_of (relay_replies 10)))
      = alternation 10 ++ [0]).
Proof.
  apply (gpio2_relay_run (Gpio2.receiver_arg 100) 1
           (world_of (relay_replies 10))).
  vm_compute. eexists. eexists. reflexivity.
Defined.

(** X17: when the request for output mode on the controller line fails,
    the relay releases the lines it holds (both in [gpio2.c]; in the
    resource-struct program the receiver line, and the controller line when
    its handle is not null), prints the diagnostic of that branch, which
    says "mode to input", and exits with status 1. *)
Theorem relay_output_request_failure :
  forall r1 r2 r3 rest d e,
    r_val r1 <> 0 -> r_val r3 = -1 ->
    let w := {| script := r1 :: r2 :: r3 :: rest; dflt := d; errno := e |} in
    (forall args state0,
       Gpio2.receiver_thread args state0 w
       = ([ EGetLine (Gpio2.r_chip args) (Gpio2.receiver_line_id args)
              (r_val r1);
            EGetLine (Gpio2.r_chip args) (Gpio2.controller_line_id args)
              (r_val r2);
            EReqOutput (r_val r2) (Gpio2.controller_name args) 0 (-1);
            ERelease (r_val r1);
            ERelease (r_val r2);
            EStderr "ERROR: %s\n"
              [PStr "receiver: cannot set the line's mode to input"];
            EExit 1 ],
          Exit 1))
    /\ (forall CHIP args state0,
          Managed.receiver_thread CHIP args state0 w
          = ([ EGetLine CHIP (Managed.receiver_line_id args) (r_val r1);
               EGetLine CHIP (Managed.controller_line_id args) (r_val r2);
               EReqOutput (r_val r2) "controller" 0 (-1);
               ERelease (r_val r1) ]
             ++ (if r_val r2 =? 0 then [] else [ERelease (r_val r2)])
             ++ [ EStderr "ERROR: %s\n"
                    [PStr "receiver: cannot set the line's mode to input"];
                  EExit 1 ],
             Exit 1)).
Proof.
  intros r1 r2 r3 rest d e H1 H3 w. apply Z.eqb_neq in H1. unfold w.
  split.
  - intros args state0. unfold Gpio2.receiver_thread. unfold_calls.
    simpl. rewrite H1. simpl. rewrite H3. simpl. reflexivity.
  - intros CHIP args state0.
    unfold Managed.receiver_thread, Managed.receiver_thread_terminate.
    unfold_calls.
    simpl. rewrite H1. simpl. rewrite H3. simpl.
    destruct (r_val r2 =? 0); reflexivity.
Qed.

Lemma relay_output_request_failure_witness :
  Gpio2.receiver_thread (Gpio2.receiver_arg 100) 0
    (world_of [gives 2000; gives 3000; fails (EOTHER 16)])
  = ([ EGetLine 100 21 2000;
       EGetLine 100 17 3000;
       EReqOutput 3000 "controller" 0 (-1);
       ERelease 2000;
       ERelease 3000;
       EStderr "ERROR: %s\n"
         [PStr "receiver: cannot set the line's mode to input"];
       EExit 1 ],
     Exit 1).
Proof.
  apply (proj1 (relay_output_request_failure
                  (gives 2000) (gives 3000) (fails (EOTHER 16)) [] ok
                  (EOTHER 0) ltac:(simpl; lia) ltac:(reflexivity))
           (Gpio2.receiver_arg 100) 0).
Defined.

(** ** The exit handler *)

Lemma after_both {S T} (f : S -> event -> S) (g : T -> event -> T) t :
  forall s u, after (both f g) (s, u) t = (after f s t, after g u t).
Proof.
  induction t as [|e t IH]; intros s u; [reflexivity|].
  rewrite !after_cons. unfold both at 2. simpl. apply IH.
Qed.

Lemma reset_line_settled CHIP pin done s :
  reset_settled done s ->
  wp (both (both obs_step warn_step) settle_step)
    (Managed.reset_line CHIP pin)
    (fun r s' => returned r /\ reset_settled (done ++ [pin]) s') s.
Proof.
  destruct s as [[o wd] [cur outs]].
  intros (Hcur & Hdone & Hwd & Hrel & Hlen & Hdiag). simpl in *. subst cur.
  unfold Managed.reset_line. wp_go.
  destruct (r_val r =? 0) eqn:E0.
  - wp_go. split; [eexists; eexists; reflexivity|].
    unfold reset_settled. simpl.
    rewrite map_app, !filter_app, map_app, Hdone, Hwd. simpl.
    rewrite app_nil_r. repeat split; auto.
  - wp_go.
    destruct (r_val r0 =? -1) eqn:E1.
    + wp_go. split; [eexists; eexists; reflexivity|].
      unfold reset_settled. simpl. unfold acquire. rewrite E1. simpl.
      rewrite map_app, !filter_app, map_app, Hdone, Hwd. simpl.
      rewrite app_nil_r. repeat split; auto.
    + wp_go. split; [eexists; eexists; reflexivity|].
      unfold reset_settled. simpl. unfold acquire. rewrite E1. simpl.
      rewrite Z.eqb_refl. simpl.
      rewrite map_app, !filter_app, Hdone, Hwd, Hrel. simpl.
      rewrite app_nil_r, !length_app, <- Hlen, Hrel. simpl.
      repeat split; auto.
Qed.

Lemma reset_lines_settled CHIP pins : forall done s,
  reset_settled done s ->
  wp (both (both obs_step warn_step) settle_step)
    (Managed.reset_lines CHIP pins)
    (fun r s' => returned r /\ reset_settled (done ++ pins) s') s.
Proof.
  induction pins as [|pin pins IH]; intros done s Hs; simpl.
  - wp_go. rewrite app_nil_r.
    split; [eexists; eexists; reflexivity | exact Hs].
  - apply wp_bind. eapply wp_conseq; [apply reset_line_settled; exact Hs|].
    intros r s' [(a & w & ->) Hs']. simpl.
    eapply wp_conseq; [apply IH; exact Hs'|].
    intros r s'' [Hr Hs'']. split; [exact Hr|].
    rewrite <- app_assoc in Hs''. exact Hs''.
Qed.

Lemma reset_gpio_settled CHIP :
  wp (both (both obs_step warn_step) settle_step) (Managed.reset_gpio CHIP)
    (fun r s' => returned r /\ reset_settled Managed.pins s')
    ((obs0, []), (None, [])).
Proof.
  unfold Managed.reset_gpio.
  change (reset_settled Managed.pins) with (reset_settled ([] ++ Managed.pins)).
  generalize Managed.pins as ps. intros ps. wp_go.
  eapply wp_conseq.
  - apply (reset_lines_settled CHIP ps [] ((obs0, []), (None, []))).
    unfold reset_settled. simpl. repeat split.
  - intros r s [(a & w' & ->) Hs]. simpl.
    destruct s as [[o wd] [cur outs]].
    destruct Hs as (Hcur & Hs). simpl in Hcur. subst cur.
    wp_go. split; [eexists; eexists; reflexivity|].
    split; [reflexivity | exact Hs].
Qed.

(** X11: whatever the driver answers, [reset_gpio] goes through pins 16, 17
    and 21 in that order and each of them ends either with the release of
    the handle got for it or with a warning that names it; the warnings are
    exactly those of the pins not released; every line acquired as input is
    released, in the order acquired; no fatal error is reported. *)
Theorem cleanup_accounts_for_each_line :
  forall CHIP w,
    let t := run_trace (Managed.reset_gpio CHIP) w in
    map fst (settled t) = [16; 17; 21]
    /\ warned t = map fst (filter (fun x => negb (snd x)) (settled t))
    /\ o_released (observe t) = o_acquired (observe t)
    /\ List.length (o_released (observe t))
       = List.length (filter snd (settled t))
    /\ o_diag (observe t) = None.
Proof.
  intros CHIP w t.
  pose proof (reset_gpio_settled CHIP w) as [_ H].
  rewrite !after_both in H. destruct H as (_ & H). exact H.
Qed.

Lemma reset_gpio_closes_once CHIP w :
  closes_of CHIP (run_trace (Managed.reset_gpio CHIP) w) = 1%nat.
Proof.
  pose proof (reset_gpio_closes CHIP CHIP O w) as [_ H].
  rewrite after_count_closes, Z.eqb_refl in H. exact H.
Qed.

Lemma emit_bind {A} e (m : M A) w :
  (emit e ;; m) w = (e :: fst (m w), snd (m w)).
Proof. unfold bind, emit. destruct (m w) as [t r]. reflexivity. Qed.

Lemma main_create_run thread message w :
  Managed.main_create thread message w
  = if r_val (fst (next w)) =? 0
    then ([EPthreadCreate thread (r_val (fst (next w)))],
          Ret tt (snd (next w)))
    else ([EPthreadCreate thread (r_val (fst (next w)));
           EStderr "ERROR: %s\n" [PStr message]; EExit 1],
          Exit 1).
Proof.
  unfold Managed.main_create, pthread_create.
  erewrite bind_run by apply call_val_run.
  destruct (r_val (fst (next w)) =? 0); reflexivity.
Qed.

Lemma main_open_run w :
  Managed.main_open w
  = if r_val (fst (next w)) =? 0
    then ([EChipOpen CHIP_NAME (r_val (fst (next w)));
           EStderr "ERROR: %s\n" [PStr "cannot open the chip"]; EExit 1],
          Exit 1)
    else ([EChipOpen CHIP_NAME (r_val (fst (next w)))],
          Ret (r_val (fst (next w))) (snd (next w))).
Proof.
  unfold Managed.main_open, gpiod_chip_open_by_name.
  erewrite bind_run by apply call_val_run.
  destruct (r_val (fst (next w)) =? 0); reflexivity.
Qed.

(** X12: in the program that registers [reset_gpio], on the paths where the
    process ends with no thread running: when the chip cannot be opened the
    process reports it and exits with status 1, and nothing is reset; when
    the first thread cannot be created the process reports it, exits with
    status 1 and runs [reset_gpio] on the chip it opened; when it ends with
    status 0, both threads having been joined and nobody having called
    [exit], it ends with the run of [reset_gpio] on that chip, which is
    closed exactly once. *)
Theorem managed_cleanup_when_no_thread_runs :
  forall pw,
    (r_val (reply_at 0 (pw_main pw)) = 0 ->
     Managed.main pw
     = ([ EChipOpen CHIP_NAME 0;
          EStderr "ERROR: %s\n" [PStr "cannot open the chip"];
          EExit 1 ],
        Some 1))
    /\ (r_val (reply_at 0 (pw_main pw)) <> 0 ->
        r_val (reply_at 1 (pw_main pw)) <> 0 ->
        Managed.main pw
        = ([ EChipOpen CHIP_NAME (r_val (reply_at 0 (pw_main pw)));
             EAtexit "reset_gpio";
             EPthreadCreate "issuer_thread" (r_val (reply_at 1 (pw_main pw)));
             EStderr "ERROR: %s\n"
               [PStr "cannot create the thread for the issuer"];
             EExit 1 ]
           ++ run_trace
                (Managed.reset_gpio (r_val (reply_at 0 (pw_main pw))))
                (pw_atexit pw),
           Some 1))
    /\ (snd (Managed.main pw) = Some 0 ->
        exists pre,
          r_val (reply_at 0 (pw_main pw)) <> 0
          /\ fst (Managed.main pw)
             = EChipOpen CHIP_NAME (r_val (reply_at 0 (pw_main pw)))
               :: EAtexit "reset_gpio"
               :: pre ++ [EPthreadJoin 0; EPthreadJoin 1]
               ++ run_trace
                    (Managed.reset_gpio (r_val (reply_at 0 (pw_main pw))))
                    (pw_atexit pw)
          /\ forallb not_close pre = true
          /\ has_exit pre = false
          /\ closes_of (r_val (reply_at 0 (pw_main pw)))
               (fst (Managed.main pw))
             = 1%nat).
Proof.
  intros pw. rewrite reply_at_S, !reply_at_0.
  split; [|split].
  - intros H0. unfold Managed.main. rewrite main_open_run, H0. reflexivity.
  - intros H0 H1. apply Z.eqb_neq in H0, H1.
    unfold Managed.main. rewrite main_open_run, H0.
    unfold atexit. rewrite emit_bind, main_create_run, H1. reflexivity.
  - intros Hst.
    pose proof (sound_process_status _ _ (Managed_main_sound pw))
      as (_ & _ & Hx & _).
    specialize (Hx Hst). revert Hst Hx.
    unfold Managed.main. rewrite main_open_run.
    destruct (r_val (fst (next (pw_main pw))) =? 0) eqn:E0;
      [discriminate|].
    set (CHIP := r_val (fst (next (pw_main pw)))).
    unfold atexit. rewrite emit_bind.
    rewrite main_create_run.
    destruct (r_val (fst (next (snd (next (pw_main pw))))) =? 0);
      [|intros Hst; discriminate].
    set (t1 := [EPthreadCreate "issuer_thread" _]) in *.
    set (w2 := snd (next (snd (next (pw_main pw))))).
    simpl fst; simpl snd.
    pose proof (all_events_run _ _ (pw_issuer pw)
                  (no_close_Managed_issuer_thread CHIP Managed.issuer_arg
                     (pw_locals pw))) as Hi.
    pose proof (disciplined_sound _ (pw_issuer pw)
                  (disciplined_Managed_issuer_thread CHIP Managed.issuer_arg
                     (pw_locals pw))) as Si.
    destruct (Managed.issuer_thread CHIP Managed.issuer_arg (pw_locals pw)
                (pw_issuer pw)) as [ti ri]. simpl in Hi, Si.
    pose proof (no_close_Managed_main_second CHIP pw w2) as Hs.
    pose proof (Managed_main_second_sound CHIP pw w2) as Ss.
    destruct (Managed.main_second CHIP pw w2) as [ts os]. simpl in Hs, Ss.
    destruct (run_threads_sound (pw_sched pw) _ _ _ _ Si Ss)
      as [(_ & _ & _ & Hc) _].
    pose proof (no_close_run_threads (pw_sched pw) ti (outcome_of ri) ts os
                  Hi Hs) as Hr.
    destruct (run_threads (pw_sched pw) (ti, outcome_of ri) (ts, os))
      as [t2 o2] eqn:Ert. rewrite ?Ert in Hr. simpl in Hr, Hc.
    unfold Managed.exit_handlers.
    destruct o2 as [|c|]; simpl fst; simpl snd; intros Hst Hx;
      try discriminate.
    2:{ rewrite (Hc c eq_refl) in Hst. discriminate. }
    exists (t1 ++ t2).
    assert (forallb not_close (t1 ++ t2) = true) as Hp.
    { rewrite forallb_app, Hr. reflexivity. }
    split; [apply Z.eqb_neq; exact E0|].
    split; [simpl; rewrite <- ?app_assoc; reflexivity|].
    split; [exact Hp|].
    split.
    + change (has_exit (t2 ++ EPthreadJoin 0 :: EPthreadJoin 1
                        :: run_trace (Managed.reset_gpio CHIP) (pw_atexit pw))
              = false) in Hx.
      rewrite has_exit_app in Hx.
      apply orb_false_elim in Hx as [Hx _].
      rewrite has_exit_app. exact Hx.
    + change (closes_of CHIP
                (t2 ++ EPthreadJoin 0 :: EPthreadJoin 1
                 :: run_trace (Managed.reset_gpio CHIP) (pw_atexit pw))
              = 1%nat).
      rewrite closes_of_app, (no_close_closes CHIP t2 Hr). simpl.
      apply reset_gpio_closes_once.
Qed.

Lemma managed_cleanup_when_no_thread_runs_witness :
  exists pre,
    r_val (reply_at 0 (pw_main all_calls_succeed)) <> 0
    /\ fst (Managed.main all_calls_succeed)
       = EChipOpen CHIP_NAME (r_val (reply_at 0 (pw_main all_calls_succeed)))
         :: EAtexit "reset_gpio"
         :: pre ++ [EPthreadJoin 0; EPthreadJoin 1]
         ++ run_trace
              (Managed.reset_gpio
                 (r_val (reply_at 0 (pw_main all_calls_succeed))))
              (pw_atexit all_calls_succeed)
    /\ forallb not_close pre = true
    /\ has_exit pre = false
    /\ closes_of (r_val (reply_at 0 (pw_main all_calls_succeed)))
         (fst (Managed.main all_calls_succeed))
       = 1%nat.
Proof.
  apply (proj2 (proj2 (managed_cleanup_when_no_thread_runs
                         all_calls_succeed))).
  vm_compute. reflexivity.
Defined.

(** ** The exit status, whatever the environment and the schedule *)

Lemma Gpio2_main_open_run w :
  Gpio2.main_open w
  = if r_val (fst (next w)) =? 0
    then ([EChipOpen CHIP_NAME (r_val (fst (next w)));
           EStderr "ERROR: %s\n" [PStr "cannot open the chip"]; EExit 1],
          Exit 1)
    else ([EChipOpen CHIP_NAME (r_val (fst (next w)))],
          Ret (r_val (fst (next w))) (snd (next w))).
Proof. exact (main_open_run w). Qed.

Lemma Gpio2_main_create_run thread message w :
  Gpio2.main_create thread message w
  = if r_val (fst (next w)) =? 0
    then ([EPthreadCreate thread (r_val (fst (next w)))],
          Ret tt (snd (next w)))
    else ([EPthreadCreate thread (r_val (fst (next w)));
           EStderr "ERROR: %s\n" [PStr message]; EExit 1],
          Exit 1).
Proof. exact (main_create_run thread message w). Qed.

(** X19: in both programs of the issuer and the relay, the process exits
    with status 0 when the calls of [main] succeed and both threads return;
    whenever a diagnostic [ERROR: <message>] is printed the process exits
    with status 1; whenever it exits with status 1 such a diagnostic was
    printed to the error stream before the [exit(1)]; no other status
    occurs; and in [gpio2.c] a chip that cannot be opened, or a first thread
    that cannot be created, gives that report, [exit(1)] and nothing more. *)
Theorem process_exit_status :
  forall pw,
    ((Gpio2.completes pw -> snd (Gpio2.main pw) = Some 0)
     /\ (forall msg,
           In (EStderr "ERROR: %s\n" [PStr msg]) (fst (Gpio2.main pw)) ->
           snd (Gpio2.main pw) = Some 1)
     /\ (snd (Gpio2.main pw) = Some 1 -> fatal_report (fst (Gpio2.main pw)))
     /\ (snd (Gpio2.main pw) = Some 0 \/ snd (Gpio2.main pw) = Some 1
         \/ snd (Gpio2.main pw) = None))
    /\ ((Managed.completes pw -> snd (Managed.main pw) = Some 0)
        /\ (forall msg,
              In (EStderr "ERROR: %s\n" [PStr msg]) (fst (Managed.main pw)) ->
              snd (Managed.main pw) = Some 1)
        /\ (snd (Managed.main pw) = Some 1 ->
            fatal_report (fst (Managed.main pw)))
        /\ (snd (Managed.main pw) = Some 0 \/ snd (Managed.main pw) = Some 1
            \/ snd (Managed.main pw) = None))
    /\ (r_val (reply_at 0 (pw_main pw)) = 0 ->
        Gpio2.main pw
        = ([ EChipOpen CHIP_NAME 0;
             EStderr "ERROR: %s\n" [PStr "cannot open the chip"];
             EExit 1 ],
           Some 1))
    /\ (r_val (reply_at 0 (pw_main pw)) <> 0 ->
        r_val (reply_at 1 (pw_main pw)) <> 0 ->
        Gpio2.main pw
        = ([ EChipOpen CHIP_NAME (r_val (reply_at 0 (pw_main pw)));
             EPthreadCreate "issuer_thread" (r_val (reply_at 1 (pw_main pw)));
             EStderr "ERROR: %s\n"
               [PStr "cannot create the thread for the issuer"];
             EExit 1 ],
           Some 1)).
Proof.
  intros pw. split; [|split; [|split]].
  - destruct (sound_process_status _ _ (Gpio2_main_sound pw))
      as (H1 & H2 & _ & H4).
    split; [apply Gpio2_completes_status|]. auto.
  - destruct (sound_process_status _ _ (Managed_main_sound pw))
      as (H1 & H2 & _ & H4).
    split; [apply Managed_completes_status|]. auto.
  - rewrite reply_at_0. intros H0.
    unfold Gpio2.main. rewrite Gpio2_main_open_run, H0. reflexivity.
  - rewrite reply_at_S, !reply_at_0. intros H0 H1.
    apply Z.eqb_neq in H0, H1.
    unfold Gpio2.main.
    rewrite Gpio2_main_open_run, H0, Gpio2_main_create_run, H1.
    reflexivity.
Qed.

Lemma process_exit_status_witness :
  (snd (Gpio2.main all_calls_succeed) = Some 0
   /\ snd (Gpio2.main issuer_write_fails) = Some 1
   /\ fatal_report (fst (Gpio2.main issuer_write_fails)))
  /\ (snd (Managed.main all_calls_succeed) = Some 0
      /\ snd (Managed.main issuer_write_fails) = Some 1
      /\ fatal_report (fst (Managed.main issuer_write_fails))).
Proof.
  split; (split; [|split]).
  - apply (proj1 (proj1 (process_exit_status all_calls_succeed))).
    exists 100.
    eexists. eexists. split; [reflexivity|].
    split; [reflexivity|].
    split; [eexists; eexists; reflexivity|].
    split; vm_compute; eexists; eexists; reflexivity.
  - apply (proj1 (proj2 (proj1 (process_exit_status issuer_write_fails)))
             "issuer: cannot change the value of the output"%string).
    vm_compute. tauto.
  - apply (proj1 (proj2 (proj2 (proj1
             (process_exit_status issuer_write_fails))))).
    apply (proj1 (proj2 (proj1 (process_exit_status issuer_write_fails)))
             "issuer: cannot change the value of the output"%string).
    vm_compute. tauto.
  - apply (proj1 (proj1 (proj2 (process_exit_status all_calls_succeed)))).
    exists 100.
    eexists. eexists. split; [reflexivity|].
    split; [reflexivity|].
    split; [eexists; eexists; reflexivity|].
    split; vm_compute; eexists; eexists; reflexivity.
  - apply (proj1 (proj2 (proj1 (proj2
             (process_exit_status issuer_write_fails))))
             "issuer: cannot change the value of the output"%string).
    vm_compute. tauto.
  - apply (proj1 (proj2 (proj2 (proj1 (proj2
             (process_exit_status issuer_write_fails)))))).
    apply (proj1 (proj2 (proj1 (proj2
             (process_exit_status issuer_write_fails))))
             "issuer: cannot change the value of the output"%string).
    vm_compute. tauto.
Defined.

(** ** The two-LED program *)

(** A sleep of [led_thread] that comes back went as the sleep of the issuer
    does: the two loops differ in their diagnostics only. *)
Lemma led_sleep_loop_ret fuel :
  forall f d r w t f' w',
    Gpio1.sleep_loop fuel f d r w = (t, Ret f' w') ->
    sleep_loop fuel (pure tt) f d r w = (t, Ret f' w').
Proof.
  induction fuel as [|fuel IH]; intros f d r w t f' w' H; simpl in *.
  - discriminate.
  - unfold bind at 1 in H. unfold bind at 1.
    destruct (nanosleep f d r w) as [t1 [[rc f1] w1|c|]]; try discriminate.
    destruct (rc =? -1); [|exact H].
    unfold bind at 1 in H. unfold bind at 1. unfold get_errno in *.
    destruct (errno w1); simpl in *.
    + destruct (Gpio1.sleep_loop fuel f1 r p_remaining_again w1)
        as [t2 [f2 w2|c|]] eqn:E; try discriminate.
      rewrite (IH _ _ _ _ _ _ _ E). exact H.
    + discriminate.
    + discriminate.
    + discriminate.
Qed.

Lemma led_do_sleep_ret f w t f' w' :
  Gpio1.do_sleep f w = (t, Ret f' w') ->
  do_sleep (pure tt) f w = (t, Ret f' w').
Proof. unfold Gpio1.do_sleep, do_sleep. apply led_sleep_loop_ret. Qed.

(** The loop of [led_thread] when it runs to its end: the levels written,
    the level the line is left at, and the time slept. *)
Lemma led_loop_run n :
  forall cycle led f w t f' w' cur,
    Gpio1.led_loop n cycle led f w = (t, Ret f' w') ->
    levels t = levels_from cycle n
    /\ after level_step (cur, None) t = (last (levels_from cycle n) cur, None)
    /\ slept t = Z.of_nat n * ts_to_ns (duration f)
    /\ duration f' = duration f.
Proof.
  induction n as [|n IH]; intros cycle led f w t f' w' cur H; simpl in H.
  - apply pure_inv in H as (-> & _ & ->). simpl. repeat split.
  - split_run H H1. apply emit_inv in H1 as (-> & ->).
    split_run H H1. apply call_val_inv in H1 as (-> & -> & ->).
    split_run H H1. guard_off H1.
    split_run H H1. apply led_do_sleep_ret in H1.
    pose proof (do_sleep_levels _ _ _ _ _ _ H1) as HL.
    pose proof (do_sleep_slept _ _ _ _ _ _ H1) as [HS HD].
    unfold do_sleep in H1. apply sleep_loop_ret in H1.
    apply (IH _ _ _ _ _ _ _ (odd_bit cycle)) in H as (IL & IV & IS & ID).
    rewrite HD in IS, ID.
    replace (Z.of_nat (S n) * ts_to_ns (duration f))
      with (ts_to_ns (duration f) + Z.of_nat n * ts_to_ns (duration f))
      by lia.
    repeat split.
    + rewrite levels_from_S, <- odd_bit_mod2.
      simpl. rewrite levels_app, HL, IL. reflexivity.
    + simpl app. rewrite !after_cons, after_app.
      change (level_step (level_step (cur, None) (EStdout _ _))
                (ESetValue _ _ _))
        with (odd_bit cycle, @None Z).
      rewrite (after_level_nanosleep _ _ H1), IV.
      rewrite levels_from_S, last_cons, odd_bit_mod2. reflexivity.
    + simpl. rewrite slept_app, HS, IS. reflexivity.
    + exact ID.
Qed.

Lemma led_thread_run args locals w t w' :
  Gpio1.led_thread args locals w = (t, Ret tt w') ->
  levels t = alternation (Z.to_nat (Gpio1.count args)) ++ [0]
  /\ level_at_release t = Some 0
  /\ slept t
     = Z.max 0 (Gpio1.count args)
       * (Gpio1.duration_sec args * NSEC_PER_SEC
          + Gpio1.duration_nano_sec args).
Proof.
  unfold Gpio1.led_thread. intros H.
  split_run H H1. apply call_val_inv in H1 as (-> & -> & ->).
  split_run H H1. guard_off H1.
  split_run H H1. apply call_val_inv in H1 as (-> & -> & ->).
  split_run H H1. guard_off H1.
  split_run H H1.
  apply (led_loop_run _ _ _ _ _ _ _ _ 0) in H1 as (HL & HV & HS & _).
  split_run H H2. apply call_val_inv in H2 as (-> & -> & ->).
  split_run H H2. guard_off H2.
  split_run H H2. apply emit_inv in H2 as (-> & ->).
  apply pure_inv in H as (_ & _ & ->).
  repeat split.
  - simpl. rewrite !levels_app, HL. simpl.
    rewrite levels_from_0. reflexivity.
  - unfold level_at_release. simpl app.
    rewrite !after_cons, !after_app.
    change (level_step (level_step (0, None) (EGetLine _ _ _))
              (EReqOutput _ _ _ _))
      with (0, @None Z).
    rewrite HV. reflexivity.
  - simpl. rewrite !slept_app, HS. simpl.
    replace (Z.of_nat (Z.to_nat (Gpio1.count args)))
      with (Z.max 0 (Gpio1.count args)) by lia.
    unfold ts_to_ns. simpl. lia.
Qed.

Lemma disciplined_led_loop n :
  forall cycle led f, disciplined (Gpio1.led_loop n cycle led f).
Proof.
  induction n as [|n IH]; intros cycle led f; simpl; unfold disciplined.
  - wp_go. reflexivity.
  - wp_go; [split; reflexivity|].
    apply wp_led_do_sleep.
    + reflexivity.
    + intros msg _. wp_go. split; reflexivity.
    + intros f' w'. simpl. apply IH.
    + reflexivity.
Qed.

Lemma disciplined_led_thread args locals :
  disciplined (Gpio1.led_thread args locals).
Proof.
  unfold Gpio1.led_thread.
  unfold disciplined. wp_go; try (split; reflexivity).
  eapply wp_conseq; [apply disciplined_led_loop|].
  intros [f' w'|c|] s' Hs; simpl in *; subst; auto.
  wp_go; try (split; reflexivity); try reflexivity.
Qed.

Lemma no_close_led_loop n :
  forall cycle led f, all_events not_close (Gpio1.led_loop n cycle led f).
Proof.
  induction n as [|n IH]; intros cycle led f; simpl; no_close_go.
  apply wp_led_do_sleep.
  - reflexivity.
  - intros msg _. wp_go. reflexivity.
  - intros f' w'. simpl. apply IH.
  - reflexivity.
Qed.

Lemma no_close_led_thread args locals :
  all_events not_close (Gpio1.led_thread args locals).
Proof.
  unfold Gpio1.led_thread. no_close_go.
  eapply wp_conseq; [apply no_close_led_loop|].
  intros [f' w'|c|] s' Hs; simpl in *; subst; auto. no_close_go.
Qed.

Lemma disciplined_Gpio1_main_create thread message :
  disciplined (Gpio1.main_create thread message).
Proof.
  unfold disciplined, Gpio1.main_create.
  wp_go; try (split; reflexivity); try reflexivity.
Qed.

Lemma disciplined_Gpio1_main_open : disciplined Gpio1.main_open.
Proof.
  unfold disciplined, Gpio1.main_open.
  wp_go; try (split; reflexivity); try reflexivity.
Qed.

Lemma no_close_Gpio1_main_open : all_events not_close Gpio1.main_open.
Proof. unfold Gpio1.main_open. no_close_go. Qed.

Lemma no_close_Gpio1_main_create thread message :
  all_events not_close (Gpio1.main_create thread message).
Proof. unfold Gpio1.main_create. no_close_go. Qed.

Lemma Gpio1_main_second_sound chip lw w :
  sound_run (fst (Gpio1.main_second chip lw w))
            (snd (Gpio1.main_second chip lw w)).
Proof.
  unfold Gpio1.main_second.
  pose proof (disciplined_Gpio1_main_create "led_thread"
                "cannot create the thread for the red LED") as Hc.
  pose proof (disciplined_sound _ w Hc) as Hs.
  destruct (Gpio1.main_create _ _ w) as [t r] eqn:E.
  pose proof (disciplined_cases _ _ _ _ Hc E) as Hq.
  destruct r as [a w'|c|]; simpl in *; try exact Hs.
  pose proof (disciplined_sound _ (Gpio1.lw_red lw)
                (disciplined_led_thread (Gpio1.red_args chip)
                   (Gpio1.lw_red_locals lw))) as Hr.
  destruct (Gpio1.led_thread _ _ _) as [t' r']. simpl in *.
  apply sound_run_app_quiet; assumption.
Qed.

Lemma no_close_Gpio1_main_second chip lw w :
  forallb not_close (fst (Gpio1.main_second chip lw w)) = true.
Proof.
  unfold Gpio1.main_second.
  pose proof (all_events_run _ _ w
                (no_close_Gpio1_main_create "led_thread"
                   "cannot create the thread for the red LED")) as Hc.
  destruct (Gpio1.main_create _ _ w) as [t [a w'|c|]]; simpl in *; auto.
  pose proof (all_events_run _ _ (Gpio1.lw_red lw)
                (no_close_led_thread (Gpio1.red_args chip)
                   (Gpio1.lw_red_locals lw))) as Hr.
  destruct (Gpio1.led_thread _ _ _) as [t' r']. simpl in *.
  rewrite forallb_app, Hc, Hr. reflexivity.
Qed.

Lemma Gpio1_main_sound lw :
  sound_process (fst (Gpio1.main lw)) (snd (Gpio1.main lw)).
Proof.
  unfold Gpio1.main.
  destruct (Gpio1.main_open (Gpio1.lw_main lw)) as [t0 r0] eqn:E0.
  pose proof (disciplined_cases _ _ _ _ disciplined_Gpio1_main_open E0) as H0.
  destruct r0 as [chip w1|c|]; simpl.
  2:{ destruct H0 as (-> & pre & d & -> & Hq & Hd). apply fatal_process; auto. }
  2:{ apply hang_process; assumption. }
  destruct (Gpio1.main_create "led_thread"
              "cannot create the thread for the green LED" w1)
    as [t1 r1] eqn:E1.
  pose proof (disciplined_cases _ _ _ _
                (disciplined_Gpio1_main_create _ _) E1) as H1.
  destruct r1 as [u w2|c|]; simpl.
  2:{ destruct H1 as (-> & pre & d & -> & Hq & Hd).
      apply sound_process_quiet_l; [assumption|].
      apply fatal_process; auto. }
  2:{ apply hang_process. rewrite forallb_app, H0, H1. reflexivity. }
  pose proof (disciplined_sound _ (Gpio1.lw_green lw)
                (disciplined_led_thread (Gpio1.green_args chip)
                   (Gpio1.lw_green_locals lw))) as Hi.
  destruct (Gpio1.led_thread (Gpio1.green_args chip)
              (Gpio1.lw_green_locals lw) (Gpio1.lw_green lw)) as [ti ri].
  simpl in Hi.
  pose proof (Gpio1_main_second_sound chip lw w2) as Hs.
  destruct (Gpio1.main_second chip lw w2) as [ts os]. simpl in Hs.
  destruct (run_threads_sound (Gpio1.lw_sched lw) _ _ _ _ Hi Hs) as [Hr _].
  destruct (run_threads (Gpio1.lw_sched lw) (ti, outcome_of ri) (ts, os))
    as [t2 o2]. simpl in Hr.
  apply sound_run_process in Hr.
  destruct o2 as [|c|]; simpl in *.
  - apply sound_process_quiet_l; [assumption|].
    apply sound_process_quiet_l; [assumption|].
    apply sound_process_quiet_r; [reflexivity | assumption].
  - apply sound_process_quiet_l; [assumption|].
    apply sound_process_quiet_l; assumption.
  - apply sound_process_quiet_l; [assumption|].
    apply sound_process_quiet_l; assumption.
Qed.

Lemma Gpio1_completes_status lw :
  Gpio1.completes lw -> snd (Gpio1.main lw) = Some 0.
Proof.
  intros (chip & w1 & w2 & H0 & H1 & (a2 & w3 & H2) & (ai & wi & Hi)
          & (ar & wr & Hr)).
  unfold Gpio1.main.
  rewrite (run_result_eq _ _ _ H0), (run_result_eq _ _ _ H1).
  pose proof (disciplined_sound _ (Gpio1.lw_green lw)
                (disciplined_led_thread (Gpio1.green_args chip)
                   (Gpio1.lw_green_locals lw))) as Si.
  rewrite (run_result_eq _ _ _ Hi) in Si |- *. simpl in Si.
  pose proof (Gpio1_main_second_sound chip lw w2) as Ss.
  assert (snd (Gpio1.main_second chip lw w2) = Returned) as Es.
  { unfold Gpio1.main_second. rewrite (run_result_eq _ _ _ H2).
    rewrite (run_result_eq _ _ _ Hr). reflexivity. }
  destruct (Gpio1.main_second chip lw w2) as [ts os]. simpl in Ss, Es.
  subst os.
  destruct (run_threads_sound (Gpio1.lw_sched lw) _ _ _ _ Si Ss) as [_ Hret].
  simpl outcome_of.
  destruct (run_threads (Gpio1.lw_sched lw) _ _) as [t2 o2]. simpl in Hret.
  rewrite (proj2 Hret (conj eq_refl eq_refl)). reflexivity.
Qed.

(** X13: [led_thread], when it runs to its end, writes the levels
    [i mod 2] for each cycle and then level 0, releases its line at level 0,
    has slept count times the duration, and got, acquired and released one
    line. *)
Theorem led_thread_complete_run :
  forall args locals w,
    returns (Gpio1.led_thread args locals) w ->
    let t := run_trace (Gpio1.led_thread args locals) w in
    levels t = alternation (Z.to_nat (Gpio1.count args)) ++ [0]
    /\ level_at_release t = Some 0
    /\ slept t
       = Z.max 0 (Gpio1.count args)
         * (Gpio1.duration_sec args * NSEC_PER_SEC
            + Gpio1.duration_nano_sec args)
    /\ exists l,
         l <> 0
         /\ observe t = {| o_got := [l]; o_acquired := [l];
                           o_released := [l]; o_diag := None |}.
Proof.
  intros args locals w H t.
  pose proof H as (a & w' & Hr).
  apply returns_run in H as ([] & w1 & H).
  apply led_thread_run in H as (HL & HV & HS).
  split; [exact HL|]. split; [exact HV|]. split; [exact HS|].
  pose proof (obs_led_thread args locals w) as Ho.
  unfold run_result in Hr. rewrite Hr in Ho.
  destruct Ho as (ls & Hlen & Hnz & Ho).
  destruct ls as [|l [|x ls]]; try discriminate.
  exists l. split; [|exact Ho].
  intros ->. apply Hnz. simpl. auto.
Qed.

Lemma led_thread_complete_run_witness :
  levels (run_trace (Gpio1.led_thread (Gpio1.red_args 100) sample_locals)
            (world_of [gives 1016]))
  = alternation 50 ++ [0]
  /\ level_at_release
       (run_trace (Gpio1.led_thread (Gpio1.red_args 100) sample_locals)
          (world_of [gives 1016]))
     = Some 0
  /\ slept (run_trace (Gpio1.led_thread (Gpio1.red_args 100) sample_locals)
              (world_of [gives 1016]))
     = 50 * 333333333
  /\ exists l,
       l <> 0
       /\ observe (run_trace
                     (Gpio1.led_thread (Gpio1.red_args 100) sample_locals)
                     (world_of [gives 1016]))
          = {| o_got := [l]; o_acquired := [l]; o_released := [l];
               o_diag := None |}.
Proof.
  apply (led_thread_complete_run (Gpio1.red_args 100) sample_locals
           (world_of [gives 1016])).
  vm_compute. eexists. eexists. reflexivity.
Defined.

(** X14: a run of [led_thread] that ends in a fatal error exits with status
    1 after a diagnostic; the line is still held exactly when the diagnostic
    is that of a failed write or of a failed sleep. *)
Theorem led_thread_leaks_on_failed_write_or_sleep :
  forall args locals w c,
    run_result (Gpio1.led_thread args locals) w = Exit c ->
    let s := observe (run_trace (Gpio1.led_thread args locals) w) in
    c = 1
    /\ exists msg,
         o_diag s = Some msg
         /\ if mem_string msg led_write_or_sleep
            then exists l, l <> 0 /\ o_got s = [l] /\ o_acquired s = [l]
                           /\ o_released s = []
            else incl (o_acquired s) (o_released s).
Proof.
  intros args locals w c H s.
  pose proof (obs_led_thread args locals w) as Ho.
  unfold run_result in H. rewrite H in Ho. exact Ho.
Qed.

Lemma led_thread_leaks_on_failed_write_or_sleep_witness :
  1 = 1
  /\ exists msg,
       o_diag (observe sample_red_sleep_fails) = Some msg
       /\ if mem_string msg led_write_or_sleep
          then exists l,
                 l <> 0
                 /\ o_got (observe sample_red_sleep_fails) = [l]
                 /\ o_acquired (observe sample_red_sleep_fails) = [l]
                 /\ o_released (observe sample_red_sleep_fails) = []
          else incl (o_acquired (observe sample_red_sleep_fails))
                 (o_released (observe sample_red_sleep_fails)).
Proof.
  apply (led_thread_leaks_on_failed_write_or_sleep (Gpio1.red_args 100)
           sample_locals (Gpio1.lw_red red_sleep_fails) 1).
  vm_compute. reflexivity.
Defined.

(** X15: the two-LED process exits with status 0 when the calls of [main]
    succeed and both threads return; a diagnostic [ERROR: <message>] implies
    status 1, and status 1 implies such a diagnostic before [exit(1)]; no
    other status occurs. *)
Theorem led_process_exit_status :
  forall lw,
    (Gpio1.completes lw -> snd (Gpio1.main lw) = Some 0)
    /\ (forall msg,
          In (EStderr "ERROR: %s\n" [PStr msg]) (fst (Gpio1.main lw)) ->
          snd (Gpio1.main lw) = Some 1)
    /\ (snd (Gpio1.main lw) = Some 1 -> fatal_report (fst (Gpio1.main lw)))
    /\ (snd (Gpio1.main lw) = Some 0 \/ snd (Gpio1.main lw) = Some 1
        \/ snd (Gpio1.main lw) = None).
Proof.
  intros lw.
  destruct (sound_process_status _ _ (Gpio1_main_sound lw))
    as (H1 & H2 & _ & H4).
  split; [apply Gpio1_completes_status|]. auto.
Qed.

Lemma led_process_exit_status_witness :
  snd (Gpio1.main leds_succeed) = Some 0
  /\ snd (Gpio1.main red_sleep_fails) = Some 1
  /\ fatal_report (fst (Gpio1.main red_sleep_fails)).
Proof.
  split; [|split].
  - apply (proj1 (led_process_exit_status leds_succeed)).
    exists 100.
    eexists. eexists. split; [reflexivity|].
    split; [reflexivity|].
    split; [eexists; eexists; reflexivity|].
    split; vm_compute; eexists; eexists; reflexivity.
  - apply (proj1 (proj2 (led_process_exit_status red_sleep_fails))
             "problem with copying information from user space"%string).
    vm_compute. tauto.
  - apply (proj1 (proj2 (proj2 (led_process_exit_status red_sleep_fails)))).
    apply (proj1 (proj2 (led_process_exit_status red_sleep_fails))
             "problem with copying information from user space"%string).
    vm_compute. tauto.
Defined.

(** X16: the two-LED process closes the chip handle only when it ends with
    status 0, as its last action; on every other run the chip is never
    closed. *)
Theorem led_main_closes_chip_last lw :
  (snd (Gpio1.main lw) = Some 0 ->
   exists pre chip,
     fst (Gpio1.main lw) = pre ++ [EChipClose chip]
     /\ forallb not_close pre = true)
  /\ (snd (Gpio1.main lw) <> Some 0 ->
      forallb not_close (fst (Gpio1.main lw)) = true).
Proof.
  unfold Gpio1.main.
  pose proof (all_events_run _ _ (Gpio1.lw_main lw) no_close_Gpio1_main_open)
    as H0.
  destruct (Gpio1.main_open (Gpio1.lw_main lw)) as [t0 r0] eqn:E0.
  pose proof (disciplined_cases _ _ _ _ disciplined_Gpio1_main_open E0) as D0.
  destruct r0 as [chip w1|c|]; simpl in H0.
  2:{ destruct D0 as [-> _]. simpl. split; [discriminate | auto]. }
  2:{ simpl. split; [discriminate | auto]. }
  pose proof (all_events_run _ _ w1
                (no_close_Gpio1_main_create "led_thread"
                   "cannot create the thread for the green LED")) as H1.
  destruct (Gpio1.main_create "led_thread" _ w1) as [t1 r1] eqn:E1.
  pose proof (disciplined_cases _ _ _ _
                (disciplined_Gpio1_main_create _ _) E1) as D1.
  destruct r1 as [u w2|c|]; simpl in H1.
  2:{ destruct D1 as [-> _]. simpl.
      split; [discriminate|]. intros _. rewrite forallb_app, H0, H1.
      reflexivity. }
  2:{ simpl. split; [discriminate|]. intros _. rewrite forallb_app, H0, H1.
      reflexivity. }
  pose proof (all_events_run _ _ (Gpio1.lw_green lw)
                (no_close_led_thread (Gpio1.green_args chip)
                   (Gpio1.lw_green_locals lw))) as Hi.
  pose proof (disciplined_sound _ (Gpio1.lw_green lw)
                (disciplined_led_thread (Gpio1.green_args chip)
                   (Gpio1.lw_green_locals lw))) as Si.
  destruct (Gpio1.led_thread (Gpio1.green_args chip)
              (Gpio1.lw_green_locals lw) (Gpio1.lw_green lw)) as [ti ri].
  simpl in Hi, Si.
  pose proof (no_close_Gpio1_main_second chip lw w2) as Hs.
  pose proof (Gpio1_main_second_sound chip lw w2) as Ss.
  destruct (Gpio1.main_second chip lw w2) as [ts os]. simpl in Hs, Ss.
  pose proof (no_close_run_threads (Gpio1.lw_sched lw) ti (outcome_of ri)
                ts os Hi Hs) as Hr.
  destruct (run_threads_sound (Gpio1.lw_sched lw) _ _ _ _ Si Ss)
    as [(_ & _ & _ & Hc) _].
  destruct (run_threads (Gpio1.lw_sched lw) (ti, outcome_of ri) (ts, os))
    as [t2 o2] eqn:Ert. rewrite ?Ert in Hr. simpl in Hr, Hc.
  destruct o2 as [|c|]; simpl.
  - split; [|intros H; exfalso; apply H; reflexivity].
    intros _. exists (t0 ++ t1 ++ t2 ++ [EPthreadJoin 0; EPthreadJoin 1]), chip.
    split; [rewrite <- !app_assoc; reflexivity|].
    rewrite !forallb_app, H0, H1, Hr. reflexivity.
  - rewrite (Hc c eq_refl). split; [discriminate|]. intros _.
    rewrite !forallb_app, H0, H1, Hr. reflexivity.
  - split; [discriminate|]. intros _.
    rewrite !forallb_app, H0, H1, Hr. reflexivity.
Qed.

Lemma led_main_closes_chip_last_witness :
  forallb not_close (fst (Gpio1.main red_sleep_fails)) = true.
Proof.
  apply (proj2 (led_main_closes_chip_last red_sleep_fails)).
  vm_compute. discriminate.
Defined.

(** ** What the issuer announces *)

Lemma cycles_from_S cycle n :
  cycles_from cycle (S n)
  = (cycle, up_down (odd_bit cycle)) :: cycles_from (cycle + 1) n.
Proof.
  unfold cycles_from. simpl. f_equal.
  - rewrite Z.add_0_r, odd_bit_mod2. unfold up_down. reflexivity.
  - rewrite <- seq_shift, map_map. apply map_ext. intros i.
    replace (cycle + 1 + Z.of_nat i) with (cycle + Z.of_nat (S i)) by lia.
    reflexivity.
Qed.

Lemma announce_Gpio2_issuer_loop n :
  forall cycle line f s,
    wp announce_step (Gpio2.issuer_loop n cycle line f)
      (announce_post cycle n s) s.
Proof.
  induction n as [|n IH]; intros cycle line f s; simpl.
  - wp_go. unfold cycles_from. simpl. rewrite app_nil_r. reflexivity.
  - wp_go; [exact I|].
    apply wp_do_sleep.
    + reflexivity.
    + intros msg. wp_go. exact I.
    + intros f' w'. simpl. eapply wp_conseq; [apply IH|].
      intros [a wr|c|] s' Hs; simpl in *; auto.
      rewrite Hs, cycles_from_S, <- app_assoc. reflexivity.
    + exact I.
Qed.

Lemma announce_Managed_issuer_loop n :
  forall cycle res f s,
    wp announce_step (Managed.issuer_loop n cycle res f)
      (announce_post cycle n s) s.
Proof.
  induction n as [|n IH]; intros cycle res f s; simpl.
  - wp_go. unfold cycles_from. simpl. rewrite app_nil_r. reflexivity.
  - wp_go; try exact I.
    apply wp_do_sleep.
    + reflexivity.
    + intros msg. wp_go; exact I.
    + intros f' w'. simpl. eapply wp_conseq; [apply IH|].
      intros [a wr|c|] s' Hs; simpl in *; auto.
      rewrite Hs, cycles_from_S, <- app_assoc. reflexivity.
    + exact I.
Qed.

Lemma announce_led_loop n :
  forall cycle led f s,
    wp announce_step (Gpio1.led_loop n cycle led f)
      (announce_post cycle n s) s.
Proof.
  induction n as [|n IH]; intros cycle led f s; simpl.
  - wp_go. unfold cycles_from. simpl. rewrite app_nil_r. reflexivity.
  - wp_go; [exact I|].
    apply wp_led_do_sleep.
    + reflexivity.
    + intros msg _. wp_go. exact I.
    + intros f' w'. simpl. eapply wp_conseq; [apply IH|].
      intros [a wr|c|] s' Hs; simpl in *; auto.
      rewrite Hs, cycles_from_S, <- app_assoc. reflexivity.
    + exact I.
Qed.

Lemma announce_Gpio2_issuer_thread args locals :
  wp announce_step (Gpio2.issuer_thread args locals)
    (announce_post 0 (Z.to_nat (Gpio2.count args)) []) [].
Proof.
  unfold Gpio2.issuer_thread. wp_go; try exact I.
  eapply wp_conseq; [apply announce_Gpio2_issuer_loop|].
  intros [a wr|c|] s' Hs; simpl in *; auto. subst s'.
  wp_go; try exact I. reflexivity.
Qed.

Lemma announce_Managed_issuer_thread CHIP args locals :
  wp announce_step (Managed.issuer_thread CHIP args locals)
    (announce_post 0 (Z.to_nat (Managed.count args)) []) [].
Proof.
  unfold Managed.issuer_thread. wp_go; try exact I.
  eapply wp_conseq; [apply announce_Managed_issuer_loop|].
  intros [a wr|c|] s' Hs; simpl in *; auto. subst s'.
  wp_go; try exact I; reflexivity.
Qed.

Lemma announce_led_thread args locals :
  wp announce_step (Gpio1.led_thread args locals)
    (announce_post 0 (Z.to_nat (Gpio1.count args)) []) [].
Proof.
  unfold Gpio1.led_thread. wp_go; try exact I.
  eapply wp_conseq; [apply announce_led_loop|].
  intros [a wr|c|] s' Hs; simpl in *; auto. subst s'.
  wp_go; try exact I. reflexivity.
Qed.

(** X18: an issuer or LED thread that runs to its end has announced each
    of its cycles once, in order, from 0 to count - 1, with [down] for an
    even cycle and [up] for an odd one, the level it then writes. *)
Theorem issuer_announces_each_cycle :
  (forall args locals w,
     returns (Gpio2.issuer_thread args locals) w ->
     announced (run_trace (Gpio2.issuer_thread args locals) w)
     = cycles_from 0 (Z.to_nat (Gpio2.count args)))
  /\ (forall CHIP args locals w,
        returns (Managed.issuer_thread CHIP args locals) w ->
        announced (run_trace (Managed.issuer_thread CHIP args locals) w)
        = cycles_from 0 (Z.to_nat (Managed.count args)))
  /\ (forall args locals w,
        returns (Gpio1.led_thread args locals) w ->
        announced (run_trace (Gpio1.led_thread args locals) w)
        = cycles_from 0 (Z.to_nat (Gpio1.count args))).
Proof.
  split; [|split].
  - intros args locals w (a & w' & H).
    pose proof (announce_Gpio2_issuer_thread args locals w) as Ho.
    unfold run_result in H. rewrite H in Ho. exact Ho.
  - intros CHIP args locals w (a & w' & H).
    pose proof (announce_Managed_issuer_thread CHIP args locals w) as Ho.
    unfold run_result in H. rewrite H in Ho. exact Ho.
  - intros args locals w (a & w' & H).
    pose proof (announce_led_thread args locals w) as Ho.
    unfold run_result in H. rewrite H in Ho. exact Ho.
Qed.

Lemma issuer_announces_each_cycle_witness :
  announced (run_trace
               (Managed.issuer_thread 100 Managed.issuer_arg sample_locals)
               (world_of [gives 1000]))
  = [(0, "down"); (1, "up"); (2, "down"); (3, "up"); (4, "down")]%string.
Proof.
  apply (proj1 (proj2 issuer_announces_each_cycle) 100 Managed.issuer_arg
           sample_locals (world_of [gives 1000])).
  vm_compute. eexists. eexists. reflexivity.
Defined.
